(** * The submap buffer: a paging store of map tiles

    A shallow embedding of [mapbuffer] (mapbuffer.cpp): the index of resident
    submaps, insertion, removal and lookup with demand loading, the save pass
    that writes one chunk file per quad of submaps, and the streaming reader
    of chunk files. *)

From Stdlib Require Import Ascii String.
From stdpp Require Import gmap strings list fin_maps fin_sets pretty.

Local Open Scope Z_scope.

(** ** Coordinates *)

(** [tripoint]: three signed integers.  The C++ [int] components are carried
    as [Z].  The index arithmetic of this unit halves a coordinate, doubles
    the half again and adds at most one, which stays within the range of the
    coordinate it started from; the scaled offset handed to the tile and the
    bounds of the window are left unbounded (their overflow would be
    undefined in the source, not a wrap-around). *)
Record tripoint := Tripoint { tx : Z; ty : Z; tz : Z }.

Record point := Point { px : Z; py : Z }.

(** The named constants of [point] and [tripoint], declared with the types:
    the origin (also the value of a default-constructed [tripoint]) and the
    unit offsets that make up a 2x2 group. *)
Definition tripoint_zero : tripoint := Tripoint 0 0 0.
Definition point_zero : point := Point 0 0.
Definition point_south : point := Point 0 1.
Definition point_east : point := Point 1 0.
Definition point_south_east : point := Point 1 1.

Global Instance tripoint_eq_dec : EqDecision tripoint.
Proof. solve_decision. Defined.

Global Instance tripoint_countable : Countable tripoint.
Proof.
  apply (inj_countable' (λ p, (tx p, ty p, tz p))
                        (λ t, Tripoint t.1.1 t.1.2 t.2)).
  by intros [].
Defined.

(** [operator<] of [tripoint], which orders the [std::map] index, is declared
    with the type, outside this unit.  It is taken as given; what the index
    needs of it is a strict total order. *)
Class TripointOrder := {
  tripoint_ltb : tripoint → tripoint → bool;
  tripoint_ltb_irrefl a : ¬ tripoint_ltb a a;
  tripoint_ltb_trans a b c :
    tripoint_ltb a b → tripoint_ltb b c → tripoint_ltb a c;
  tripoint_ltb_total a b : tripoint_ltb a b ∨ a = b ∨ tripoint_ltb b a;
}.

(** The order used in the examples: x first, then y, then z. *)
Definition lexicographic_ltb (a b : tripoint) : bool :=
  if decide (tx a = tx b) then
    if decide (ty a = ty b) then bool_decide (tz a < tz b)
    else bool_decide (ty a < ty b)
  else bool_decide (tx a < tx b).

Global Program Instance lexicographic_order : TripointOrder := {|
  tripoint_ltb := lexicographic_ltb;
|}.
Next Obligation.
  intros a. unfold lexicographic_ltb. rewrite !decide_True by done.
  rewrite bool_decide_spec. lia.
Qed.
Next Obligation.
  intros a b c. unfold lexicographic_ltb.
  repeat case_decide; rewrite !bool_decide_spec; lia.
Qed.
Next Obligation.
  intros [x y z] [x' y' z']. unfold lexicographic_ltb. simpl.
  repeat case_decide; rewrite !bool_decide_spec; subst;
    first [ lia | right; left; f_equal; lia
          | destruct (decide (z = z')) as [->|]; [by right; left|lia] ].
Qed.

(** The same order, walked from the other end. *)
Program Definition reverse_order : TripointOrder := {|
  tripoint_ltb a b := lexicographic_ltb b a;
|}.
Next Obligation.
  intros a. apply (tripoint_ltb_irrefl (TripointOrder:=lexicographic_order)).
Qed.
Next Obligation.
  intros a b c Hab Hbc.
  by apply (tripoint_ltb_trans (TripointOrder:=lexicographic_order) c b a).
Qed.
Next Obligation.
  intros a b.
  destruct (tripoint_ltb_total (TripointOrder:=lexicographic_order) a b)
    as [?|[?|?]]; auto.
Qed.

(** Modelled from the spec: the coordinate mapper of coordinate_conversions.h,
    which is defined outside this unit.  A quad coordinate is the tile
    coordinate floor-divided by 2 on the horizontal axes. *)
Definition sm_to_omt_copy (p : tripoint) : tripoint :=
  Tripoint (tx p `div` 2) (ty p `div` 2) (tz p).

(** Modelled from the spec: the lowest member of a quad (scale by 2). *)
Definition omt_to_sm_copy (p : tripoint) : tripoint :=
  Tripoint (2 * tx p) (2 * ty p) (tz p).

(** Modelled from the spec: a segment is 32 by 32 quads (floor division). *)
Definition omt_to_seg_copy (p : tripoint) : tripoint :=
  Tripoint (tx p `div` 32) (ty p `div` 32) (tz p).

(** Modelled from the spec: scaling of the horizontal axes, used for the
    absolute offset handed to the tile constructor and loader. *)
Definition multiply_xy (p : tripoint) (n : Z) : tripoint :=
  Tripoint (tx p * n) (ty p * n) (tz p).

Definition sm_to_ms_copy (p : tripoint) : tripoint := multiply_xy p 12.

(** ** Structured data of a chunk file *)

(** The document a chunk file holds, as the streaming reader and writer see
    it.  Object members keep their order: the reader depends on it. *)
#[warnings="-register-all"]
Inductive json :=
  | JNull
  | JBool (b : bool)
  | JInt (z : Z)
  | JString (s : string)
  | JArray (items : list json)
  | JObject (members : list (string * json)).

(** What a thrown [std::exception] carries: its [what()] text. *)
Definition exn := string.

(** ** The tile *)

(** The submap is defined outside this unit; the buffer uses its uniformity
    flag, its constructor and its member-wise codec. *)
Class Submap (submap : Type) := {
  is_uniform : submap → bool;
  submap_new : tripoint → submap;
  submap_store : submap → list (string * json);
  submap_load : submap → string → json → Z → tripoint → exn + submap;
}.

(** ** The game around the buffer *)

(** What the buffer reads from the game and does not change: the save path of
    the world, the position of the active map ([get_map().get_abs_sub()]),
    whether it has z-levels ([g != nullptr && here.has_zlevels()], with [g]
    in use already), the current level ([g->get_levz()]), the switch
    [disable_mapgen], and the constants [HALF_MAPSIZE] and
    [savegame_version], which are declared elsewhere. *)
Record game_env := {
  world_base_save_path : string;
  abs_sub : tripoint;
  has_zlevels : bool;
  levz : Z;
  disable_mapgen : bool;
  HALF_MAPSIZE : Z;
  savegame_version : Z;
  (** integer output of a [std::ostringstream] under the current locale *)
  stream_int : Z → string;
  (** whether the file reading helper absorbs what its reader throws; the
      helper is defined outside this unit and both ways are covered *)
  reader_absorbs : bool;
}.

(** [find_quad_path] *)
Definition find_quad_path (dirname : string) (om_addr : tripoint) : string :=
  dirname +:+ "/" +:+ pretty (tx om_addr) +:+ "." +:+ pretty (ty om_addr)
          +:+ "." +:+ pretty (tz om_addr) +:+ ".map".

(** [find_dirname] *)
Definition find_dirname (env : game_env) (om_addr : tripoint) : string :=
  let segment_addr := omt_to_seg_copy om_addr in
  world_base_save_path env +:+ "/maps/" +:+ pretty (tx segment_addr) +:+ "."
    +:+ pretty (ty segment_addr) +:+ "." +:+ pretty (tz segment_addr).

(** The path probed for saves of older versions, built with a string stream. *)
Definition legacy_quad_path (env : game_env) (dirname : string)
    (om_addr : tripoint) : string :=
  dirname +:+ "/" +:+ stream_int env (tx om_addr) +:+ "."
          +:+ stream_int env (ty om_addr) +:+ "."
          +:+ stream_int env (tz om_addr) +:+ ".map".

(** ** Diagnostics and observable effects *)

Inductive diag :=
  | RemoveNonExisting (addr : tripoint)
  | FailedToLoad (p : tripoint) (what : exn)
  | FailedToRead (path : string) (what : exn)
  | FileMissingSubmap (path : string) (p : tripoint)
  | CoordinatesNotAtTop
  | AlreadyLoaded (p : tripoint).

(** The trace: diagnostics, accesses to the disk, and a note of each call of
    [save_quad]. *)
Inductive event :=
  | EvDebugmsg (d : diag)
  | EvAssureDir (dir : string)
  | EvWriteFile (path : string)
  | EvFileExist (path : string)
  | EvReadFile (path : string)
  | EvSaveQuad (om_addr : tripoint) (delete_after_save : bool).

Global Instance diag_eq_dec : EqDecision diag.
Proof. solve_decision. Defined.
Global Instance event_eq_dec : EqDecision event.
Proof. solve_decision. Defined.

(** ** Pointers and the program state *)

Abbreviation addr := positive.

(** A [submap *] or the content of a [std::unique_ptr<submap>]:
    [None] is the null pointer. *)
Abbreviation ptr := (option addr).
Abbreviation nullptr := (@None addr).

Section Mapbuffer.
Context {submap : Type} `{!Submap submap} `{!TripointOrder}.
Variable env : game_env.

(** The state the buffer's code reads and writes: the index [submaps] of the
    [mapbuffer] object, the live [submap] objects behind its pointers, the
    save directory, and the effects seen from outside, oldest first. *)
Record world := World {
  submaps : gmap tripoint ptr;
  heap : gmap addr submap;
  files : gmap string json;
  dirs : gset string;
  trace : list event;
}.

Definition set_submaps (f : gmap tripoint ptr → gmap tripoint ptr) (w : world) :=
  World (f (submaps w)) (heap w) (files w) (dirs w) (trace w).
Definition set_heap (f : gmap addr submap → gmap addr submap) (w : world) :=
  World (submaps w) (f (heap w)) (files w) (dirs w) (trace w).
Definition set_files (f : gmap string json → gmap string json) (w : world) :=
  World (submaps w) (heap w) (f (files w)) (dirs w) (trace w).
Definition set_dirs (f : gset string → gset string) (w : world) :=
  World (submaps w) (heap w) (files w) (f (dirs w)) (trace w).
Definition emit (e : event) (w : world) :=
  World (submaps w) (heap w) (files w) (dirs w) (trace w ++ [e]).

(** How a call ends: it returns, it leaves by an exception, it runs into
    undefined behaviour (a null or dangling pointer is dereferenced or freed),
    or the bound of a bounded loop is used up. *)
Inductive outcome (A : Type) :=
  | Ok (a : A) (w : world)
  | Throw (e : exn) (w : world)
  | Undefined
  | OutOfFuel.
Global Arguments Ok {A} a w.
Global Arguments Throw {A} e w.
Global Arguments Undefined {A}.
Global Arguments OutOfFuel {A}.

Definition M (A : Type) : Type := world → outcome A.

Definition ret {A} (a : A) : M A := λ w, Ok a w.
Definition bind {A B} (m : M A) (k : A → M B) : M B := λ w,
  match m w with
  | Ok a w' => k a w'
  | Throw e w' => Throw e w'
  | Undefined => Undefined
  | OutOfFuel => OutOfFuel
  end.
Definition throw {A} (e : exn) : M A := λ w, Throw e w.
Definition get_world : M world := λ w, Ok w w.
Definition modify (f : world → world) : M unit := λ w, Ok tt (f w).

(** [try { m } catch( const std::exception &err ) { handler }] *)
Definition try_catch {A} (m : M A) (handler : exn → M A) : M A := λ w,
  match m w with
  | Throw e w' => handler e w'
  | o => o
  end.

Global Instance M_ret : MRet M := @ret.
Global Instance M_bind : MBind M := λ A B k m, bind m k.

Definition debugmsg (d : diag) : M unit := modify (emit (EvDebugmsg d)).

(** [new submap( offset )] *)
Definition new_submap (offset : tripoint) : M addr := λ w,
  let a := fresh (dom (heap w)) in
  Ok a (set_heap (insert a (submap_new offset)) w).

(** [delete p]: nothing for the null pointer; the object must be live. *)
Definition delete_ptr (p : ptr) : M unit := λ w,
  match p with
  | None => Ok tt w
  | Some a =>
      if decide (a ∈ dom (heap w)) then Ok tt (set_heap (delete a) w)
      else Undefined
  end.

(** [*p] *)
Definition deref (p : ptr) : M submap := λ w,
  match p with
  | None => Undefined
  | Some a => match heap w !! a with Some sm => Ok sm w | None => Undefined end
  end.

(** [*p = obj]: the member functions of a submap change it in place. *)
Definition assign (p : ptr) (obj : submap) : M unit := λ w,
  match p with
  | None => Undefined
  | Some a =>
      if decide (a ∈ dom (heap w)) then Ok tt (set_heap (insert a obj) w)
      else Undefined
  end.

(** [submaps.count( p ) != 0] *)
Definition has_key (p : tripoint) (w : world) : bool :=
  bool_decide (is_Some (submaps w !! p)).

(** [submaps[p]]: the subscript creates a null entry when there is none. *)
Definition subscript (p : tripoint) : M ptr := λ w,
  match submaps w !! p with
  | Some sm => Ok sm w
  | None => Ok nullptr (set_submaps (insert p nullptr) w)
  end.

(** [mapbuffer::add_submap( const tripoint &, submap * )] *)
Definition add_submap (p : tripoint) (sm : ptr) : M bool := λ w,
  if has_key p w then Ok false w
  else Ok true (set_submaps (insert p sm) w).

(** [mapbuffer::add_submap( const tripoint &, std::unique_ptr<submap> & )]:
    returns the result and what the caller's handle holds afterwards. *)
Definition add_submap_unique (p : tripoint) (sm : ptr) : M (bool * ptr) :=
  result ← add_submap p sm;
  if result : bool then ret (true, nullptr) else ret (false, sm).

(** [mapbuffer::remove_submap] *)
Definition remove_submap (addr : tripoint) : M unit :=
  w ← get_world;
  match submaps w !! addr with
  | None => debugmsg (RemoveNonExisting addr)
  | Some sm =>
      delete_ptr sm;;
      modify (set_submaps (delete addr))
  end.

(** [mapbuffer::reset] and the destructor: every entry is deleted, then the
    index is cleared. *)
Definition reset : M unit :=
  w ← get_world;
  foldr (λ sm k, delete_ptr sm;; k) (modify (set_submaps (λ _, ∅)))
        ((map_to_list (submaps w)).*2).

(** *** The file system, as far as the buffer uses it *)

Definition file_exist (path : string) : M bool := λ w,
  Ok (bool_decide (is_Some (files w !! path))) (emit (EvFileExist path) w).

Definition assure_dir_exist (dir : string) : M unit :=
  modify (λ w, emit (EvAssureDir dir) (set_dirs (union {[dir]}) w)).

(** [write_to_file( path, writer )]: the writer produces the document, and
    what else it computes for its caller.  A disk that refuses the write is
    not modelled. *)
Definition write_to_file {A} (path : string) (writer : M (json * A)) : M A :=
  '(doc, a) ← writer;
  modify (λ w, emit (EvWriteFile path) (set_files (insert path doc) w));;
  ret a.

(** Modelled from the spec: [read_from_file_optional_json] is defined
    outside this unit.  An absent file is not an error; a present file is handed
    to the reader; a failure of the reader is either absorbed here, logged
    with the path and the cause, or passed on to the caller. *)
Definition read_from_file_optional_json (path : string)
    (reader : json → M unit) : M bool :=
  w ← get_world;
  match files w !! path with
  | None => ret false
  | Some doc =>
      modify (emit (EvReadFile path));;
      if reader_absorbs env then
        try_catch (reader doc;; ret true)
                  (λ err, debugmsg (FailedToRead path err);; ret false)
      else reader doc;; ret true
  end.

(** ** Reading a chunk: [mapbuffer::deserialize] *)

Definition json_error (what : string) : exn := "JsonError: " +:+ what.

(** [jsin.get_int()] *)
Definition get_int (j : json) : M Z :=
  match j with
  | JInt z => ret z
  | _ => throw (json_error "expected an integer")
  end.

(** The locals of one turn of the record loop. *)
Record record_locals := RecordLocals {
  sm : ptr;
  submap_coordinates : tripoint;
  version : Z;
}.

(** One turn of the member loop.  Whatever stands for the coordinates other
    than an array of three integers makes the streaming reader throw. *)
Definition deserialize_member (submap_member_name : string) (value : json)
    (l : record_locals) : M record_locals :=
  if decide (submap_member_name = "version") then
    v ← get_int value;
    ret (RecordLocals (sm l) (submap_coordinates l) v)
  else if decide (submap_member_name = "coordinates") then
    match value with
    | JArray [JInt i; JInt j; JInt k] =>
        let loc := Tripoint i j k in
        a ← new_submap (sm_to_ms_copy loc);
        delete_ptr (sm l);;
        ret (RecordLocals (Some a) loc (version l))
    | _ => throw (json_error "expected an array of three integers")
    end
  else
    (if sm l is None then debugmsg CoordinatesNotAtTop else ret tt);;
    obj ← deref (sm l);
    match submap_load obj submap_member_name value (version l)
                      (multiply_xy (submap_coordinates l) 12) with
    | inl err => throw err
    | inr obj' =>
        assign (sm l) obj';;
        ret l
    end.

(** The member loop of one record.  When a member throws, unwinding destroys
    the record's [unique_ptr] on the way out. *)
Fixpoint deserialize_members (members : list (string * json))
    (l : record_locals) : M record_locals :=
  match members with
  | [] => ret l
  | (name, value) :: rest =>
      l' ← try_catch (deserialize_member name value l)
                     (λ err, delete_ptr (sm l);; throw err);
      deserialize_members rest l'
  end.

(** One turn of the record loop. *)
Definition deserialize_record (record : json) : M unit :=
  match record with
  | JObject members =>
      l ← deserialize_members members (RecordLocals nullptr tripoint_zero 0);
      '(added, sm') ← add_submap_unique (submap_coordinates l) (sm l);
      (if added : bool then ret tt
       else debugmsg (AlreadyLoaded (submap_coordinates l)));;
      delete_ptr sm'
  | _ => throw (json_error "expected an object")
  end.

Fixpoint deserialize_records (records : list json) : M unit :=
  match records with
  | [] => ret tt
  | record :: rest => deserialize_record record;; deserialize_records rest
  end.

Definition deserialize (jsin : json) : M unit :=
  match jsin with
  | JArray records => deserialize_records records
  | _ => throw (json_error "expected an array")
  end.

(** ** Demand loading *)

(** [mapbuffer::unserialize_submaps] *)
Definition unserialize_submaps (p : tripoint) : M ptr :=
  let om_addr := sm_to_omt_copy p in
  let dirname := find_dirname env om_addr in
  let quad_path := find_quad_path dirname om_addr in
  found ← file_exist quad_path;
  quad_path ←
    (if found : bool then ret quad_path
     else
       let buffer := legacy_quad_path env dirname om_addr in
       found_old ← file_exist buffer;
       ret (if found_old : bool then buffer else quad_path));
  loaded ← read_from_file_optional_json quad_path deserialize;
  if negb loaded then ret nullptr
  else
    w ← get_world;
    if negb (has_key p w) then
      debugmsg (FileMissingSubmap quad_path p);; ret nullptr
    else subscript p.

(** [mapbuffer::lookup_submap] *)
Definition lookup_submap (p : tripoint) : M ptr :=
  w ← get_world;
  match submaps w !! p with
  | None =>
      try_catch (unserialize_submaps p)
                (λ err, debugmsg (FailedToLoad p err);; ret nullptr)
  | Some sm => ret sm
  end.

(** ** Writing a quad: [mapbuffer::save_quad] *)

Definition quad_offsets : list point :=
  [point_zero; point_south; point_east; point_south_east].

Definition offset_addr (om_addr : tripoint) (off : point) : tripoint :=
  let submap_addr := omt_to_sm_copy om_addr in
  Tripoint (tx submap_addr + px off) (ty submap_addr + py off) (tz submap_addr).

(** The first loop: the four addresses are computed and subscripted, and the
    quad is scanned for a tile that is not uniform. *)
Fixpoint scan_quad (om_addr : tripoint) (offsets : list point)
    (all_uniform : bool) (submap_addrs : list tripoint)
    : M (bool * list tripoint) :=
  match offsets with
  | [] => ret (all_uniform, submap_addrs)
  | off :: rest =>
      let submap_addr := offset_addr om_addr off in
      sm ← subscript submap_addr;
      all_uniform' ←
        (if sm is None then ret all_uniform
         else obj ← deref sm;
              ret (if negb (is_uniform obj) then false else all_uniform));
      scan_quad om_addr rest all_uniform' (submap_addrs ++ [submap_addr])
  end.

(** The loop of the elided quad: the members that hold a tile are queued. *)
Fixpoint queue_resident (submap_addrs submaps_to_delete : list tripoint)
    : M (list tripoint) :=
  match submap_addrs with
  | [] => ret submaps_to_delete
  | submap_addr :: rest =>
      w ← get_world;
      if has_key submap_addr w then
        sm ← subscript submap_addr;
        queue_resident rest
          (if sm is None then submaps_to_delete
           else submaps_to_delete ++ [submap_addr])
      else queue_resident rest submaps_to_delete
  end.

(** The record of one tile as the writer emits it. *)
Definition chunk_record (submap_addr : tripoint) (obj : submap) : json :=
  JObject (("version", JInt (savegame_version env))
           :: ("coordinates", JArray [JInt (tx submap_addr);
                                      JInt (ty submap_addr);
                                      JInt (tz submap_addr)])
           :: submap_store obj).

(** The loop inside the writer: one record per member that holds a tile. *)
Fixpoint write_records (delete_after_save : bool)
    (submap_addrs : list tripoint) (records : list json)
    (submaps_to_delete : list tripoint) : M (list json * list tripoint) :=
  match submap_addrs with
  | [] => ret (records, submaps_to_delete)
  | submap_addr :: rest =>
      w ← get_world;
      if negb (has_key submap_addr w) then
        write_records delete_after_save rest records submaps_to_delete
      else
        sm ← subscript submap_addr;
        if sm is None then
          write_records delete_after_save rest records submaps_to_delete
        else
          obj ← deref sm;
          write_records delete_after_save rest
            (records ++ [chunk_record submap_addr obj])
            (if delete_after_save then submaps_to_delete ++ [submap_addr]
             else submaps_to_delete)
  end.

(** [mapbuffer::save_quad]; the queue, passed by reference in the source, is
    returned. *)
Definition save_quad (dirname filename : string) (om_addr : tripoint)
    (submaps_to_delete : list tripoint) (delete_after_save : bool)
    : M (list tripoint) :=
  modify (emit (EvSaveQuad om_addr delete_after_save));;
  '(all_uniform, submap_addrs) ← scan_quad om_addr quad_offsets true [];
  if all_uniform : bool then
    if delete_after_save then queue_resident submap_addrs submaps_to_delete
    else ret submaps_to_delete
  else if disable_mapgen env then ret submaps_to_delete
  else
    assure_dir_exist dirname;;
    write_to_file filename
      ('(records, submaps_to_delete') ←
         write_records delete_after_save submap_addrs [] submaps_to_delete;
       ret (JArray records, submaps_to_delete')).

(** ** The save pass: [mapbuffer::save] *)

(** Iteration over the [std::map]: the iterator stands at a key or at the
    end; [begin()] is the least key, [++it] the least key above the current
    one in the index as it is at that moment. *)
Definition min_key (keys : list tripoint) : option tripoint :=
  foldr (λ k acc,
           match acc with
           | None => Some k
           | Some k' => Some (if tripoint_ltb k k' then k else k')
           end) None keys.

Definition map_begin (m : gmap tripoint ptr) : option tripoint :=
  min_key (elements (dom m)).

Definition map_next (m : gmap tripoint ptr) (key : tripoint) : option tripoint :=
  min_key (filter (λ k, tripoint_ltb key k) (elements (dom m))).

Record save_locals := SaveLocals {
  saved_submaps : gset tripoint;
  submaps_to_delete : list tripoint;
}.

(** The body of the loop over the index, for the entry at [key].  The
    progress popup of the source only draws and is left out. *)
Definition save_step (delete_after_save : bool) (key : tripoint)
    (l : save_locals) : M save_locals :=
  let map_origin := sm_to_omt_copy (abs_sub env) in
  let map_has_zlevels := has_zlevels env in
  let om_addr := sm_to_omt_copy key in
  if decide (om_addr ∈ saved_submaps l) then ret l
  else
    let saved := {[om_addr]} ∪ saved_submaps l in
    let dirname := find_dirname env om_addr in
    let quad_path := find_quad_path dirname om_addr in
    let zlev_del :=
      negb map_has_zlevels && negb (bool_decide (tz om_addr = levz env)) in
    queue ← save_quad dirname quad_path om_addr (submaps_to_delete l)
              (delete_after_save || zlev_del
               || bool_decide (tx om_addr < tx map_origin)
               || bool_decide (ty om_addr < ty map_origin)
               || bool_decide (tx om_addr > tx map_origin + HALF_MAPSIZE env)
               || bool_decide (ty om_addr > ty map_origin + HALF_MAPSIZE env));
    ret (SaveLocals saved queue).

Fixpoint save_loop (fuel : nat) (delete_after_save : bool)
    (it : option tripoint) (l : save_locals) : M save_locals :=
  match it with
  | None => ret l
  | Some key =>
      match fuel with
      | O => λ _, OutOfFuel
      | S fuel' =>
          l' ← save_step delete_after_save key l;
          w ← get_world;
          save_loop fuel' delete_after_save (map_next (submaps w) key) l'
      end
  end.

Fixpoint remove_submaps (queue : list tripoint) : M unit :=
  match queue with
  | [] => ret tt
  | elem :: rest => remove_submap elem;; remove_submaps rest
  end.

(** [mapbuffer::save].  The loop is given four turns per entry of the index;
    [save_returns] shows that this is enough.  The notification of the
    distribution grid tracker at the end is outside this unit. *)
Definition save (delete_after_save : bool) : M unit :=
  assure_dir_exist (world_base_save_path env +:+ "/maps");;
  w ← get_world;
  l ← save_loop (4 * size (submaps w)) delete_after_save
                (map_begin (submaps w)) (SaveLocals ∅ []);
  remove_submaps (submaps_to_delete l).

End Mapbuffer.

Global Arguments world : clear implicits.
Global Arguments outcome : clear implicits.
Global Arguments M : clear implicits.

(** ** A small tile type for the examples *)

(** A tile that remembers its offset and keeps the members it was loaded
    with, in order; a member named [corrupt] makes its loader throw. *)
Record demo_submap := DemoSubmap {
  demo_uniform : bool;
  demo_offset : tripoint;
  demo_fields : list (string * json);
}.

Global Instance demo_Submap : Submap demo_submap := {
  is_uniform := demo_uniform;
  submap_new off := DemoSubmap false off [];
  submap_store s := demo_fields s;
  submap_load s name value ver off :=
    if decide (name = "corrupt") then inl "corrupt member"%string
    else inr (DemoSubmap (demo_uniform s) (demo_offset s)
                         (demo_fields s ++ [(name, value)]));
}.

(** Integer output under a locale that groups digits in threes: 1234 is
    printed as 1,234. *)
Definition pad3 (n : N) : string :=
  if (n <? 10)%N then "00" +:+ pretty n
  else if (n <? 100)%N then "0" +:+ pretty n
  else pretty n.

Fixpoint group_digits (groups : nat) (n : N) : string :=
  match groups with
  | O => pretty n
  | S groups' =>
      if (n <? 1000)%N then pretty n
      else group_digits groups' (n `div` 1000)%N +:+ "," +:+ pad3 (n `mod` 1000)%N
  end.

Definition grouped_int (z : Z) : string :=
  match z with
  | Z0 => "0"
  | Zpos p => group_digits 4 (Npos p)
  | Zneg p => "-" +:+ group_digits 4 (Npos p)
  end.

Definition demo_env (mapgen_disabled : bool) : game_env := {|
  world_base_save_path := "save";
  abs_sub := tripoint_zero;
  has_zlevels := true;
  levz := 0;
  disable_mapgen := mapgen_disabled;
  HALF_MAPSIZE := 5;
  savegame_version := 7;
  stream_int := grouped_int;
  reader_absorbs := true;
|}.

Definition demo_tile (uniform : bool) (terrain : Z) : demo_submap :=
  DemoSubmap uniform tripoint_zero [("terrain"%string, JInt terrain)].

Definition demo_world (index : list (tripoint * ptr))
    (objects : list (addr * demo_submap)) (disk : list (string * json))
    : world demo_submap :=
  World (list_to_map index) (list_to_map objects) (list_to_map disk) ∅ [].

(** A chunk of two records, the second of which fails in the tile codec. *)
Definition demo_failing_chunk (env : game_env) : json :=
  JArray [chunk_record env (Tripoint 1 0 0) (demo_tile false 4);
          JObject [("version"%string, JInt 7);
                   ("coordinates"%string, JArray [JInt 0; JInt 1; JInt 0]);
                   ("corrupt"%string, JNull)]].

(** The state a call leaves, whichever way it ends. *)
Definition state_after {A} (o : outcome demo_submap A)
    (w : world demo_submap) : world demo_submap :=
  match o with
  | Ok _ w' | Throw _ w' => w'
  | _ => w
  end.

(** A buffer with a tile that is not uniform at the origin, a uniform tile
    beside it, and a tile that is not uniform far to the east. *)
Definition demo_buffer : world demo_submap :=
  demo_world [(tripoint_zero, Some 1%positive);
              (Tripoint 1 0 0, Some 2%positive);
              (Tripoint 40 0 0, Some 3%positive)]
             [(1%positive, demo_tile false 3);
              (2%positive, demo_tile true 0);
              (3%positive, demo_tile false 4)] [].

(** ** Vocabulary of the statements *)

Section Vocabulary.
Context {submap : Type} `{!Submap submap} `{!TripointOrder}.
Variable env : game_env.
Local Abbreviation world := (world submap).

(** What the member loop of one record keeps true, relative to the live
    objects [h0] at the start of the record: the record's handle is empty, or
    it owns one object that was not live before. *)
Definition record_inv (h0 : gmap addr submap) (l : record_locals) (w : world)
    : Prop :=
  match sm l with
  | None => heap w = h0
  | Some a => h0 !! a = None ∧ ∃ obj, heap w = <[a:=obj]> h0
  end.

Definition same_but_heap (w w' : world) : Prop :=
  submaps w' = submaps w ∧ files w' = files w ∧ dirs w' = dirs w
  ∧ trace w' = trace w.

(** Several effects at once come to the end of the trace, in order. *)
Definition emits (es : list event) (w : world) : world :=
  World (submaps w) (heap w) (files w) (dirs w) (trace w ++ es).

(** The file a demand load for [p] reads, if there is one: the chunk at the
    canonical path of the quad of [p], or else the one at the legacy path. *)
Definition quad_file (p : tripoint) (w : world) : option (string * json) :=
  let om_addr := sm_to_omt_copy p in
  let dirname := find_dirname env om_addr in
  let quad_path := find_quad_path dirname om_addr in
  match files w !! quad_path with
  | Some doc => Some (quad_path, doc)
  | None =>
      let old_path := legacy_quad_path env dirname om_addr in
      match files w !! old_path with
      | Some doc => Some (old_path, doc)
      | None => None
      end
  end.

(** The existence checks a demand load for [p] makes before it reads. *)
Definition probes (p : tripoint) (w : world) : list event :=
  let om_addr := sm_to_omt_copy p in
  let dirname := find_dirname env om_addr in
  let quad_path := find_quad_path dirname om_addr in
  match files w !! quad_path with
  | Some _ => [EvFileExist quad_path]
  | None => [EvFileExist quad_path;
             EvFileExist (legacy_quad_path env dirname om_addr)]
  end.

(** The four tile coordinates of a quad, in the order [save_quad] visits
    them. *)
Definition quad_members (om_addr : tripoint) : list tripoint :=
  offset_addr om_addr <$> quad_offsets.

(** The index holds a tile (not just a null entry) at the coordinate. *)
Definition resident (w : world) (a : tripoint) : bool :=
  match submaps w !! a with
  | Some (Some _) => true
  | _ => false
  end.

(** The tile the index holds at a coordinate, if it holds one. *)
Definition tile_at (w : world) (a : tripoint) : option submap :=
  match submaps w !! a with
  | Some (Some p) => heap w !! p
  | _ => None
  end.

(** The slot of a coordinate holds no tile, or a tile marked uniform. *)
Definition uniform_at (w : world) (a : tripoint) : bool :=
  match tile_at w a with
  | Some obj => is_uniform obj
  | None => true
  end.

Definition quad_uniform (w : world) (om_addr : tripoint) : bool :=
  forallb (uniform_at w) (quad_members om_addr).

(** The records of the tiles the index holds among the given coordinates. *)
Definition records_of (w : world) (addrs : list tripoint) : list json :=
  omap (λ a, chunk_record env a <$> tile_at w a) addrs.

(** The subscripts of [save_quad] leave a null entry where there was none. *)
Definition touch (m : gmap tripoint ptr) (a : tripoint) : gmap tripoint ptr :=
  match m !! a with
  | Some _ => m
  | None => <[a:=nullptr]> m
  end.

Definition touch_all (addrs : list tripoint) (m : gmap tripoint ptr)
    : gmap tripoint ptr :=
  foldl touch m addrs.

(** The buffer owns its tiles: every pointer of the index is a live object,
    and no object is entered under two coordinates. *)
Definition live (w : world) : Prop :=
  map_Forall (λ _ sm, if sm is Some p then is_Some (heap w !! p) else True)
             (submaps w).

Definition no_alias (w : world) : Prop :=
  map_Forall (λ k1 sm1,
    map_Forall (λ k2 sm2, sm1 = sm2 → is_Some sm1 → k1 = k2) (submaps w))
    (submaps w).

Definition owns (w : world) : Prop := live w ∧ no_alias w.

(** The deletion flag [save] hands to [save_quad] for a quad. *)
Definition delete_flag (delete_after_save : bool) (om_addr : tripoint) : bool :=
  let map_origin := sm_to_omt_copy (abs_sub env) in
  let zlev_del :=
    negb (has_zlevels env) && negb (bool_decide (tz om_addr = levz env)) in
  delete_after_save || zlev_del
  || bool_decide (tx om_addr < tx map_origin)
  || bool_decide (ty om_addr < ty map_origin)
  || bool_decide (tx om_addr > tx map_origin + HALF_MAPSIZE env)
  || bool_decide (ty om_addr > ty map_origin + HALF_MAPSIZE env).

(** The quads [save_quad] was called for, as the trace records them. *)
Definition saved_quads (tr : list event) : list tripoint :=
  omap (λ e, if e is EvSaveQuad q _ then Some q else None) tr.

(** The chunk files written, as the trace records them. *)
Definition written_files (tr : list event) : list string :=
  omap (λ e, if e is EvWriteFile path then Some path else None) tr.

(** What [save_quad] does to a state whose pointers are live, in closed
    form: whether it writes, the queue it returns, and the state it leaves. *)
Definition quad_written (w : world) (om_addr : tripoint) : bool :=
  negb (quad_uniform w om_addr) && negb (disable_mapgen env).

Definition save_quad_queue (delete_after_save : bool) (w : world)
    (om_addr : tripoint) (queue : list tripoint) : list tripoint :=
  queue ++
  (if delete_after_save
      && (quad_uniform w om_addr || negb (disable_mapgen env))
   then filter (λ a, resident w a) (quad_members om_addr)
   else []).

Definition save_quad_world (dirname filename : string) (om_addr : tripoint)
    (delete_after_save : bool) (w : world) : world :=
  let w1 := set_submaps (touch_all (quad_members om_addr))
                        (emit (EvSaveQuad om_addr delete_after_save) w) in
  if quad_written w om_addr then
    emit (EvWriteFile filename)
      (set_files (insert filename
                    (JArray (records_of w (quad_members om_addr))))
         (emit (EvAssureDir dirname) (set_dirs (union {[dirname]}) w1)))
  else w1.

(** Whether a character occurs in a string. *)
Fixpoint occurs (c : ascii) (s : string) : bool :=
  match s with
  | EmptyString => false
  | String a s' => bool_decide (a = c) || occurs c s'
  end.

(** The chunk path [save] and the demand load compute for a quad. *)
Definition chunk_path (om_addr : tripoint) : string :=
  find_quad_path (find_dirname env om_addr) om_addr.

(** The directory [save] makes sure of before anything else. *)
Definition maps_dir : string := world_base_save_path env +:+ "/maps".

(** One turn of the loop of [save] in closed form. *)
Definition save_step_result (d : bool) (key : tripoint) (l : save_locals)
    (w : world) : save_locals * world :=
  let q := sm_to_omt_copy key in
  if decide (q ∈ saved_submaps l) then (l, w)
  else
    (SaveLocals ({[q]} ∪ saved_submaps l)
                (save_quad_queue (delete_flag d q) w q (submaps_to_delete l)),
     save_quad_world (find_dirname env q) (chunk_path q) q (delete_flag d q) w).

(** Every coordinate the index can come to hold during a save pass that
    starts in [w0]: the members of the quads of its keys. *)
Definition universe (w0 : world) : gset tripoint :=
  list_to_set (k ← elements (dom (submaps w0));
               quad_members (sm_to_omt_copy k)).

(** How many turns the loop can still take with the iterator at [it]. *)
Definition remaining (w0 : world) (it : option tripoint) : nat :=
  match it with
  | None => 0
  | Some c => size (filter (λ u, ¬ tripoint_ltb u c) (universe w0))
  end.

(** A member of a quad that [save] deletes: the quad gets the deletion flag,
    and it is elided or written (not skipped because map generation is
    disabled). *)
Definition to_be_deleted (d : bool) (w0 : world) (a : tripoint) : Prop :=
  resident w0 a
  ∧ delete_flag d (sm_to_omt_copy a)
  ∧ (quad_uniform w0 (sm_to_omt_copy a) ∨ disable_mapgen env = false).

(** The entries an iterator has passed: all of them at the end. *)
Definition before (it : option tripoint) (k : tripoint) : Prop :=
  match it with
  | Some c => tripoint_ltb k c
  | None => True
  end.

(** The invariant of the loop of [save d] started in [w0], with the iterator
    at [it]. *)
Record loop_inv (d : bool) (w0 : world) (it : option tripoint)
    (l : save_locals) (w : world) : Prop := LoopInv {
  inv_live : live w;
  inv_heap : heap w = heap w0;
  inv_index : ∀ k,
    submaps w !! k = submaps w0 !! k
    ∨ (submaps w0 !! k = None ∧ submaps w !! k = Some nullptr
       ∧ sm_to_omt_copy k ∈ saved_submaps l);
  inv_saved_from : ∀ q, q ∈ saved_submaps l →
    ∃ k, is_Some (submaps w0 !! k) ∧ sm_to_omt_copy k = q;
  inv_touched : ∀ q a, q ∈ saved_submaps l → a ∈ quad_members q →
    is_Some (submaps w !! a);
  inv_cursor : if it is Some c then is_Some (submaps w !! c) else True;
  inv_behind : ∀ k, is_Some (submaps w !! k) →
    before it k → sm_to_omt_copy k ∈ saved_submaps l;
  inv_queue : ∀ a, a ∈ submaps_to_delete l ↔
    sm_to_omt_copy a ∈ saved_submaps l ∧ to_be_deleted d w0 a;
  inv_trace : ∃ tr,
    trace w = trace w0 ++ tr
    ∧ NoDup (saved_quads tr)
    ∧ (∀ q, q ∈ saved_quads tr ↔ q ∈ saved_submaps l)
    ∧ (∀ path, path ∈ written_files tr →
         ∃ q, q ∈ saved_submaps l ∧ quad_written w0 q ∧ path = chunk_path q);
  inv_files : ∀ path,
    files w !! path = files w0 !! path
    ∨ ∃ q, q ∈ saved_submaps l ∧ quad_written w0 q ∧ path = chunk_path q;
  inv_written : ∀ q, q ∈ saved_submaps l → quad_written w0 q →
    files w !! chunk_path q
    = Some (JArray (records_of w0 (quad_members q)));
  inv_dirs : ∀ dir, dir ∈ dirs w →
    dir ∈ dirs w0 ∨ dir = maps_dir
    ∨ ∃ q, q ∈ saved_submaps l ∧ quad_written w0 q ∧ dir = find_dirname env q;
}.

(** The quad has an entry in the index: [save] comes across it. *)
Definition quad_indexed (w0 : world) (q : tripoint) : Prop :=
  ∃ k, is_Some (submaps w0 !! k) ∧ sm_to_omt_copy k = q.

(** What a call [save d] that starts in [w0] leaves behind. *)
Record save_post (d : bool) (w0 w' : world) : Prop := SavePost {
  post_owns : owns w';
  post_deleted : ∀ a, to_be_deleted d w0 a → submaps w' !! a = None;
  post_kept : ∀ k, ¬ to_be_deleted d w0 k → is_Some (submaps w0 !! k) →
    submaps w' !! k = submaps w0 !! k;
  post_null : ∀ k, submaps w0 !! k = None →
    quad_indexed w0 (sm_to_omt_copy k) → submaps w' !! k = Some nullptr;
  post_absent : ∀ k, submaps w0 !! k = None →
    ¬ quad_indexed w0 (sm_to_omt_copy k) → submaps w' !! k = None;
  post_written : ∀ q, quad_indexed w0 q → quad_written w0 q →
    files w' !! chunk_path q
    = Some (JArray (records_of w0 (quad_members q)));
  post_files : ∀ path,
    files w' !! path = files w0 !! path
    ∨ ∃ q, quad_indexed w0 q ∧ quad_written w0 q ∧ path = chunk_path q;
  post_trace : ∃ tr,
    trace w' = trace w0 ++ tr
    ∧ NoDup (saved_quads tr)
    ∧ (∀ q, q ∈ saved_quads tr ↔ quad_indexed w0 q)
    ∧ (∀ path, path ∈ written_files tr →
         ∃ q, quad_indexed w0 q ∧ quad_written w0 q ∧ path = chunk_path q);
  post_dirs : ∀ dir, dir ∈ dirs w' →
    dir ∈ dirs w0 ∨ dir = maps_dir
    ∨ ∃ q, quad_indexed w0 q ∧ quad_written w0 q ∧ dir = find_dirname env q;
}.

(** Distance from the origin along the horizontal axes: the larger of the
    two offsets. *)
Definition horizontal_distance (origin q : tripoint) : Z :=
  Z.max (Z.abs (tx q - tx origin)) (Z.abs (ty q - ty origin)).

(** Loading the members of a record into a tile, in their order. *)
Fixpoint load_members (obj : submap) (members : list (string * json))
    (ver : Z) (offset : tripoint) : exn + submap :=
  match members with
  | [] => inr obj
  | (name, value) :: rest =>
      match submap_load obj name value ver offset with
      | inl err => inl err
      | inr obj' => load_members obj' rest ver offset
      end
  end.

(** None of the members carries a name the chunk reader keeps for itself. *)
Definition payload_names (members : list (string * json)) : Prop :=
  Forall (λ m, m.1 ≠ "version" ∧ m.1 ≠ "coordinates") members.

(** The tile codec reads back what it wrote for the tile [obj] at [a]: the
    members written by [store] load into a new tile without a failure, and
    that tile stores the same members again. *)
Definition round_trips (a : tripoint) (obj : submap) : Prop :=
  payload_names (submap_store obj)
  ∧ ∃ obj', load_members (submap_new (sm_to_ms_copy a)) (submap_store obj)
                         (savegame_version env) (multiply_xy a 12) = inr obj'
            ∧ submap_store obj' = submap_store obj.

(** A new tile enters the index at [a]. *)
Definition insert_tile (a : tripoint) (obj : submap) (w : world) : world :=
  let p := fresh (dom (heap w)) in
  World (<[a:=Some p]> (submaps w)) (<[p:=obj]> (heap w)) (files w) (dirs w)
        (trace w).

(** What a demand load for [c] returns after the reader has run on the file
    at [path]. *)
Definition read_result (c : tripoint) (path : string) (o : outcome submap unit)
    : outcome submap ptr :=
  match o with
  | Ok _ w2 =>
      match submaps w2 !! c with
      | Some t => Ok t w2
      | None => Ok nullptr (emit (EvDebugmsg (FileMissingSubmap path c)) w2)
      end
  | Throw e w2 =>
      Ok nullptr
         (emit (EvDebugmsg (if reader_absorbs env then FailedToRead path e
                            else FailedToLoad c e)) w2)
  | Undefined => Undefined
  | OutOfFuel => OutOfFuel
  end.


(** An effect that leaves the disk as it is: a diagnostic, an existence
    check or a read. *)
Definition reads_only (e : event) : Prop :=
  match e with
  | EvDebugmsg _ | EvFileExist _ | EvReadFile _ => True
  | _ => False
  end.

(** The state a call ends in, when it returns or leaves by an exception. *)
Definition ends_in {A} (o : outcome submap A) (w' : world) : Prop :=
  match o with
  | Ok _ w | Throw _ w => w = w'
  | _ => False
  end.

(** What reading chunks may do to a state: the index and the live objects
    only grow, the disk is left alone, every new object is entered in the
    index under a new key, and every new key holds a new object or null. *)
Record load_grows (w w' : world) : Prop := LoadGrows {
  grows_index : submaps w ⊆ submaps w';
  grows_heap : heap w ⊆ heap w';
  grows_files : files w' = files w;
  grows_dirs : dirs w' = dirs w;
  grows_owned : ∀ p, heap w !! p = None → is_Some (heap w' !! p) →
    ∃ k, submaps w !! k = None ∧ submaps w' !! k = Some (Some p);
  grows_new : ∀ k p, submaps w !! k = None →
    submaps w' !! k = Some (Some p) →
    heap w !! p = None ∧ is_Some (heap w' !! p);
  grows_trace : ∃ tr, trace w' = trace w ++ tr ∧ Forall reads_only tr;
}.


(** The part of the map [save( false )] keeps in memory: the level of the
    active map when the map has no z-levels, and on it the square of quads
    from the quad of the map's origin to [HALF_MAPSIZE] quads east and south
    of it. *)
Definition in_window (om_addr : tripoint) : Prop :=
  let map_origin := sm_to_omt_copy (abs_sub env) in
  (has_zlevels env = true ∨ tz om_addr = levz env)
  ∧ tx map_origin ≤ tx om_addr ≤ tx map_origin + HALF_MAPSIZE env
  ∧ ty map_origin ≤ ty om_addr ≤ ty map_origin + HALF_MAPSIZE env.


(** The members of a record come in the order the reader relies on: after
    any number of version members, the record ends or its coordinates
    follow. *)
Fixpoint coordinates_first (members : list (string * json)) : bool :=
  match members with
  | [] => true
  | (name, _) :: rest =>
      if decide (name = "version") then coordinates_first rest
      else bool_decide (name = "coordinates")
  end.

(** A chunk in which every record that is an object has its members in that
    order. *)
Definition record_in_order (record : json) : bool :=
  match record with
  | JObject members => coordinates_first members
  | _ => true
  end.

Definition chunk_in_order (doc : json) : bool :=
  match doc with
  | JArray records => forallb record_in_order records
  | _ => true
  end.

(** The handle of the record in the making points to a live object, if it
    points to anything. *)
Definition handle_live (l : record_locals) (w : world) : Prop :=
  match sm l with
  | Some a => is_Some (heap w !! a)
  | None => True
  end.

(** The call returns or leaves by an exception: no undefined behaviour. *)
Definition returns_or_throws {A} (o : outcome submap A) : Prop :=
  match o with
  | Ok _ _ | Throw _ _ => True
  | _ => False
  end.

End Vocabulary.

(** * Properties *)

Section Properties.
Context {submap : Type} `{!Submap submap} `{!TripointOrder}.
Variable env : game_env.
Local Abbreviation world := (world submap).

Local Ltac unfold_M :=
  unfold mbind, M_bind, mret, M_ret, bind, ret, throw, get_world, modify,
         debugmsg in *.

(** *** Insertion *)

Lemma add_submap_fresh (p : tripoint) (sm : ptr) (w : world) :
  submaps w !! p = None →
  add_submap p sm w = Ok true (set_submaps (insert p sm) w).
Proof.
  intros Hp. unfold add_submap, has_key. rewrite Hp.
  rewrite bool_decide_eq_false_2; [done | by apply is_Some_None].
Qed.

Lemma add_submap_taken (p : tripoint) (sm : ptr) (w : world) :
  is_Some (submaps w !! p) → add_submap p sm w = Ok false w.
Proof.
  intros Hp. unfold add_submap, has_key. by rewrite bool_decide_eq_true_2.
Qed.

Lemma add_submap_inv (p : tripoint) (sm : ptr) (w w' : world) (r : bool) :
  add_submap p sm w = Ok r w' →
  (r = true ∧ submaps w !! p = None ∧ w' = set_submaps (insert p sm) w)
  ∨ (r = false ∧ is_Some (submaps w !! p) ∧ w' = w).
Proof.
  unfold add_submap, has_key. case_bool_decide as Hp; intros [= <- <-].
  - by right.
  - left. split_and!; [done | | done].
    by apply eq_None_not_Some.
Qed.

Lemma lookup_submap_resident (p : tripoint) (sm : ptr) (w : world) :
  submaps w !! p = Some sm → lookup_submap env p w = Ok sm w.
Proof. intros Hp. unfold lookup_submap. unfold_M. by rewrite Hp. Qed.

(** C2. After [insert(c, t1)] has succeeded (and has emptied the handle it
    came through), a second [insert(c, t2)] through an owning handle returns
    false and leaves the handle holding [t2], the state (index and live
    objects) is what it was, and [get(c)] still returns [t1]. *)
Theorem second_insert_is_rejected (c : tripoint) (t1 t2 h1 : ptr)
    (w w1 : world) :
  add_submap_unique c t1 w = Ok (true, h1) w1 →
  h1 = nullptr
  ∧ add_submap_unique c t2 w1 = Ok (false, t2) w1
  ∧ lookup_submap env c w1 = Ok t1 w1.
Proof.
  unfold add_submap_unique. unfold_M.
  destruct (add_submap c t1 w) as [r w'| | |] eqn:Hadd; try done.
  destruct (add_submap_inv _ _ _ _ _ Hadd) as [(-> & Hnone & ->)|(-> & _ & _)];
    [intros [= <- <-] | done].
  assert (submaps (set_submaps (insert c t1) w) !! c = Some t1) as Hc
    by apply lookup_insert_eq.
  split_and!.
  - done.
  - by rewrite add_submap_taken.
  - by apply lookup_submap_resident.
Qed.

(** *** Reading a chunk *)

Lemma same_but_heap_trans (w1 w2 w3 : world) :
  same_but_heap w1 w2 → same_but_heap w2 w3 → same_but_heap w1 w3.
Proof. unfold same_but_heap. intros (->&->&->&->) (->&->&->&->). done. Qed.

Lemma fresh_heap_None (h : gmap addr submap) : h !! fresh (dom h) = None.
Proof. apply not_elem_of_dom, is_fresh. Qed.

Lemma deserialize_member_ok (h0 : gmap addr submap) (name : string)
    (value : json) (l l' : record_locals) (w w' : world) :
  deserialize_member name value l w = Ok l' w' →
  record_inv h0 l w →
  record_inv h0 l' w' ∧ same_but_heap w w'.
Proof.
  unfold deserialize_member, record_inv. intros Hrun Hinv.
  case_decide as Hv.
  { unfold get_int in Hrun. unfold_M.
    destruct value; simplify_eq/=. done. }
  case_decide as Hc.
  { destruct value as [| | | |items|]; try done.
    destruct items as [|[] [|[] [|[] [|]]]]; try done.
    unfold_M. unfold new_submap, delete_ptr in Hrun. simpl in Hrun.
    destruct (sm l) as [a0|] eqn:Hsm.
    - destruct Hinv as [Ha0 [obj Hh]].
      rewrite decide_True in Hrun.
      2:{ rewrite Hh. set_solver. }
      simplify_eq/=. split; [|done]. rewrite Hh.
      assert (fresh (dom (<[a0:=obj]> h0)) ≠ a0) as Hne.
      { intros Heq. pose proof (is_fresh (dom (<[a0:=obj]> h0))) as Hf.
        rewrite Heq in Hf. set_solver. }
      split.
      + pose proof (fresh_heap_None (<[a0:=obj]> h0)) as Hf.
        by rewrite lookup_insert_ne in Hf.
      + eexists. rewrite delete_insert_ne by done.
        rewrite delete_insert_eq. by rewrite delete_id.
    - simplify_eq/=. split; [|done]. split; [apply fresh_heap_None|eauto]. }
  unfold_M. unfold deref, assign in Hrun.
  destruct (sm l) as [a|] eqn:Hsm; [|done]. simpl in Hrun.
  destruct (heap w !! a) as [obj|] eqn:Hobj; [|done].
  destruct (submap_load _ _ _ _ _) as [err|obj']; [done|].
  rewrite decide_True in Hrun by (by apply elem_of_dom).
  simplify_eq/=. rewrite Hsm. split; [|done].
  destruct Hinv as [Ha [obj0 Hh]]. split; [done|].
  exists obj'. by rewrite Hh, insert_insert_eq.
Qed.

Lemma deserialize_members_ok (h0 : gmap addr submap)
    (members : list (string * json)) (l l' : record_locals) (w w' : world) :
  deserialize_members members l w = Ok l' w' →
  record_inv h0 l w →
  record_inv h0 l' w' ∧ same_but_heap w w'.
Proof.
  revert l w. induction members as [|[name value] rest IH]; intros l w.
  { simpl. unfold_M. by intros [= <- <-]. }
  simpl. unfold_M. unfold try_catch.
  destruct (deserialize_member name value l w) as [l1 w1|e w1| |] eqn:Hm;
    try done.
  - intros Hrest Hinv.
    destruct (deserialize_member_ok h0 _ _ _ _ _ _ Hm Hinv) as [Hinv1 Hs1].
    destruct (IH _ _ Hrest Hinv1) as [Hinv2 Hs2].
    split; [done|]. by eapply same_but_heap_trans.
  - by destruct (delete_ptr (sm l) w1).
Qed.

Lemma world_eq (w w' : world) :
  submaps w = submaps w' → heap w = heap w' → files w = files w' →
  dirs w = dirs w' → trace w = trace w' → w = w'.
Proof. destruct w, w'. simpl. by intros -> -> -> -> ->. Qed.

(** When the handle of a finished record is destroyed without having been
    handed over, the live objects are those from before the record. *)
Lemma delete_record_handle (l : record_locals) (w w1 : world) :
  record_inv (heap w) l w1 → same_but_heap w w1 →
  delete_ptr (sm l) w1 = Ok tt w.
Proof.
  unfold record_inv, delete_ptr. intros Hinv (? & ? & ? & ?).
  destruct (sm l) as [a|].
  - destruct Hinv as [Ha [obj Hh]].
    rewrite decide_True by (apply elem_of_dom; rewrite Hh, lookup_insert_eq; eauto).
    f_equal. apply world_eq; simpl; try done.
    by rewrite Hh, delete_insert_eq, delete_id.
  - f_equal. by apply world_eq.
Qed.

Lemma deserialize_records_cons (record : json) (rest : list json)
    (w : world) :
  deserialize_records (record :: rest) w
  = match deserialize_record record w with
    | Ok _ w' => deserialize_records rest w'
    | Throw e w' => Throw e w'
    | Undefined => Undefined
    | OutOfFuel => OutOfFuel
    end.
Proof. reflexivity. Qed.

(** C5. A record whose coordinate is already in the index: the load reports
    it, the index and the live objects are what they were before the record
    (the resident tile stays, the tile just decoded is destroyed), and the
    loop goes on with the records that follow. *)
Theorem duplicate_record_is_rejected (members : list (string * json))
    (rest : list json) (l : record_locals) (w w1 : world) :
  deserialize_members members (RecordLocals nullptr tripoint_zero 0) w
    = Ok l w1 →
  is_Some (submaps w !! submap_coordinates l) →
  let w2 := emit (EvDebugmsg (AlreadyLoaded (submap_coordinates l))) w in
  deserialize_record (JObject members) w = Ok tt w2
  ∧ deserialize_records (JObject members :: rest) w
    = deserialize_records rest w2.
Proof.
  intros Hrun Hres w2.
  destruct (deserialize_members_ok (heap w) _ _ _ _ _ Hrun) as [Hinv Hsame];
    [done|].
  assert (deserialize_record (JObject members) w = Ok tt w2) as Hrec.
  { unfold deserialize_record, add_submap_unique. unfold_M. rewrite Hrun.
    rewrite add_submap_taken by (by destruct Hsame as [-> _]).
    apply (delete_record_handle l w2 (emit _ w1)).
    - unfold record_inv in *. by destruct (sm l).
    - destruct Hsame as (?&?&?&?). unfold same_but_heap, w2. simpl.
      split_and!; congruence. }
  split; [done|]. by rewrite deserialize_records_cons, Hrec.
Qed.

(** *** Lookup with demand loading *)

Lemma emits_cons (e : event) (es : list event) (w : world) :
  emits (e :: es) w = emits es (emit e w).
Proof. unfold emit, emits. simpl. by rewrite <- app_assoc. Qed.

Lemma emits_nil (w : world) : emits [] w = w.
Proof. destruct w. unfold emits. simpl. by rewrite app_nil_r. Qed.

(** The second look into the index after a read. *)
Lemma unserialize_retry (c : tripoint) (path : string) (w2 : world) :
  (if negb (has_key c w2)
   then λ w1 : world,
          Ok nullptr (emit (EvDebugmsg (FileMissingSubmap path c)) w1)
   else subscript c) w2
  = match submaps w2 !! c with
    | Some t => Ok t w2
    | None => Ok nullptr (emit (EvDebugmsg (FileMissingSubmap path c)) w2)
    end.
Proof.
  unfold has_key, subscript.
  destruct (submaps w2 !! c) as [t|] eqn:Ht.
  - rewrite bool_decide_eq_true_2 by eauto. simpl. by rewrite Ht.
  - rewrite bool_decide_eq_false_2 by (by apply is_Some_None). done.
Qed.

(** [lookup_submap] on a coordinate that is not in the index, in terms of
    the file it finds and of how the reader fares on it. *)
Lemma lookup_submap_miss (c : tripoint) (w : world) :
  submaps w !! c = None →
  lookup_submap env c w =
    match quad_file env c w with
    | None => Ok nullptr (emits (probes env c w) w)
    | Some (path, doc) =>
        read_result env c path
          (deserialize doc (emits (probes env c w ++ [EvReadFile path]) w))
    end.
Proof.
  intros Hc.
  unfold lookup_submap, unserialize_submaps, read_from_file_optional_json,
    file_exist, quad_file, probes, try_catch, read_result.
  unfold_M. rewrite Hc. simpl.
  set (canon := find_quad_path _ _).
  set (old := legacy_quad_path _ _ _).
  destruct (files w !! canon) as [doc0|] eqn:Hcanon.
  { rewrite bool_decide_eq_true_2 by eauto. simpl. rewrite Hcanon.
    rewrite !emits_cons, emits_nil.
    destruct (reader_absorbs env);
      destruct (deserialize doc0 _) as [[] w2|e2 w2| |]; simpl; try done;
      rewrite unserialize_retry; by destruct (submaps w2 !! c). }
  rewrite bool_decide_eq_false_2 by (by apply is_Some_None). simpl.
  destruct (files w !! old) as [doc0|] eqn:Hold.
  { rewrite bool_decide_eq_true_2 by eauto. simpl. rewrite Hold.
    rewrite !emits_cons, emits_nil.
    destruct (reader_absorbs env);
      destruct (deserialize doc0 _) as [[] w2|e2 w2| |]; simpl; try done;
      rewrite unserialize_retry; by destruct (submaps w2 !! c). }
  rewrite bool_decide_eq_false_2 by (by apply is_Some_None). simpl.
  rewrite Hcanon. simpl. by rewrite !emits_cons, emits_nil.
Qed.

(** C4, as amended. [get(c)] never ends by an exception.  A coordinate
    that is a key of the index is answered from the index and the state is
    untouched: a resident coordinate with its tile, a null entry with
    absence, with no look at the disk.  For a coordinate that is no key the
    chunk of the quad is looked for: without a file at the canonical and
    the legacy path the call returns absence; when the reader gets through,
    the index is consulted once more; when the reader throws, the failure
    is logged and absence is returned; when the reader runs into undefined
    behaviour, so does the call. *)
Theorem lookup_submap_soft_failure (c : tripoint) (w : world) :
  (∀ e w', lookup_submap env c w ≠ Throw e w')
  ∧ (∀ t, submaps w !! c = Some t → lookup_submap env c w = Ok t w)
  ∧ (resident w c →
     ∃ p, submaps w !! c = Some (Some p)
          ∧ lookup_submap env c w = Ok (Some p) w)
  ∧ (submaps w !! c = Some nullptr → lookup_submap env c w = Ok nullptr w)
  ∧ (submaps w !! c = None →
     (quad_file env c w = None →
        lookup_submap env c w = Ok nullptr (emits (probes env c w) w))
     ∧ (∀ path doc, quad_file env c w = Some (path, doc) →
        let w1 := emits (probes env c w ++ [EvReadFile path]) w in
        (∀ w2, deserialize doc w1 = Ok tt w2 →
           lookup_submap env c w =
             match submaps w2 !! c with
             | Some t => Ok t w2
             | None =>
                 Ok nullptr (emit (EvDebugmsg (FileMissingSubmap path c)) w2)
             end)
        ∧ (∀ e w2, deserialize doc w1 = Throw e w2 →
           lookup_submap env c w =
             Ok nullptr
                (emit (EvDebugmsg (if reader_absorbs env
                                   then FailedToRead path e
                                   else FailedToLoad c e)) w2))
        ∧ (deserialize doc w1 = Undefined →
           lookup_submap env c w = Undefined))).
Proof.
  split_and!.
  - intros e w'. destruct (submaps w !! c) as [t|] eqn:Hc.
    { by rewrite (lookup_submap_resident c t w Hc). }
    rewrite (lookup_submap_miss c w Hc).
    destruct (quad_file env c w) as [[path doc]|]; [|done].
    unfold read_result.
    destruct (deserialize doc _) as [[] w2|e2 w2| |]; try done.
    by destruct (submaps w2 !! c).
  - intros t Ht. by apply lookup_submap_resident.
  - unfold resident. intros Hr.
    destruct (submaps w !! c) as [[p|]|] eqn:Hc; try done.
    exists p. split; [done|]. by apply lookup_submap_resident.
  - intros Hc. by apply lookup_submap_resident.
  - intros Hc. rewrite (lookup_submap_miss c w Hc). split.
    + by intros ->.
    + intros path doc -> w1. unfold read_result. split_and!.
      * intros w2 Hrun. fold w1. by rewrite Hrun.
      * intros e w2 Hrun. fold w1. by rewrite Hrun.
      * intros Hrun. fold w1. by rewrite Hrun.
Qed.


(** *** The geometry of quads and the order of the index *)

Lemma quad_members_eq (q : tripoint) :
  quad_members q =
    [Tripoint (2 * tx q) (2 * ty q) (tz q);
     Tripoint (2 * tx q) (2 * ty q + 1) (tz q);
     Tripoint (2 * tx q + 1) (2 * ty q) (tz q);
     Tripoint (2 * tx q + 1) (2 * ty q + 1) (tz q)].
Proof.
  unfold quad_members, quad_offsets, offset_addr. simpl.
  by rewrite !Z.add_0_r.
Qed.

Lemma member_quad (q a : tripoint) :
  a ∈ quad_members q → sm_to_omt_copy a = q.
Proof.
  rewrite quad_members_eq. destruct q as [x y z].
  rewrite !elem_of_cons, elem_of_nil. unfold sm_to_omt_copy.
  intros [->|[->|[->|[->|[]]]]]; cbn [tx ty tz]; f_equal;
    try done; symmetry;
    first [ apply Z.div_unique with (r := 0); lia
          | apply Z.div_unique with (r := 1); lia ].
Qed.

Lemma key_in_quad (k : tripoint) : k ∈ quad_members (sm_to_omt_copy k).
Proof.
  rewrite quad_members_eq. destruct k as [x y z].
  unfold sm_to_omt_copy. cbn [tx ty tz]. rewrite !elem_of_cons.
  pose proof (Z.div_mod x 2 ltac:(lia)).
  pose proof (Z.mod_pos_bound x 2 ltac:(lia)).
  pose proof (Z.div_mod y 2 ltac:(lia)).
  pose proof (Z.mod_pos_bound y 2 ltac:(lia)).
  destruct (decide (x `mod` 2 = 0)), (decide (y `mod` 2 = 0));
    [left | right; left | do 2 right; left | do 3 right; left];
    f_equal; lia.
Qed.

Lemma quad_members_NoDup (q : tripoint) : NoDup (quad_members q).
Proof.
  rewrite quad_members_eq.
  repeat (apply NoDup_cons_2;
          [rewrite ?not_elem_of_cons; repeat split;
           first [apply not_elem_of_nil | intros [=]; lia]|]).
  apply NoDup_nil_2.
Qed.

Lemma min_key_None (keys : list tripoint) : min_key keys = None ↔ keys = [].
Proof.
  destruct keys as [|k keys]; [done|]. simpl.
  by destruct (min_key keys).
Qed.

Lemma min_key_Some (keys : list tripoint) (k : tripoint) :
  min_key keys = Some k →
  k ∈ keys ∧ ∀ k', k' ∈ keys → ¬ tripoint_ltb k' k.
Proof.
  revert k. induction keys as [|k0 keys IH]; intros k; [done|]. simpl.
  destruct (min_key keys) as [k1|] eqn:Hmin.
  - destruct (IH k1 eq_refl) as [Hin Hleast].
    destruct (tripoint_ltb k0 k1) eqn:Hlt; intros [= <-].
    + split; [apply list_elem_of_here|].
      intros k' [->|Hk']%elem_of_cons; [apply tripoint_ltb_irrefl|].
      intros Hk. apply (Hleast k' Hk').
      eapply tripoint_ltb_trans; [done|]. by rewrite Hlt.
    + split; [by apply list_elem_of_further|].
      intros k' [->|Hk']%elem_of_cons; [|by apply Hleast].
      rewrite Hlt. by intros [].
  - apply min_key_None in Hmin as ->. intros [= <-].
    split; [apply list_elem_of_here|].
    intros k' ->%list_elem_of_singleton. apply tripoint_ltb_irrefl.
Qed.

Lemma map_next_Some (m : gmap tripoint ptr) (c c' : tripoint) :
  map_next m c = Some c' →
  is_Some (m !! c') ∧ tripoint_ltb c c'
  ∧ ∀ k, is_Some (m !! k) → tripoint_ltb c k → ¬ tripoint_ltb k c'.
Proof.
  unfold map_next. intros [Hin Hleast]%min_key_Some.
  apply list_elem_of_filter in Hin as [Hlt Hin].
  apply elem_of_elements, elem_of_dom in Hin. split_and!; [done..|].
  intros k Hk Hck. apply Hleast, list_elem_of_filter.
  split; [done|]. by apply elem_of_elements, elem_of_dom.
Qed.

Lemma map_next_None (m : gmap tripoint ptr) (c : tripoint) :
  map_next m c = None → ∀ k, is_Some (m !! k) → ¬ tripoint_ltb c k.
Proof.
  unfold map_next. intros Hnil%min_key_None k Hk Hck.
  assert (k ∈ filter (λ k, tripoint_ltb c k) (elements (dom m))) as Hin.
  { apply list_elem_of_filter. split; [done|].
    by apply elem_of_elements, elem_of_dom. }
  rewrite Hnil in Hin. by apply elem_of_nil in Hin.
Qed.

Lemma map_begin_Some (m : gmap tripoint ptr) (c : tripoint) :
  map_begin m = Some c →
  is_Some (m !! c) ∧ ∀ k, is_Some (m !! k) → ¬ tripoint_ltb k c.
Proof.
  unfold map_begin. intros [Hin Hleast]%min_key_Some.
  apply elem_of_elements, elem_of_dom in Hin. split; [done|].
  intros k Hk. by apply Hleast, elem_of_elements, elem_of_dom.
Qed.

Lemma map_begin_None (m : gmap tripoint ptr) :
  map_begin m = None → m = ∅.
Proof.
  unfold map_begin. intros Hnil%min_key_None.
  apply elements_empty_inv in Hnil. apply dom_empty_iff_L.
  by apply leibniz_equiv.
Qed.

(** *** The write path of one quad *)

Lemma lookup_touch (m : gmap tripoint ptr) (a k : tripoint) :
  touch m a !! k =
    match m !! k with
    | Some v => Some v
    | None => if decide (k = a) then Some nullptr else None
    end.
Proof.
  unfold touch. destruct (m !! a) as [v|] eqn:Ha.
  - destruct (m !! k) eqn:Hk; [done|]. case_decide; [congruence|done].
  - rewrite lookup_insert. case_decide as Hak.
    + subst. rewrite Ha. by rewrite decide_True.
    + destruct (m !! k); [done|]. by rewrite decide_False.
Qed.

Lemma lookup_touch_all (addrs : list tripoint) (m : gmap tripoint ptr)
    (k : tripoint) :
  touch_all addrs m !! k =
    match m !! k with
    | Some v => Some v
    | None => if decide (k ∈ addrs) then Some nullptr else None
    end.
Proof.
  revert m. induction addrs as [|a addrs IH]; intros m.
  { unfold touch_all. simpl. by destruct (m !! k). }
  change (touch_all (a :: addrs) m) with (touch_all addrs (touch m a)).
  rewrite IH, lookup_touch. destruct (m !! k) as [v|]; [done|].
  destruct (decide (k = a)) as [->|Hne].
  - rewrite decide_True; [done|apply list_elem_of_here].
  - destruct (decide (k ∈ addrs)) as [Hin|Hnin].
    + rewrite decide_True; [done|by apply list_elem_of_further].
    + rewrite decide_False; [done|]. by intros [?|?]%elem_of_cons.
Qed.

Lemma live_lookup (w : world) (k : tripoint) (p : addr) :
  live w → submaps w !! k = Some (Some p) → is_Some (heap w !! p).
Proof. intros Hl Hk. by apply (map_Forall_lookup_1 _ _ _ _ Hl Hk). Qed.

Lemma tile_at_touched (f : gmap tripoint ptr → gmap tripoint ptr)
    (w : world) (a : tripoint) :
  (∀ k, f (submaps w) !! k = submaps w !! k
        ∨ (submaps w !! k = None ∧ f (submaps w) !! k = Some nullptr)) →
  tile_at (set_submaps f w) a = tile_at w a.
Proof.
  intros Hf. unfold tile_at, set_submaps. simpl.
  destruct (Hf a) as [Heq|[Hn Heq]]; rewrite Heq; [done|by rewrite Hn].
Qed.

Lemma touch_all_cases (addrs : list tripoint) (m : gmap tripoint ptr)
    (k : tripoint) :
  touch_all addrs m !! k = m !! k
  ∨ (m !! k = None ∧ touch_all addrs m !! k = Some nullptr).
Proof.
  rewrite lookup_touch_all. destruct (m !! k); [by left|].
  case_decide; [by right|by left].
Qed.

Lemma tile_at_touch_all (addrs : list tripoint) (w : world) (a : tripoint) :
  tile_at (set_submaps (touch_all addrs) w) a = tile_at w a.
Proof. apply tile_at_touched. intros k. apply touch_all_cases. Qed.

Lemma live_touched (f : gmap tripoint ptr → gmap tripoint ptr) (w : world) :
  (∀ k, f (submaps w) !! k = submaps w !! k
        ∨ (submaps w !! k = None ∧ f (submaps w) !! k = Some nullptr)) →
  live w → live (set_submaps f w).
Proof.
  intros Hf Hl k sm Hk. simpl in Hk.
  destruct (Hf k) as [Heq|[_ Heq]]; rewrite Heq in Hk.
  - by apply (map_Forall_lookup_1 _ _ _ _ Hl Hk).
  - by simplify_eq.
Qed.

Lemma subscript_spec (a : tripoint) (w : world) :
  subscript a w
  = Ok (default nullptr (submaps w !! a)) (set_submaps (λ m, touch m a) w).
Proof.
  unfold subscript, touch, set_submaps. destruct w as [m h f d t]. simpl.
  by destruct (m !! a).
Qed.

Lemma touch_cases (a : tripoint) (m : gmap tripoint ptr) (k : tripoint) :
  touch m a !! k = m !! k
  ∨ (m !! k = None ∧ touch m a !! k = Some nullptr).
Proof.
  rewrite lookup_touch. destruct (m !! k); [by left|].
  case_decide; [by right|by left].
Qed.

Lemma set_submaps_id (w : world) : set_submaps (λ m, m) w = w.
Proof. by destruct w. Qed.

Lemma uniform_at_touch (w : world) (a x : tripoint) :
  uniform_at (set_submaps (λ m, touch m a) w) x = uniform_at w x.
Proof.
  unfold uniform_at. rewrite tile_at_touched; [done|].
  intros k. apply touch_cases.
Qed.

Lemma forallb_eq {A} (f g : A → bool) (l : list A) :
  (∀ x, f x = g x) → forallb f l = forallb g l.
Proof. intros Hfg. induction l as [|x l IH]; simpl; [done|]. by rewrite Hfg, IH. Qed.

Lemma scan_quad_spec (q : tripoint) (offsets : list point) (u : bool)
    (acc : list tripoint) (w : world) :
  live w →
  scan_quad q offsets u acc w
  = Ok (u && forallb (uniform_at w) (offset_addr q <$> offsets),
        acc ++ (offset_addr q <$> offsets))
       (set_submaps (touch_all (offset_addr q <$> offsets)) w).
Proof.
  revert u acc w. induction offsets as [|off rest IH]; intros u acc w Hl.
  { simpl. unfold_M. unfold touch_all. simpl.
    by rewrite andb_true_r, app_nil_r, set_submaps_id. }
  cbn [scan_quad fmap list_fmap forallb]. unfold_M.
  rewrite subscript_spec.
  set (a := offset_addr q off).
  set (w1 := set_submaps (λ m, touch m a) w).
  assert (live w1) as Hl1.
  { apply live_touched; [|done]. intros k. apply touch_cases. }
  assert (forallb (uniform_at w1) (offset_addr q <$> rest)
          = forallb (uniform_at w) (offset_addr q <$> rest)) as Hrest.
  { apply forallb_eq. intros x. apply uniform_at_touch. }
  assert (∀ u', scan_quad q rest u' (acc ++ [a]) w1
    = Ok (u' && forallb (uniform_at w) (offset_addr q <$> rest),
          acc ++ a :: (offset_addr q <$> rest))
         (set_submaps (touch_all (a :: (offset_addr q <$> rest))) w)) as Hnext.
  { intros u'. rewrite IH by done. rewrite Hrest, <- app_assoc. done. }
  unfold uniform_at at 1, tile_at.
  destruct (submaps w !! a) as [[p|]|] eqn:Ha; simpl.
  - destruct (live_lookup w a p Hl Ha) as [obj Hobj].
    unfold deref. simpl. rewrite Hobj, Hnext. by destruct (is_uniform obj), u.
  - by rewrite Hnext.
  - by rewrite Hnext.
Qed.

Lemma filter_resident_cons (w : world) (a : tripoint)
    (addrs : list tripoint) :
  filter (λ a, resident w a) (a :: addrs)
  = (if resident w a then [a] else []) ++ filter (λ a, resident w a) addrs.
Proof. rewrite filter_cons. by destruct (resident w a). Qed.

Lemma has_key_Some (a : tripoint) (v : ptr) (w : world) :
  submaps w !! a = Some v → has_key a w = true.
Proof. intros Ha. unfold has_key. rewrite Ha. by apply bool_decide_eq_true_2. Qed.

Lemma has_key_None (a : tripoint) (w : world) :
  submaps w !! a = None → has_key a w = false.
Proof.
  intros Ha. unfold has_key. rewrite Ha.
  by apply bool_decide_eq_false_2, is_Some_None.
Qed.

Lemma subscript_Some (a : tripoint) (v : ptr) (w : world) :
  submaps w !! a = Some v → subscript a w = Ok v w.
Proof. intros Ha. unfold subscript. by rewrite Ha. Qed.

Lemma queue_resident_spec (addrs queue : list tripoint) (w : world) :
  queue_resident addrs queue w
  = Ok (queue ++ filter (λ a, resident w a) addrs) w.
Proof.
  revert queue. induction addrs as [|a addrs IH]; intros queue.
  { simpl. unfold_M. by rewrite app_nil_r. }
  rewrite filter_resident_cons. cbn [queue_resident]. unfold_M.
  unfold resident at 1.
  destruct (submaps w !! a) as [[p|]|] eqn:Ha.
  - rewrite (has_key_Some _ _ _ Ha), (subscript_Some _ _ _ Ha).
    by rewrite IH, <- app_assoc.
  - rewrite (has_key_Some _ _ _ Ha), (subscript_Some _ _ _ Ha).
    by rewrite IH.
  - rewrite (has_key_None _ _ Ha). by rewrite IH.
Qed.

Lemma records_of_cons (w : world) (a : tripoint) (addrs : list tripoint) :
  records_of env w (a :: addrs)
  = (if tile_at w a is Some obj then [chunk_record env a obj] else [])
    ++ records_of env w addrs.
Proof. unfold records_of. simpl. by destruct (tile_at w a). Qed.

Lemma write_records_spec (d : bool) (addrs : list tripoint)
    (records : list json) (queue : list tripoint) (w : world) :
  live w →
  write_records env d addrs records queue w
  = Ok (records ++ records_of env w addrs,
        queue ++ (if d then filter (λ a, resident w a) addrs else []))
       w.
Proof.
  intros Hl. revert records queue.
  induction addrs as [|a addrs IH]; intros records queue.
  { simpl. unfold_M. destruct d; by rewrite !app_nil_r. }
  rewrite filter_resident_cons, records_of_cons.
  cbn [write_records]. unfold_M.
  unfold resident at 1. unfold tile_at at 1.
  destruct (submaps w !! a) as [[p|]|] eqn:Ha.
  - rewrite (has_key_Some _ _ _ Ha). cbn [negb].
    rewrite (subscript_Some _ _ _ Ha).
    destruct (live_lookup w a p Hl Ha) as [obj Hobj].
    unfold deref. rewrite Hobj.
    rewrite IH. rewrite <- !app_assoc. destruct d; [|done].
    by rewrite <- app_assoc.
  - rewrite (has_key_Some _ _ _ Ha). cbn [negb].
    rewrite (subscript_Some _ _ _ Ha). by rewrite IH.
  - rewrite (has_key_None _ _ Ha). cbn [negb]. by rewrite IH.
Qed.

Lemma resident_touch_all (addrs : list tripoint) (w : world) (a : tripoint) :
  resident (set_submaps (touch_all addrs) w) a = resident w a.
Proof.
  unfold resident, set_submaps. simpl.
  destruct (touch_all_cases addrs (submaps w) a) as [Heq|[Hn Heq]];
    rewrite Heq; [done|by rewrite Hn].
Qed.

Lemma records_of_same (w w' : world) (addrs : list tripoint) :
  (∀ a, tile_at w' a = tile_at w a) →
  records_of env w' addrs = records_of env w addrs.
Proof.
  intros Hsame. induction addrs as [|a addrs IH]; [done|].
  by rewrite !records_of_cons, Hsame, IH.
Qed.

Lemma filter_resident_same (w w' : world) (addrs : list tripoint) :
  (∀ a, resident w' a = resident w a) →
  filter (λ a, resident w' a) addrs = filter (λ a, resident w a) addrs.
Proof.
  intros Hsame. induction addrs as [|a addrs IH]; [done|].
  by rewrite !filter_resident_cons, Hsame, IH.
Qed.

(** [save_quad] in closed form. *)
Lemma save_quad_spec (dirname filename : string) (q : tripoint)
    (queue : list tripoint) (d : bool) (w : world) :
  live w →
  save_quad env dirname filename q queue d w
  = Ok (save_quad_queue env d w q queue)
       (save_quad_world env dirname filename q d w).
Proof.
  intros Hl. unfold save_quad, save_quad_queue, save_quad_world, quad_written.
  unfold_M. unfold write_to_file, assure_dir_exist. unfold_M.
  rewrite scan_quad_spec by done. simpl "&&". rewrite app_nil_l.
  change (offset_addr q <$> quad_offsets) with (quad_members q).
  change (forallb (uniform_at (emit (EvSaveQuad q d) w)) (quad_members q))
    with (quad_uniform w q).
  set (w1 := set_submaps (touch_all (quad_members q)) (emit _ w)).
  assert (live w1) as Hl1.
  { apply live_touched; [|done]. intros k. apply touch_all_cases. }
  assert (filter (λ a, resident w1 a) (quad_members q)
          = filter (λ a, resident w a) (quad_members q)) as Hres.
  { apply filter_resident_same. intros a. unfold w1.
    by rewrite resident_touch_all. }
  destruct (quad_uniform w q) eqn:Hu; cbn [andb orb negb].
  { destruct d; cbn [andb orb negb]; [|by rewrite app_nil_r].
    by rewrite queue_resident_spec, Hres. }
  destruct (disable_mapgen env); cbn [andb orb negb].
  { destruct d; cbn [andb orb negb]; by rewrite app_nil_r. }
  set (w2 := emit (EvAssureDir dirname) (set_dirs (union {[dirname]}) w1)).
  rewrite write_records_spec by done. cbn [app].
  rewrite (records_of_same w w2)
    by (intros a; apply (tile_at_touch_all _ (emit (EvSaveQuad q d) w))).
  rewrite (filter_resident_same w1 w2) by done.
  destruct d; cbn [andb orb negb]; by rewrite ?Hres.
Qed.

(** *** The chunk paths of different quads differ *)

Lemma append_cons (a : ascii) (s t : string) :
  String a s +:+ t = String a (s +:+ t).
Proof. reflexivity. Qed.

Lemma append_assoc (s t u : string) : (s +:+ t) +:+ u = s +:+ (t +:+ u).
Proof.
  induction s as [|a s IH]; [done|]. by rewrite !append_cons, IH.
Qed.

(** Two strings that agree up to a separator which occurs in neither of the
    parts before it agree part by part. *)
Lemma split_at_separator (c : ascii) (a a' r r' : string) :
  occurs c a = false → occurs c a' = false →
  a +:+ String c r = a' +:+ String c r' → a = a' ∧ r = r'.
Proof.
  revert a'. induction a as [|x a IH]; intros [|y a']; simpl;
    rewrite ?append_cons.
  - intros _ _ [= ->]. done.
  - intros _ Hy [= <- _]. by rewrite bool_decide_eq_true_2 in Hy.
  - intros Hx _ [= -> _]. by rewrite bool_decide_eq_true_2 in Hx.
  - intros [_ Ha]%orb_false_elim [_ Ha']%orb_false_elim [= -> Hrest].
    destruct (IH a' Ha Ha' Hrest) as [-> ->]. done.
Qed.

Lemma occurs_pretty_N_go (c : ascii) (x : N) (s : string) :
  (∀ d, pretty_N_char d ≠ c) → occurs c s = false →
  occurs c (pretty_N_go x s) = false.
Proof.
  intros Hc. revert s.
  induction (N.lt_wf_0 x) as [x _ IH]. intros s Hs.
  destruct (decide (x = 0)%N) as [->|Hx]; [by rewrite pretty_N_go_0|].
  rewrite pretty_N_go_step by lia. apply IH.
  - apply N.div_lt; lia.
  - simpl. rewrite Hs, orb_false_r. by apply bool_decide_eq_false_2.
Qed.

Lemma occurs_pretty_Z (c : ascii) (z : Z) :
  (∀ d, pretty_N_char d ≠ c) → c ≠ "-"%char →
  occurs c (pretty z) = false.
Proof.
  intros Hc Hdash.
  assert (∀ n : N, occurs c (pretty n) = false) as HN.
  { intros n. unfold pretty, pretty_N. case_decide.
    - simpl. rewrite orb_false_r. apply bool_decide_eq_false_2.
      apply (Hc 0%N).
    - by apply occurs_pretty_N_go. }
  destruct z as [|p|p]; unfold pretty, pretty_Z.
  - apply (HN 0%N).
  - apply (HN (Npos p)).
  - rewrite append_cons. simpl. rewrite bool_decide_eq_false_2 by congruence.
    apply (HN (Npos p)).
Qed.

Lemma no_dot_in_pretty (z : Z) : occurs "." (pretty z) = false.
Proof.
  apply occurs_pretty_Z; [|done].
  intros d. unfold pretty_N_char. by repeat case_match.
Qed.

Lemma no_slash_in_pretty (z : Z) : occurs "/" (pretty z) = false.
Proof.
  apply occurs_pretty_Z; [|done].
  intros d. unfold pretty_N_char. by repeat case_match.
Qed.

(** Three integers printed with dots between them and closed by a
    separator that is neither a digit nor a sign can be read back. *)
Lemma dotted_triple_inj (x y z x' y' z' : Z) (c : ascii) (r r' : string) :
  (∀ n : Z, occurs c (pretty n) = false) →
  pretty x +:+ "." +:+ pretty y +:+ "." +:+ pretty z +:+ String c r
  = pretty x' +:+ "." +:+ pretty y' +:+ "." +:+ pretty z' +:+ String c r' →
  x = x' ∧ y = y' ∧ z = z' ∧ r = r'.
Proof.
  intros Hc Heq.
  apply split_at_separator in Heq as [Hx Heq]; try apply no_dot_in_pretty.
  apply split_at_separator in Heq as [Hy Heq]; try apply no_dot_in_pretty.
  apply split_at_separator in Heq as [Hz Heq]; try apply Hc.
  by apply (inj pretty) in Hx, Hy, Hz.
Qed.

Lemma chunk_path_inj (q q' : tripoint) :
  chunk_path env q = chunk_path env q' → q = q'.
Proof.
  unfold chunk_path, find_quad_path, find_dirname.
  rewrite !append_assoc. intros Heq.
  apply (inj (String.append _)) in Heq.
  apply (inj (String.append "/maps/")) in Heq.
  apply (dotted_triple_inj _ _ _ _ _ _ "/") in Heq
    as (_ & _ & _ & Heq); [|apply no_slash_in_pretty].
  apply (dotted_triple_inj _ _ _ _ _ _ "." "map" "map") in Heq
    as (Hx & Hy & Hz & _); [|apply no_dot_in_pretty].
  destruct q, q'. simpl in *. by subst.
Qed.

(** *** The loop of [save] *)

Lemma save_step_spec (d : bool) (key : tripoint) (l : save_locals)
    (w : world) :
  live w →
  save_step env d key l w
  = Ok (save_step_result env d key l w).1 (save_step_result env d key l w).2.
Proof.
  intros Hl. unfold save_step, save_step_result.
  case_decide; [done|]. unfold_M.
  by rewrite save_quad_spec.
Qed.

Section LoopInvariant.
Variables (d : bool) (w0 : world).

Lemma inv_tile_at it l w (a : tripoint) :
  loop_inv env d w0 it l w → tile_at w a = tile_at w0 a.
Proof.
  intros Hinv. unfold tile_at. rewrite (inv_heap _ _ _ _ _ _ Hinv).
  destruct (inv_index _ _ _ _ _ _ Hinv a) as [->|(-> & -> & _)]; done.
Qed.

Lemma inv_resident it l w (a : tripoint) :
  loop_inv env d w0 it l w → resident w a = resident w0 a.
Proof.
  intros Hinv. unfold resident.
  destruct (inv_index _ _ _ _ _ _ Hinv a) as [->|(-> & -> & _)]; done.
Qed.

Lemma inv_quad_uniform it l w (q : tripoint) :
  loop_inv env d w0 it l w → quad_uniform w q = quad_uniform w0 q.
Proof.
  intros Hinv. unfold quad_uniform. apply forallb_eq. intros a.
  unfold uniform_at. by erewrite inv_tile_at.
Qed.

Lemma inv_key_of_start it l w (k : tripoint) :
  loop_inv env d w0 it l w → is_Some (submaps w !! k) →
  sm_to_omt_copy k ∉ saved_submaps l → is_Some (submaps w0 !! k).
Proof.
  intros Hinv Hk Hq.
  destruct (inv_index _ _ _ _ _ _ Hinv k) as [<-|(_ & _ & ?)]; done.
Qed.

Lemma inv_key_kept it l w (k : tripoint) :
  loop_inv env d w0 it l w → is_Some (submaps w0 !! k) →
  submaps w !! k = submaps w0 !! k.
Proof.
  intros Hinv [v Hk].
  destruct (inv_index _ _ _ _ _ _ Hinv k) as [?|(? & _)]; [done|congruence].
Qed.

Lemma submaps_save_quad_world dir path q flag (w : world) :
  submaps (save_quad_world env dir path q flag w)
  = touch_all (quad_members q) (submaps w).
Proof. unfold save_quad_world. by destruct (quad_written env w q). Qed.

Lemma heap_save_quad_world dir path q flag (w : world) :
  heap (save_quad_world env dir path q flag w) = heap w.
Proof. unfold save_quad_world. by destruct (quad_written env w q). Qed.

Lemma files_save_quad_world dir path q flag (w : world) :
  files (save_quad_world env dir path q flag w)
  = if quad_written env w q
    then <[path:=JArray (records_of env w (quad_members q))]> (files w)
    else files w.
Proof. unfold save_quad_world. by destruct (quad_written env w q). Qed.

Lemma trace_save_quad_world dir path q flag (w : world) :
  trace (save_quad_world env dir path q flag w)
  = trace w ++ EvSaveQuad q flag
      :: (if quad_written env w q then [EvAssureDir dir; EvWriteFile path]
          else []).
Proof.
  unfold save_quad_world. destruct (quad_written env w q); simpl; [|done].
  by rewrite <- !app_assoc.
Qed.

Lemma dirs_save_quad_world dir path q flag (w : world) :
  dirs (save_quad_world env dir path q flag w)
  = if quad_written env w q then {[dir]} ∪ dirs w else dirs w.
Proof. unfold save_quad_world. by destruct (quad_written env w q). Qed.

Lemma live_save_quad_world dir path q flag (w : world) :
  live w → live (save_quad_world env dir path q flag w).
Proof.
  intros Hl k sm Hk. rewrite heap_save_quad_world.
  rewrite submaps_save_quad_world, lookup_touch_all in Hk.
  destruct (submaps w !! k) as [v|] eqn:Hv.
  - simplify_eq. by apply (map_Forall_lookup_1 _ _ _ _ Hl Hv).
  - case_decide; by simplify_eq.
Qed.

(** Where the iterator goes next, everything behind it has been handled. *)
Lemma next_behind (m : gmap tripoint ptr) (c : tripoint)
    (saved : gset tripoint) :
  is_Some (m !! c) →
  (∀ k, is_Some (m !! k) → tripoint_ltb k c → sm_to_omt_copy k ∈ saved) →
  sm_to_omt_copy c ∈ saved →
  (if map_next m c is Some c' then is_Some (m !! c') else True)
  ∧ ∀ k, is_Some (m !! k) → before (map_next m c) k →
         sm_to_omt_copy k ∈ saved.
Proof.
  intros Hc Hbehind Hcur.
  destruct (map_next m c) as [c'|] eqn:Hnext.
  - apply map_next_Some in Hnext as (Hc' & Hlt & Hleast).
    split; [done|]. intros k Hk Hkc'. simpl in Hkc'.
    destruct (tripoint_ltb_total k c) as [?|[->|?]]; [by apply Hbehind|done|].
    by destruct (Hleast k).
  - split; [done|]. intros k Hk _.
    destruct (tripoint_ltb_total k c) as [?|[->|?]]; [by apply Hbehind|done|].
    by destruct (map_next_None _ _ Hnext k).
Qed.

Lemma loop_inv_skip (c : tripoint) l w :
  loop_inv env d w0 (Some c) l w →
  sm_to_omt_copy c ∈ saved_submaps l →
  loop_inv env d w0 (map_next (submaps w) c) l w.
Proof.
  intros Hinv Hq.
  destruct (next_behind (submaps w) c (saved_submaps l)) as [Hcur Hbeh];
    [apply (inv_cursor _ _ _ _ _ _ Hinv)| |done|].
  { intros k Hk Hlt. by apply (inv_behind _ _ _ _ _ _ Hinv). }
  destruct Hinv. by constructor.
Qed.

Lemma loop_inv_quad (c : tripoint) l w :
  let q := sm_to_omt_copy c in
  let flag := delete_flag env d q in
  loop_inv env d w0 (Some c) l w →
  q ∉ saved_submaps l →
  let w' := save_quad_world env (find_dirname env q) (chunk_path env q) q
                            flag w in
  loop_inv env d w0 (map_next (submaps w') c)
    (SaveLocals ({[q]} ∪ saved_submaps l)
                (save_quad_queue env flag w q (submaps_to_delete l)))
    w'.
Proof.
  intros q flag Hinv Hq w'.
  assert (is_Some (submaps w0 !! c)) as Hc0.
  { eapply inv_key_of_start; [done| |done].
    apply (inv_cursor _ _ _ _ _ _ Hinv). }
  assert (∀ k, is_Some (submaps w !! k) → is_Some (submaps w' !! k)) as Hkeep.
  { intros k [v Hk]. unfold w'.
    rewrite submaps_save_quad_world, lookup_touch_all, Hk. eauto. }
  assert (∀ k, is_Some (submaps w' !! k) →
               is_Some (submaps w !! k) ∨ k ∈ quad_members q) as Hkeys.
  { intros k. unfold w'. rewrite submaps_save_quad_world, lookup_touch_all.
    destruct (submaps w !! k); [by left|].
    case_decide; [by right|]. by intros [? ?]. }
  destruct (next_behind (submaps w') c ({[q]} ∪ saved_submaps l))
    as [Hcur Hbeh].
  { apply Hkeep, (inv_cursor _ _ _ _ _ _ Hinv). }
  { intros k Hk Hlt. destruct (Hkeys k Hk) as [Hold|Hnew].
    - apply elem_of_union_r. by apply (inv_behind _ _ _ _ _ _ Hinv).
    - apply elem_of_union_l, elem_of_singleton. by apply member_quad. }
  { apply elem_of_union_l. by apply elem_of_singleton. }
  assert (quad_uniform w q = quad_uniform w0 q) as Hu
    by (by eapply inv_quad_uniform).
  assert (quad_written env w q = quad_written env w0 q) as Hwr
    by (unfold quad_written; by rewrite Hu).
  assert (records_of env w (quad_members q)
          = records_of env w0 (quad_members q)) as Hrec.
  { apply records_of_same. intros a. by eapply inv_tile_at. }
  constructor; simpl.
  - apply live_save_quad_world, (inv_live _ _ _ _ _ _ Hinv).
  - unfold w'. rewrite heap_save_quad_world. apply (inv_heap _ _ _ _ _ _ Hinv).
  - intros k. unfold w'. rewrite submaps_save_quad_world, lookup_touch_all.
    destruct (inv_index _ _ _ _ _ _ Hinv k) as [Heq|(Hn & Hk & Hs)].
    + rewrite Heq. destruct (submaps w0 !! k) eqn:Hk0; [by left|].
      case_decide as Hin; [|by left]. right. split_and!; [done..|].
      apply elem_of_union_l, elem_of_singleton. by apply member_quad.
    + rewrite Hk. right. split_and!; [done..|]. by apply elem_of_union_r.
  - intros q' [->%elem_of_singleton|Hq']%elem_of_union.
    + by exists c.
    + by apply (inv_saved_from _ _ _ _ _ _ Hinv).
  - intros q' a [->%elem_of_singleton|Hq']%elem_of_union Ha.
    + unfold w'. rewrite submaps_save_quad_world, lookup_touch_all.
      destruct (submaps w !! a); [eauto|]. rewrite decide_True by done. eauto.
    + apply Hkeep. by apply (inv_touched _ _ _ _ _ _ Hinv q').
  - done.
  - done.
  - intros a. unfold save_quad_queue.
    rewrite elem_of_app, (inv_queue _ _ _ _ _ _ Hinv), elem_of_union,
      elem_of_singleton.
    assert (a ∈ (if flag && (quad_uniform w q || negb (disable_mapgen env))
                 then filter (λ a, resident w a) (quad_members q) else [])
            ↔ sm_to_omt_copy a = q ∧ to_be_deleted env d w0 a) as ->;
      [|tauto].
    unfold to_be_deleted. rewrite Hu.
    destruct flag eqn:Hflag; simpl.
    2:{ rewrite elem_of_nil. split; [done|]. intros (-> & _ & Hf & _).
        fold q in Hf. unfold flag in Hflag. by rewrite Hflag in Hf. }
    destruct (quad_uniform w0 q) eqn:Hu0; simpl.
    + rewrite list_elem_of_filter, (inv_resident _ _ _ a Hinv).
      split.
      * intros [Hr Ha]. apply member_quad in Ha as Hqa. rewrite Hqa.
        fold q flag. rewrite Hflag, Hu0. naive_solver.
      * intros (<- & Hr & _). split; [done|]. apply key_in_quad.
    + destruct (disable_mapgen env) eqn:Hdis; simpl.
      * rewrite elem_of_nil. split; [done|]. intros (-> & _ & _ & [Hx|Hx]).
        -- fold q in Hx. by rewrite Hu0 in Hx.
        -- done.
      * rewrite list_elem_of_filter, (inv_resident _ _ _ a Hinv).
        split.
        -- intros [Hr Ha]. apply member_quad in Ha as Hqa. rewrite Hqa.
           fold q flag. rewrite Hflag. naive_solver.
        -- intros (<- & Hr & _). split; [done|]. apply key_in_quad.
  - destruct (inv_trace _ _ _ _ _ _ Hinv) as (tr & Htr & Hnd & Hsaved & Hwf).
    set (new := EvSaveQuad q flag
                  :: (if quad_written env w q
                      then [EvAssureDir (find_dirname env q);
                            EvWriteFile (chunk_path env q)] else [])).
    assert (saved_quads new = [q]) as Hsq
      by (unfold new; by destruct (quad_written env w q)).
    exists (tr ++ new). split_and!.
    + unfold w'. by rewrite trace_save_quad_world, Htr, <- app_assoc.
    + unfold saved_quads in *. rewrite omap_app, Hsq.
      apply NoDup_app. split_and!; [done| |apply NoDup_singleton].
      intros x Hx ->%list_elem_of_singleton. by apply Hq, Hsaved.
    + intros q'. unfold saved_quads in *. rewrite omap_app, Hsq.
      rewrite elem_of_app, list_elem_of_singleton, elem_of_union,
        elem_of_singleton, Hsaved. tauto.
    + intros path. unfold written_files in *. rewrite omap_app, elem_of_app.
      intros [Hp|Hp].
      * destruct (Hwf path Hp) as (q' & ? & ? & ?). exists q'.
        split_and!; [|done..]. by apply elem_of_union_r.
      * unfold new in Hp. rewrite Hwr in Hp.
        destruct (quad_written env w0 q) eqn:Hw0; simpl in Hp.
        -- apply list_elem_of_singleton in Hp as ->. exists q.
           split_and!; [|by rewrite Hw0|done].
           by apply elem_of_union_l, elem_of_singleton.
        -- by apply elem_of_nil in Hp.
  - intros path. unfold w'. rewrite files_save_quad_world, Hwr.
    destruct (quad_written env w0 q) eqn:Hw0.
    + destruct (decide (path = chunk_path env q)) as [->|Hne].
      * right. exists q. split_and!; [|by rewrite Hw0|done].
        by apply elem_of_union_l, elem_of_singleton.
      * rewrite lookup_insert_ne by done.
        destruct (inv_files _ _ _ _ _ _ Hinv path)
          as [?|(q' & ? & ? & ?)]; [by left|].
        right. exists q'. split_and!; [|done..]. by apply elem_of_union_r.
    + destruct (inv_files _ _ _ _ _ _ Hinv path)
        as [?|(q' & ? & ? & ?)]; [by left|].
      right. exists q'. split_and!; [|done..]. by apply elem_of_union_r.
  - intros q' [->%elem_of_singleton|Hq']%elem_of_union Hw'.
    + unfold w'. rewrite files_save_quad_world, Hwr.
      destruct (quad_written env w0 q); [|done].
      by rewrite lookup_insert_eq, Hrec.
    + unfold w'. rewrite files_save_quad_world.
      assert (chunk_path env q ≠ chunk_path env q') as Hne.
      { intros Heq%chunk_path_inj. by subst. }
      destruct (quad_written env w q); [rewrite lookup_insert_ne by done|];
        by apply (inv_written _ _ _ _ _ _ Hinv).
  - intros dir. unfold w'. rewrite dirs_save_quad_world, Hwr.
    intros Hdir.
    assert (dir ∈ dirs w →
            dir ∈ dirs w0 ∨ dir = maps_dir env
            ∨ ∃ q0, q0 ∈ {[q]} ∪ saved_submaps l ∧ quad_written env w0 q0
                    ∧ dir = find_dirname env q0) as Hold.
    { intros Hd. destruct (inv_dirs _ _ _ _ _ _ Hinv dir Hd)
        as [?|[?|(q' & ? & ? & ?)]]; [by left|by right; left|].
      right; right. exists q'. split_and!; [|done..].
      by apply elem_of_union_r. }
    destruct (quad_written env w0 q) eqn:Hw0; [|by apply Hold].
    apply elem_of_union in Hdir as [->%elem_of_singleton|Hd];
      [|by apply Hold].
    right; right. exists q. split_and!; [|by rewrite Hw0|done].
    by apply elem_of_union_l, elem_of_singleton.
Qed.

Lemma loop_inv_step (c : tripoint) l w :
  loop_inv env d w0 (Some c) l w →
  loop_inv env d w0 (map_next (submaps (save_step_result env d c l w).2) c)
    (save_step_result env d c l w).1 (save_step_result env d c l w).2.
Proof.
  intros Hinv. unfold save_step_result. case_decide.
  - by apply loop_inv_skip.
  - by apply loop_inv_quad.
Qed.

Lemma loop_inv_init (w : world) :
  live w → submaps w = submaps w0 → heap w = heap w0 →
  files w = files w0 → trace w = trace w0 → dirs w = dirs w0 →
  loop_inv env d w0 (map_begin (submaps w)) (SaveLocals ∅ []) w.
Proof.
  intros Hl Hs Hh Hf Ht Hd. constructor; simpl; try done.
  - intros k. left. by rewrite Hs.
  - destruct (map_begin (submaps w)) as [c|] eqn:Hb; [|done].
    by apply map_begin_Some in Hb as [? _].
  - intros k Hk. destruct (map_begin (submaps w)) as [c|] eqn:Hb.
    + apply map_begin_Some in Hb as [_ Hleast]. intros Hlt.
      by destruct (Hleast k).
    + apply map_begin_None in Hb. rewrite Hb, lookup_empty in Hk.
      by destruct Hk.
  - intros a. rewrite elem_of_nil, elem_of_empty. tauto.
  - exists []. rewrite app_nil_r. split_and!; [done|apply NoDup_nil_2|..].
    + intros q. simpl. rewrite elem_of_nil, elem_of_empty. tauto.
    + intros path. simpl. by rewrite elem_of_nil.
  - intros path. left. by rewrite Hf.
  - intros dir Hdir. left. by rewrite <- Hd.
Qed.

(** The index stays inside the universe of the pass. *)
Lemma member_in_universe (k a : tripoint) :
  is_Some (submaps w0 !! k) → a ∈ quad_members (sm_to_omt_copy k) →
  a ∈ universe w0.
Proof.
  intros Hk Ha. unfold universe. apply elem_of_list_to_set.
  apply list_elem_of_bind. exists k. split; [done|].
  by apply elem_of_elements, elem_of_dom.
Qed.

Lemma inv_key_in_universe it l w (k : tripoint) :
  loop_inv env d w0 it l w → is_Some (submaps w !! k) → k ∈ universe w0.
Proof.
  intros Hinv Hk.
  destruct (inv_index _ _ _ _ _ _ Hinv k) as [Heq|(_ & _ & Hs)].
  - rewrite Heq in Hk. eapply member_in_universe; [done|apply key_in_quad].
  - destruct (inv_saved_from _ _ _ _ _ _ Hinv _ Hs) as (k0 & Hk0 & Hq).
    eapply member_in_universe; [done|]. rewrite Hq. apply key_in_quad.
Qed.

Lemma bind_members_size (keys : list tripoint) :
  (size (list_to_set (C:=gset tripoint)
           (k ← keys; quad_members (sm_to_omt_copy k)))
   ≤ 4 * length keys)%nat.
Proof.
  induction keys as [|k keys IH].
  { change (size (∅ : gset tripoint) ≤ 4 * 0)%nat. by rewrite size_empty. }
  rewrite bind_cons, list_to_set_app_L, size_union_alt.
  assert (size (list_to_set (C:=gset tripoint)
                  (quad_members (sm_to_omt_copy k))) ≤ 4)%nat as H4.
  { rewrite size_list_to_set by apply quad_members_NoDup. done. }
  etrans; [apply Nat.add_le_mono; [done|]|].
  { apply subseteq_size. apply subseteq_difference_l. reflexivity. }
  simpl length. lia.
Qed.

Lemma universe_size : (size (universe w0) ≤ 4 * size (submaps w0))%nat.
Proof.
  unfold universe. etrans; [apply bind_members_size|].
  apply Nat.mul_le_mono_l. by rewrite <- size_dom.
Qed.

Lemma remaining_bound (it : option tripoint) :
  (remaining w0 it ≤ 4 * size (submaps w0))%nat.
Proof.
  destruct it as [c|]; simpl; [|lia].
  etrans; [|apply universe_size]. apply subseteq_size.
  intros x. rewrite elem_of_filter. tauto.
Qed.

Lemma remaining_next (c : tripoint) l w :
  loop_inv env d w0 (Some c) l w →
  (remaining w0 (map_next (submaps (save_step_result env d c l w).2) c)
   < remaining w0 (Some c))%nat.
Proof.
  intros Hinv.
  assert (c ∈ universe w0) as Hc.
  { eapply inv_key_in_universe; [done|].
    apply (inv_cursor _ _ _ _ _ _ Hinv). }
  pose proof (loop_inv_step c l w Hinv) as Hinv'.
  destruct (map_next _ c) as [c'|] eqn:Hnext; simpl.
  - apply map_next_Some in Hnext as (Hc' & Hlt & _).
    apply subset_size. split.
    + intros x. rewrite !elem_of_filter. intros [Hx ?]. split; [|done].
      intros Hxc. apply Hx. by eapply tripoint_ltb_trans.
    + intros Hsub. specialize (Hsub c). rewrite !elem_of_filter in Hsub.
      destruct Hsub as [Hn _]; [|done].
      split; [apply tripoint_ltb_irrefl|done].
  - assert (c ∈ filter (λ u, ¬ tripoint_ltb u c) (universe w0)) as Hin.
    { apply elem_of_filter. split; [apply tripoint_ltb_irrefl|done]. }
    destruct (decide (size (filter (λ u, ¬ tripoint_ltb u c) (universe w0))
                      = 0%nat)) as [H0|]; [|lia].
    apply size_empty_inv in H0. apply H0 in Hin.
    by apply not_elem_of_empty in Hin.
Qed.

Lemma save_loop_spec (fuel : nat) it l w :
  loop_inv env d w0 it l w → (remaining w0 it ≤ fuel)%nat →
  ∃ l' w', save_loop env fuel d it l w = Ok l' w'
           ∧ loop_inv env d w0 None l' w'.
Proof.
  revert it l w. induction fuel as [|fuel IH]; intros [c|] l w Hinv Hfuel.
  - pose proof (remaining_next c l w Hinv). lia.
  - by exists l, w.
  - simpl. unfold_M.
    rewrite save_step_spec by apply (inv_live _ _ _ _ _ _ Hinv).
    apply IH; [by apply loop_inv_step|].
    pose proof (remaining_next c l w Hinv). lia.
  - by exists l, w.
Qed.

End LoopInvariant.

(** *** The second pass of [save] *)

Lemma no_alias_lookup (w : world) (k1 k2 : tripoint) (p : addr) :
  no_alias w → submaps w !! k1 = Some (Some p) →
  submaps w !! k2 = Some (Some p) → k1 = k2.
Proof.
  intros Hna H1 H2.
  pose proof (map_Forall_lookup_1 _ _ _ _ Hna H1) as Hinner. simpl in Hinner.
  by apply (map_Forall_lookup_1 _ _ _ _ Hinner H2).
Qed.

Lemma no_alias_intro (w : world) :
  (∀ k1 k2 p, submaps w !! k1 = Some (Some p) →
              submaps w !! k2 = Some (Some p) → k1 = k2) →
  no_alias w.
Proof.
  intros Hna k1 sm1 H1 k2 sm2 H2 <- [p ->]. by apply (Hna k1 k2 p).
Qed.

Lemma live_intro (w : world) :
  (∀ k p, submaps w !! k = Some (Some p) → is_Some (heap w !! p)) → live w.
Proof. intros Hl k [p|] Hk; [by apply (Hl k)|done]. Qed.

Lemma remove_submap_spec (a : tripoint) (w : world) :
  owns w →
  ∃ w', remove_submap a w = Ok tt w'
        ∧ owns w'
        ∧ submaps w' = delete a (submaps w)
        ∧ files w' = files w ∧ dirs w' = dirs w
        ∧ ∃ tr, trace w' = trace w ++ tr
                ∧ saved_quads tr = [] ∧ written_files tr = [].
Proof.
  intros [Hl Hna]. unfold remove_submap. unfold_M.
  destruct (submaps w !! a) as [[p|]|] eqn:Ha.
  - destruct (live_lookup w a p Hl Ha) as [obj Hobj].
    unfold delete_ptr. rewrite decide_True by (apply elem_of_dom; eauto).
    eexists. split; [done|]. simpl. split_and!; try done.
    + split.
      * apply live_intro. simpl. intros k p' Hk.
        apply lookup_delete_Some in Hk as [Hne Hk].
        rewrite lookup_delete_ne; [by eapply live_lookup|].
        intros ->. apply Hne. by apply (no_alias_lookup w a k p').
      * apply no_alias_intro. simpl. intros k1 k2 p' H1 H2.
        apply lookup_delete_Some in H1 as [_ H1].
        apply lookup_delete_Some in H2 as [_ H2].
        by apply (no_alias_lookup w k1 k2 p').
    + exists []. by rewrite app_nil_r.
  - unfold delete_ptr. eexists. split; [done|]. simpl.
    split_and!; try done.
    + split.
      * apply live_intro. simpl. intros k p' Hk.
        apply lookup_delete_Some in Hk as [Hne Hk]. by eapply live_lookup.
      * apply no_alias_intro. simpl. intros k1 k2 p' H1 H2.
        apply lookup_delete_Some in H1 as [_ H1].
        apply lookup_delete_Some in H2 as [_ H2].
        by apply (no_alias_lookup w k1 k2 p').
    + exists []. by rewrite app_nil_r.
  - eexists. split; [done|]. simpl. split_and!; try done.
    + by rewrite delete_id.
    + by eexists [_].
Qed.

Lemma remove_submaps_spec (queue : list tripoint) (w : world) :
  owns w →
  ∃ w', remove_submaps queue w = Ok tt w'
        ∧ owns w'
        ∧ (∀ k, submaps w' !! k
                = if decide (k ∈ queue) then None else submaps w !! k)
        ∧ files w' = files w ∧ dirs w' = dirs w
        ∧ ∃ tr, trace w' = trace w ++ tr
                ∧ saved_quads tr = [] ∧ written_files tr = [].
Proof.
  revert w. induction queue as [|a queue IH]; intros w Hown.
  { exists w. split_and!; try done. exists []. by rewrite app_nil_r. }
  destruct (remove_submap_spec a w Hown)
    as (w1 & Hrun & Hown1 & Hs1 & Hf1 & Hd1 & tr1 & Ht1 & Hq1 & Hw1).
  destruct (IH w1 Hown1)
    as (w2 & Hrun2 & Hown2 & Hs2 & Hf2 & Hd2 & tr2 & Ht2 & Hq2 & Hw2).
  exists w2. simpl. unfold_M. rewrite Hrun. split_and!; try done.
  - intros k. rewrite Hs2, Hs1.
    destruct (decide (k = a)) as [->|Hne].
    + rewrite lookup_delete_eq.
      rewrite (decide_True (P:=a ∈ a :: queue)) by apply list_elem_of_here.
      by case_decide.
    + rewrite lookup_delete_ne by done.
      destruct (decide (k ∈ queue)).
      * by rewrite (decide_True (P:=k ∈ a :: queue))
          by (by apply list_elem_of_further).
      * rewrite (decide_False (P:=k ∈ a :: queue)); [done|].
        by intros [?|?]%elem_of_cons.
  - congruence.
  - congruence.
  - exists (tr1 ++ tr2). rewrite Ht2, Ht1, <- app_assoc.
    unfold saved_quads, written_files in *.
    by rewrite !omap_app, Hq1, Hq2, Hw1, Hw2.
Qed.


(** *** The whole of [save] *)

(** [save] returns on every state in which the buffer owns its tiles, and
    leaves the state described by [save_post]. *)
Lemma save_returns (d : bool) (w0 : world) :
  owns w0 → ∃ w', save env d w0 = Ok tt w' ∧ save_post env d w0 w'.
Proof.
  intros [Hl Hna]. unfold save, assure_dir_exist. unfold_M.
  set (maps := world_base_save_path env +:+ "/maps").
  set (w0' := emit (EvAssureDir maps) (set_dirs (union {[maps]}) w0)).
  change (submaps w0') with (submaps w0).
  assert (loop_inv env d w0 (map_begin (submaps w0)) (SaveLocals ∅ []) w0')
    as Hinit.
  { pose proof (loop_inv_init d w0' w0' Hl eq_refl eq_refl eq_refl eq_refl
                                eq_refl) as Hi.
    destruct Hi. constructor; try done.
    - destruct inv_trace0 as (tr & Htr & ?).
      exists ([EvAssureDir maps] ++ tr).
      split; [|done]. rewrite Htr. simpl. by rewrite <- app_assoc.
    - intros dir Hdir.
      destruct (inv_dirs0 dir Hdir) as [Hin|?]; [|by right].
      simpl in Hin. apply elem_of_union in Hin as [->%elem_of_singleton|?];
        [by right; left|by left]. }
  destruct (save_loop_spec d w0 (4 * size (submaps w0))
              (map_begin (submaps w0)) (SaveLocals ∅ []) w0' Hinit)
    as (l & w1 & Hloop & Hinv); [apply remaining_bound|].
  rewrite Hloop.
  assert (owns w1) as Hown1.
  { split; [apply (inv_live _ _ _ _ _ _ Hinv)|].
    apply no_alias_intro. intros k1 k2 p H1 H2.
    destruct (inv_index _ _ _ _ _ _ Hinv k1) as [E1|(_ & E1 & _)];
      [|congruence].
    destruct (inv_index _ _ _ _ _ _ Hinv k2) as [E2|(_ & E2 & _)];
      [|congruence].
    rewrite E1 in H1. rewrite E2 in H2.
    by apply (no_alias_lookup w0 k1 k2 p). }
  destruct (remove_submaps_spec (submaps_to_delete l) w1 Hown1)
    as (w' & Hrm & Hown' & Hs & Hf & Hd & tr2 & Ht2 & Hq2 & Hw2).
  exists w'. split; [done|].
  assert (∀ q, q ∈ saved_submaps l ↔ quad_indexed w0 q) as Hsaved.
  { intros q. split; [apply (inv_saved_from _ _ _ _ _ _ Hinv)|].
    intros (k & Hk & <-). apply (inv_behind _ _ _ _ _ _ Hinv); [|done].
    by rewrite (inv_key_kept d w0 None l w1 k Hinv Hk). }
  assert (∀ a, a ∈ submaps_to_delete l ↔ to_be_deleted env d w0 a) as Hqueue.
  { intros a. rewrite (inv_queue _ _ _ _ _ _ Hinv), Hsaved.
    split; [tauto|]. intros Htbd. split; [|done]. exists a. split; [|done].
    destruct Htbd as [Hr _]. unfold resident in Hr.
    destruct (submaps w0 !! a); [eauto|done]. }
  constructor.
  - done.
  - intros a Ha. rewrite Hs, decide_True; [done|]. by apply Hqueue.
  - intros k Hk Hk0. rewrite Hs, decide_False by (by rewrite Hqueue).
    by apply (inv_key_kept d w0 None l w1).
  - intros k Hk0 Hq. rewrite Hs, decide_False.
    2:{ rewrite Hqueue. intros [Hr _]. unfold resident in Hr.
        by rewrite Hk0 in Hr. }
    apply Hsaved in Hq.
    pose proof (inv_touched _ _ _ _ _ _ Hinv _ k Hq (key_in_quad k)) as Hk1.
    destruct (inv_index _ _ _ _ _ _ Hinv k) as [E|(_ & E & _)]; [|done].
    rewrite E, Hk0 in Hk1. by destruct Hk1.
  - intros k Hk0 Hq. rewrite Hs, decide_False.
    2:{ rewrite Hqueue. intros [Hr _]. unfold resident in Hr.
        by rewrite Hk0 in Hr. }
    destruct (inv_index _ _ _ _ _ _ Hinv k) as [E|(_ & _ & E)];
      [by rewrite E|].
    by apply Hsaved in E.
  - intros q Hq Hw. rewrite Hf.
    apply (inv_written _ _ _ _ _ _ Hinv); [by apply Hsaved|done].
  - intros path. rewrite Hf.
    destruct (inv_files _ _ _ _ _ _ Hinv path) as [?|(q & ? & ? & ?)];
      [by left|].
    right. exists q. split_and!; [by apply Hsaved|done..].
  - destruct (inv_trace _ _ _ _ _ _ Hinv) as (tr & Htr & Hnd & Hsq & Hwf).
    exists (tr ++ tr2). unfold saved_quads, written_files in *.
    rewrite !omap_app, Hq2, Hw2, !app_nil_r. split_and!.
    + by rewrite Ht2, Htr, <- app_assoc.
    + done.
    + intros q. by rewrite Hsq, Hsaved.
    + intros path Hp. destruct (Hwf path Hp) as (q & ? & ? & ?).
      exists q. split_and!; [by apply Hsaved|done..].
  - intros dir. rewrite Hd. intros Hdir.
    destruct (inv_dirs _ _ _ _ _ _ Hinv dir Hdir)
      as [?|[?|(q & ? & ? & ?)]]; [by left|by right; left|].
    right; right. exists q. split_and!; [by apply Hsaved|done..].
Qed.

(** C9. A call of [save] invokes [save_quad] for the quads that have an
    entry in the index, and for none of them twice, however many of its
    members are met during the iteration. *)
Theorem save_visits_each_quad_once (d : bool) (w0 : world) :
  owns w0 →
  ∃ w' tr, save env d w0 = Ok tt w'
           ∧ trace w' = trace w0 ++ tr
           ∧ NoDup (saved_quads tr)
           ∧ ∀ q, q ∈ saved_quads tr ↔ quad_indexed w0 q.
Proof.
  intros Hown. destruct (save_returns d w0 Hown) as (w' & Hrun & Hpost).
  destruct (post_trace _ _ _ _ Hpost) as (tr & Htr & Hnd & Hq & _).
  by exists w', tr.
Qed.

Lemma quad_uniform_not_written (w : world) (q : tripoint) :
  quad_uniform w q = true → quad_written env w q = false.
Proof. unfold quad_written. by intros ->. Qed.

Lemma member_to_be_deleted (d : bool) (w0 : world) (q a : tripoint) :
  a ∈ quad_members q → resident w0 a → delete_flag env d q →
  quad_uniform w0 q ∨ disable_mapgen env = false →
  to_be_deleted env d w0 a.
Proof.
  intros Ha Hr Hf Hu. unfold to_be_deleted.
  by rewrite (member_quad q a Ha).
Qed.

(** C3. A quad whose four slots hold no tile or a uniform tile: [save_quad]
    writes nothing and creates no directory for it, and queues its resident
    members when deletion is asked for; a whole [save] leaves the chunk file
    of the quad alone, creates directories only for the quads it writes
    (besides the maps directory), and with [delete_after_save], or when the
    quad gets the deletion flag otherwise, none of its resident members
    stays in the index. *)
Theorem uniform_quad_is_elided (q : tripoint) (w0 : world) :
  owns w0 → quad_uniform w0 q = true →
  (∀ dirname filename queue d,
     ∃ queue' w',
       save_quad env dirname filename q queue d w0 = Ok queue' w'
       ∧ files w' = files w0 ∧ dirs w' = dirs w0
       ∧ trace w' = trace w0 ++ [EvSaveQuad q d]
       ∧ (d = true → ∀ a, a ∈ quad_members q → resident w0 a → a ∈ queue'))
  ∧ (∀ d,
     ∃ w' tr,
       save env d w0 = Ok tt w'
       ∧ files w' !! chunk_path env q = files w0 !! chunk_path env q
       ∧ trace w' = trace w0 ++ tr
       ∧ (chunk_path env q ∉ written_files tr)
       ∧ (∀ dir, dir ∈ dirs w' →
            dir ∈ dirs w0 ∨ dir = maps_dir env
            ∨ ∃ q', q' ≠ q ∧ quad_written env w0 q' = true
                    ∧ dir = find_dirname env q')
       ∧ ((d = true ∨ delete_flag env d q = true) →
          ∀ a, a ∈ quad_members q → resident w0 a → submaps w' !! a = None)).
Proof.
  intros Hown Hu. split.
  - intros dirname filename queue d.
    rewrite save_quad_spec by apply Hown.
    unfold save_quad_world, save_quad_queue.
    rewrite (quad_uniform_not_written _ _ Hu), Hu.
    eexists _, _. split; [done|]. simpl. split_and!; try done.
    intros -> a Ha Hr. simpl. apply elem_of_app. right.
    by apply list_elem_of_filter.
  - intros d. destruct (save_returns d w0 Hown) as (w' & Hrun & Hpost).
    destruct (post_trace _ _ _ _ Hpost) as (tr & Htr & _ & _ & Hwf).
    exists w', tr. split_and!; try done.
    + destruct (post_files _ _ _ _ Hpost (chunk_path env q))
        as [?|(q' & _ & Hw & Heq)]; [done|].
      apply chunk_path_inj in Heq as <-.
      by rewrite (quad_uniform_not_written _ _ Hu) in Hw.
    + intros Hin. destruct (Hwf _ Hin) as (q' & _ & Hw & Heq).
      apply chunk_path_inj in Heq as <-.
      by rewrite (quad_uniform_not_written _ _ Hu) in Hw.
    + intros dir Hdir.
      destruct (post_dirs _ _ _ _ Hpost dir Hdir)
        as [?|[?|(q' & _ & Hw & ->)]]; [by left|by right; left|].
      right; right. exists q'. split_and!; [|by destruct (quad_written _ _ _)|done].
      intros ->. by rewrite (quad_uniform_not_written _ _ Hu) in Hw.
    + intros Hd a Ha Hr. apply (post_deleted _ _ _ _ Hpost).
      apply (member_to_be_deleted d w0 q a); try done.
      * destruct Hd as [Hd|Hd]; by rewrite Hd.
      * left. by rewrite Hu.
Qed.

Lemma classic_tbd (d : bool) (w0 : world) (a : tripoint) :
  to_be_deleted env d w0 a ∨ ¬ to_be_deleted env d w0 a.
Proof.
  unfold to_be_deleted.
  destruct (resident w0 a), (delete_flag env d (sm_to_omt_copy a)),
    (quad_uniform w0 (sm_to_omt_copy a)), (disable_mapgen env);
    simpl; intuition congruence.
Qed.

Lemma far_quad_gets_flag (d : bool) (q : tripoint) :
  sm_to_omt_copy (abs_sub env) = tripoint_zero →
  horizontal_distance tripoint_zero q > HALF_MAPSIZE env →
  delete_flag env d q = true.
Proof.
  intros Ho. unfold horizontal_distance, delete_flag. rewrite Ho. simpl.
  intros Hfar. rewrite !Z.sub_0_r in Hfar.
  assert (tx q < 0 ∨ ty q < 0 ∨ tx q > HALF_MAPSIZE env
          ∨ ty q > HALF_MAPSIZE env) as Hwin by lia.
  rewrite !orb_true_iff, !bool_decide_eq_true, !Z.add_0_l. tauto.
Qed.

(** C6, as amended. With the origin of the map at the quad (0,0,0): a quad
    further than [HALF_MAPSIZE] from it along a horizontal axis, which is
    elided or is written (map generation is not disabled), has its resident
    members queued by [save( false )], and none of them is in the index when
    the call has returned. *)
Theorem far_quad_is_dropped (q : tripoint) (w0 : world) :
  owns w0 →
  sm_to_omt_copy (abs_sub env) = tripoint_zero →
  horizontal_distance tripoint_zero q > HALF_MAPSIZE env →
  quad_uniform w0 q = true ∨ disable_mapgen env = false →
  (∀ dirname filename queue,
     ∃ queue' w',
       save_quad env dirname filename q queue (delete_flag env false q) w0
         = Ok queue' w'
       ∧ ∀ a, a ∈ quad_members q → resident w0 a → a ∈ queue')
  ∧ ∃ w', save env false w0 = Ok tt w'
          ∧ ∀ a, a ∈ quad_members q → resident w0 a →
                 submaps w' !! a = None.
Proof.
  intros Hown Ho Hfar Hok.
  pose proof (far_quad_gets_flag false q Ho Hfar) as Hflag. split.
  - intros dirname filename queue. rewrite save_quad_spec by apply Hown.
    eexists _, _. split; [done|]. intros a Ha Hr.
    unfold save_quad_queue. rewrite Hflag. apply elem_of_app. right.
    assert (quad_uniform w0 q || negb (disable_mapgen env) = true) as ->.
    { destruct Hok as [->| ->]; [done|]. by rewrite orb_true_r. }
    by apply list_elem_of_filter.
  - destruct (save_returns false w0 Hown) as (w' & Hrun & Hpost).
    exists w'. split; [done|]. intros a Ha Hr.
    apply (post_deleted _ _ _ _ Hpost).
    apply (member_to_be_deleted false w0 q a); try done.
    + by rewrite Hflag.
    + destruct Hok as [->|?]; [by left|by right].
Qed.

(** C10, as amended. After [save], every member coordinate of a quad with an
    entry in the index that had no entry itself is a key with a null tile;
    a member that had an entry is gone only if [save] deleted it.  On such a
    null entry a later [get] returns absence at once, without any access to
    the disk, and a later [insert] returns false and leaves the tile with
    the caller. *)
Theorem save_leaves_null_entries (d : bool) (c : tripoint) (w0 : world) :
  owns w0 →
  quad_indexed w0 (sm_to_omt_copy c) →
  ∃ w', save env d w0 = Ok tt w'
        ∧ (submaps w' !! c = None → to_be_deleted env d w0 c)
        ∧ (submaps w0 !! c = None →
           submaps w' !! c = Some nullptr
           ∧ lookup_submap env c w' = Ok nullptr w'
           ∧ ∀ t, add_submap c t w' = Ok false w'
                  ∧ add_submap_unique c t w' = Ok (false, t) w').
Proof.
  intros Hown Hq. destruct (save_returns d w0 Hown) as (w' & Hrun & Hpost).
  exists w'. split; [done|]. split.
  - intros Hnone. destruct (submaps w0 !! c) as [v|] eqn:Hc0.
    + destruct (classic_tbd d w0 c) as [?|Hn]; [done|].
      rewrite (post_kept _ _ _ _ Hpost c Hn), Hc0 in Hnone; [done|].
      by rewrite Hc0.
    + by rewrite (post_null _ _ _ _ Hpost c Hc0 Hq) in Hnone.
  - intros Hc0. pose proof (post_null _ _ _ _ Hpost c Hc0 Hq) as Hc.
    split_and!; [done|by apply lookup_submap_resident|].
    intros t. assert (add_submap c t w' = Ok false w') as Hadd
      by (apply add_submap_taken; by rewrite Hc).
    split; [done|]. unfold add_submap_unique. unfold_M. by rewrite Hadd.
Qed.

(** *** Reading what the write path wrote *)

Lemma deserialize_payload (members : list (string * json)) (p : addr)
    (a : tripoint) (ver : Z) (obj obj' : submap) (w : world) :
  heap w !! p = Some obj →
  payload_names members →
  load_members obj members ver (multiply_xy a 12) = inr obj' →
  deserialize_members members (RecordLocals (Some p) a ver) w
  = Ok (RecordLocals (Some p) a ver) (set_heap (insert p obj') w).
Proof.
  revert obj w. induction members as [|[name value] rest IH];
    intros obj w Hp Hnames Hload.
  { simpl in *. unfold_M. simplify_eq. f_equal.
    apply world_eq; simpl; try done. by rewrite insert_id. }
  apply Forall_cons in Hnames as [[Hv Hc] Hnames]. simpl in Hv, Hc, Hload.
  destruct (submap_load obj name value ver (multiply_xy a 12))
    as [err|obj1] eqn:Hl1; [done|].
  cbn [deserialize_members]. unfold_M. unfold try_catch.
  unfold deserialize_member. rewrite !decide_False by done. unfold_M.
  unfold deref, assign. simpl. rewrite Hp, Hl1.
  rewrite decide_True by (apply elem_of_dom; eauto).
  rewrite (IH obj1 (set_heap (insert p obj1) w)); [|apply lookup_insert_eq|done..].
  f_equal. apply world_eq; simpl; try done. by rewrite insert_insert_eq.
Qed.

Lemma deserialize_chunk_record (a : tripoint) (obj obj' : submap)
    (w : world) :
  submaps w !! a = None →
  payload_names (submap_store obj) →
  load_members (submap_new (sm_to_ms_copy a)) (submap_store obj)
               (savegame_version env) (multiply_xy a 12) = inr obj' →
  deserialize_record (chunk_record env a obj) w = Ok tt (insert_tile a obj' w).
Proof.
  intros Ha Hnames Hload. unfold deserialize_record, chunk_record.
  cbn [deserialize_members]. unfold_M. unfold try_catch.
  unfold deserialize_member at 1. rewrite decide_True by done.
  unfold get_int. unfold_M.
  unfold deserialize_member at 1. rewrite decide_False by done.
  rewrite decide_True by done. unfold_M. unfold new_submap, delete_ptr.
  cbn [sm]. destruct a as [x y z]. cbn [tx ty tz].
  set (a := Tripoint x y z) in *.
  set (p := fresh (dom (heap w))).
  set (w1 := set_heap (insert p (submap_new (sm_to_ms_copy a))) w).
  rewrite (deserialize_payload _ p a _ (submap_new (sm_to_ms_copy a)) obj');
    [|apply lookup_insert_eq|done..].
  unfold add_submap_unique. unfold_M. cbn [submap_coordinates sm].
  rewrite add_submap_fresh by done.
  f_equal. apply world_eq; simpl; try done. by rewrite insert_insert_eq.
Qed.

Lemma deserialize_written_records (w0 : world) (addrs : list tripoint)
    (w : world) :
  NoDup addrs →
  (∀ a, a ∈ addrs → submaps w !! a = None) →
  (∀ a obj, a ∈ addrs → tile_at w0 a = Some obj → round_trips env a obj) →
  ∃ w', deserialize_records (records_of env w0 addrs) w = Ok tt w'
        ∧ files w' = files w ∧ dirs w' = dirs w ∧ trace w' = trace w
        ∧ heap w ⊆ heap w'
        ∧ (∀ k, k ∉ addrs → submaps w' !! k = submaps w !! k)
        ∧ ∀ a obj, a ∈ addrs → tile_at w0 a = Some obj →
            ∃ p obj', submaps w' !! a = Some (Some p)
                      ∧ heap w' !! p = Some obj'
                      ∧ submap_store obj' = submap_store obj.
Proof.
  revert w. induction addrs as [|a addrs IH]; intros w Hnd Hfree Hrt.
  { exists w. split_and!; try done. by intros a obj ?%elem_of_nil. }
  apply NoDup_cons in Hnd as [Ha Hnd]. rewrite records_of_cons.
  destruct (tile_at w0 a) as [obj|] eqn:Hobj.
  - destruct (Hrt a obj) as (Hnames & obj' & Hload & Hstore);
      [apply list_elem_of_here|done|].
    cbn [app]. rewrite deserialize_records_cons.
    rewrite (deserialize_chunk_record a obj obj') by
      (try done; apply Hfree, list_elem_of_here).
    set (p := fresh (dom (heap w))).
    destruct (IH (insert_tile a obj' w)) as
      (w' & Hrun & Hf & Hd & Ht & Hh & Hother & Htiles); [done| |..].
    { intros a' Ha'. simpl. rewrite lookup_insert_ne by (by intros ->).
      by apply Hfree, list_elem_of_further. }
    { intros a' o Ha' Ho. apply Hrt; [by apply list_elem_of_further|done]. }
    exists w'. split_and!; try done.
    + etrans; [|done]. simpl. apply insert_subseteq, fresh_heap_None.
    + intros k Hk. apply not_elem_of_cons in Hk as [Hne Hk].
      rewrite (Hother k Hk). simpl. by rewrite lookup_insert_ne.
    + intros a' o [->|Ha']%elem_of_cons Ho; [|by apply Htiles].
      exists p, obj'. rewrite (Hother a Ha). simpl.
      rewrite lookup_insert_eq. split_and!; [done| |congruence].
      eapply lookup_weaken; [|done]. simpl. apply lookup_insert_eq.
  - cbn [app].
    destruct (IH w) as (w' & Hrun & Hf & Hd & Ht & Hh & Hother & Htiles);
      [done| |..].
    { intros a' Ha'. by apply Hfree, list_elem_of_further. }
    { intros a' o Ha' Ho. apply Hrt; [by apply list_elem_of_further|done]. }
    exists w'. split_and!; try done.
    + intros k Hk. apply not_elem_of_cons in Hk as [Hne Hk]. by apply Hother.
    + intros a' o [->|Ha']%elem_of_cons Ho; [congruence|by apply Htiles].
Qed.

(** A record that is read without a failure leaves the files alone. *)
Lemma deserialize_record_files (record : json) (w w' : world) :
  deserialize_record record w = Ok tt w' →
  files w' = files w ∧ dirs w' = dirs w.
Proof.
  unfold deserialize_record. destruct record as [| | | | |members]; try done.
  unfold_M. unfold add_submap_unique. unfold_M.
  destruct (deserialize_members members _ w) as [l w1| | |] eqn:Hm; try done.
  destruct (deserialize_members_ok (heap w) _ _ _ _ _ Hm) as [_ Hsame];
    [done|].
  destruct Hsame as (_ & Hf & Hd & _).
  unfold add_submap, delete_ptr.
  destruct (has_key (submap_coordinates l) w1); simpl.
  - destruct (sm l); [case_decide|]; intros [= <-]; by simpl.
  - intros [= <-]. by simpl.
Qed.

Lemma deserialize_files (doc : json) (w w' : world) :
  deserialize doc w = Ok tt w' → files w' = files w ∧ dirs w' = dirs w.
Proof.
  unfold deserialize. destruct doc as [| | | |records|]; try done.
  revert w. induction records as [|record rest IH]; intros w.
  { simpl. unfold_M. by intros [= <-]. }
  rewrite deserialize_records_cons.
  destruct (deserialize_record record w) as [[] w1| | |] eqn:Hr; try done.
  apply deserialize_record_files in Hr as [Hf Hd].
  intros [Hf' Hd']%IH. split; congruence.
Qed.

Lemma tile_at_key (w : world) (a : tripoint) (obj : submap) :
  tile_at w a = Some obj → is_Some (submaps w !! a).
Proof. unfold tile_at. destruct (submaps w !! a); [eauto|done]. Qed.

Lemma quad_with_plain_tile_written (w : world) (c : tripoint) (obj : submap) :
  tile_at w c = Some obj → is_uniform obj = false →
  disable_mapgen env = false →
  quad_written env w (sm_to_omt_copy c) = true.
Proof.
  intros Hobj Hu Hdis. unfold quad_written. rewrite Hdis, andb_true_r.
  apply negb_true_iff. unfold quad_uniform.
  apply not_true_is_false. intros Hall.
  rewrite forallb_forall in Hall.
  specialize (Hall c (proj1 (list_elem_of_In _ _) (key_in_quad c))).
  unfold uniform_at in Hall. rewrite Hobj in Hall. congruence.
Qed.

(** Demand loading a coordinate of a quad whose chunk lies at [path], written
    by the write path from the state [w0], into an index without an entry
    for the quad. *)
Lemma load_written_chunk (w0 w : world) (c : tripoint) (path : string)
    (obj : submap) :
  let q := sm_to_omt_copy c in
  quad_file env c w = Some (path, JArray (records_of env w0 (quad_members q))) →
  (∀ a, a ∈ quad_members q → submaps w !! a = None) →
  tile_at w0 c = Some obj →
  (∀ a o, a ∈ quad_members q → tile_at w0 a = Some o → round_trips env a o) →
  ∃ p obj' w',
    lookup_submap env c w = Ok (Some p) w'
    ∧ submaps w' !! c = Some (Some p)
    ∧ heap w' !! p = Some obj'
    ∧ submap_store obj' = submap_store obj
    ∧ files w' = files w
    ∧ trace w' = trace w ++ probes env c w ++ [EvReadFile path].
Proof.
  intros q Hfile Hfree Hobj Hrt.
  assert (submaps w !! c = None) as Hc by apply Hfree, key_in_quad.
  rewrite (lookup_submap_miss c w Hc), Hfile. unfold read_result.
  cbn [deserialize].
  set (w1 := emits (probes env c w ++ [EvReadFile path]) w).
  destruct (deserialize_written_records w0 (quad_members q) w1)
    as (w2 & Hrun & Hf & Hd & Ht & Hh & Hother & Htiles);
    [apply quad_members_NoDup|done|done|].
  destruct (Htiles c obj (key_in_quad c) Hobj) as (p & obj' & Hp & Hheap & Hst).
  exists p, obj', w2. rewrite Hrun, Hp. by split_and!.
Qed.

(** C7, as amended. When map generation is not disabled and the tile codec
    reads back what it writes for the resident tiles of the quad: after
    [save( false )], a demand load of [c] into an empty index over the same
    files brings back a tile at [c] with the same payload members as the
    tile that was resident at [c]. *)
Theorem save_then_load_round_trip (c : tripoint) (obj : submap)
    (w0 : world) :
  owns w0 →
  disable_mapgen env = false →
  tile_at w0 c = Some obj → is_uniform obj = false →
  (∀ a o, a ∈ quad_members (sm_to_omt_copy c) → tile_at w0 a = Some o →
          round_trips env a o) →
  ∃ w', save env false w0 = Ok tt w'
        ∧ ∀ wf, submaps wf = ∅ → files wf = files w' →
            ∃ p obj' wf',
              lookup_submap env c wf = Ok (Some p) wf'
              ∧ submaps wf' !! c = Some (Some p)
              ∧ heap wf' !! p = Some obj'
              ∧ submap_store obj' = submap_store obj.
Proof.
  intros Hown Hdis Hobj Hu Hrt.
  destruct (save_returns false w0 Hown) as (w' & Hrun & Hpost).
  exists w'. split; [done|]. intros wf Hempty Hfiles.
  pose proof (post_written _ _ _ _ Hpost (sm_to_omt_copy c)) as Hw.
  rewrite <- Hfiles in Hw.
  destruct (load_written_chunk w0 wf c (chunk_path env (sm_to_omt_copy c)) obj)
    as (p & obj' & wf' & Hget & Hp & Hheap & Hst & _); try done.
  - unfold quad_file. fold (chunk_path env (sm_to_omt_copy c)).
    rewrite Hw; [done| |].
    + exists c. split; [by eapply tile_at_key|done].
    + by erewrite quad_with_plain_tile_written.
  - intros a _. by rewrite Hempty.
  - by exists p, obj', wf'.
Qed.


(** *** A record whose payload comes before its coordinates *)

(** A payload member in a record that has not brought its coordinates yet:
    the reader logs it and then calls into the tile through the empty
    handle. *)
Lemma payload_before_coordinates (name : string) (value : json)
    (rest : list (string * json)) (l : record_locals) (w : world) :
  sm l = None → name ≠ "version" → name ≠ "coordinates" →
  deserialize_members ((name, value) :: rest) l w = Undefined.
Proof.
  intros Hsm Hv Hc. cbn [deserialize_members]. unfold_M. unfold try_catch.
  unfold deserialize_member. rewrite !decide_False by done.
  by rewrite Hsm.
Qed.

Lemma version_members_first (pre tail : list (string * json))
    (l : record_locals) (w : world) :
  Forall (λ m, ∃ v, m = ("version"%string, JInt v)) pre →
  ∃ ver, deserialize_members (pre ++ tail) l w
         = deserialize_members tail
             (RecordLocals (sm l) (submap_coordinates l) ver) w.
Proof.
  intros Hpre. revert l. induction Hpre as [|m pre [v ->] _ IH]; intros l.
  { exists (version l). by destruct l. }
  destruct (IH (RecordLocals (sm l) (submap_coordinates l) v)) as [ver Hrun].
  simpl in Hrun. exists ver. rewrite <- Hrun. reflexivity.
Qed.

Lemma deserialize_records_app (before rest : list json) (w w1 : world) :
  deserialize_records before w = Ok tt w1 →
  deserialize_records (before ++ rest) w = deserialize_records rest w1.
Proof.
  revert w. induction before as [|record before IH]; intros w.
  { simpl. unfold_M. by intros [= <-]. }
  rewrite <- app_comm_cons, !deserialize_records_cons.
  destruct (deserialize_record record w) as [[] w'| | |]; try done.
  apply IH.
Qed.

(** C1 on the code.  A chunk in which a record brings a payload member
    before its coordinates, or in their place, after nothing but version
    members: the records in front of it are read, the diagnostic is logged,
    and then the load runs into undefined behaviour.  [get] does not return,
    neither with the sound records resident nor with absence. *)
Theorem malformed_record_load_is_undefined (c : tripoint) (path : string)
    (before after : list json) (pre rest : list (string * json))
    (name : string) (value : json) (w w1 : world) :
  submaps w !! c = None →
  quad_file env c w
  = Some (path,
          JArray (before ++ JObject (pre ++ (name, value) :: rest) :: after)) →
  deserialize_records before (emits (probes env c w ++ [EvReadFile path]) w)
  = Ok tt w1 →
  Forall (λ m, ∃ v, m = ("version"%string, JInt v)) pre →
  name ≠ "version" → name ≠ "coordinates" →
  lookup_submap env c w = Undefined.
Proof.
  intros Hc Hfile Hbefore Hpre Hv Hcoord.
  rewrite (lookup_submap_miss c w Hc), Hfile. unfold read_result.
  cbn [deserialize].
  rewrite (deserialize_records_app _ _ _ _ Hbefore), deserialize_records_cons.
  unfold deserialize_record. unfold_M.
  destruct (version_members_first pre ((name, value) :: rest)
              (RecordLocals nullptr tripoint_zero 0) w1 Hpre) as [ver ->].
  by rewrite payload_before_coordinates.
Qed.


(** *** What a load leaves behind *)

Lemma load_grows_refl (w : world) : load_grows w w.
Proof.
  split; try done.
  - intros p Hp [x Hx]. congruence.
  - intros k p Hk Hk'. congruence.
  - exists []. by rewrite app_nil_r.
Qed.

Lemma load_grows_trans (w1 w2 w3 : world) :
  load_grows w1 w2 → load_grows w2 w3 → load_grows w1 w3.
Proof.
  intros [Hi1 Hh1 Hf1 Hd1 Ho1 Hn1 (tr1 & Ht1 & Hq1)]
         [Hi2 Hh2 Hf2 Hd2 Ho2 Hn2 (tr2 & Ht2 & Hq2)].
  split.
  - by etrans.
  - by etrans.
  - congruence.
  - congruence.
  - intros p Hp Hp3.
    destruct (heap w2 !! p) as [obj|] eqn:Hp2.
    + destruct (Ho1 p Hp) as (k & Hk & Hk2); [eauto|].
      exists k. split; [done|].
      by eapply lookup_weaken.
    + destruct (Ho2 p Hp2 Hp3) as (k & Hk & Hk3).
      exists k. split; [|done].
      destruct (submaps w1 !! k) as [x|] eqn:Hk1; [|done].
      eapply lookup_weaken in Hk1; [|done]. congruence.
  - intros k p Hk Hk3.
    destruct (submaps w2 !! k) as [x|] eqn:Hk2.
    + pose proof Hk2 as Hk2'. eapply lookup_weaken in Hk2'; [|done].
      assert (x = Some p) as -> by congruence.
      destruct (Hn1 k p Hk Hk2) as [Hp [obj Hobj]]. split; [done|].
      exists obj. by eapply lookup_weaken.
    + destruct (Hn2 k p Hk2 Hk3) as [Hp Hp3]. split; [|done].
      destruct (heap w1 !! p) as [obj|] eqn:Hp1; [|done].
      eapply lookup_weaken in Hp1; [|done]. congruence.
  - exists (tr1 ++ tr2). split.
    + by rewrite Ht2, Ht1, app_assoc.
    + by apply Forall_app.
Qed.

Lemma load_grows_emit (e : event) (w : world) :
  reads_only e → load_grows w (emit e w).
Proof.
  intros He. split; simpl; try done.
  - intros p Hp [x Hx]. congruence.
  - intros k p Hk Hk'. congruence.
  - exists [e]. split; [done|]. by apply Forall_singleton.
Qed.

Lemma load_grows_emits (es : list event) (w : world) :
  Forall reads_only es → load_grows w (emits es w).
Proof.
  intros He. split; simpl; try done.
  - intros p Hp [x Hx]. congruence.
  - intros k p Hk Hk'. congruence.
  - by exists es.
Qed.

Lemma owns_same (w w' : world) :
  submaps w' = submaps w → heap w' = heap w → owns w → owns w'.
Proof. unfold owns, live, no_alias. by intros -> ->. Qed.

(** A member that throws has changed nothing. *)
Lemma deserialize_member_throw (name : string) (value : json)
    (l : record_locals) (e : exn) (w w' : world) :
  deserialize_member name value l w = Throw e w' → w' = w.
Proof.
  unfold deserialize_member. intros Hrun.
  case_decide as Hv.
  { unfold get_int in Hrun. unfold_M. by destruct value; simplify_eq/=. }
  case_decide as Hc.
  { destruct value as [| | | |items|]; unfold_M; try by simplify_eq/=.
    destruct items as [|[] [|[] [|[] [|]]]]; unfold_M; try by simplify_eq/=.
    unfold new_submap, delete_ptr in Hrun. simpl in Hrun.
    destruct (sm l); [case_decide|]; done. }
  unfold_M. unfold deref, assign in Hrun.
  destruct (sm l) as [a|] eqn:Hsm; [|done]. simpl in Hrun.
  destruct (heap w !! a) as [obj|] eqn:Hobj; [|done].
  destruct (submap_load _ _ _ _ _) as [err|obj']; [by simplify_eq/=|].
  by case_decide.
Qed.

(** When the member loop is left by an exception, the handle of the record
    has been destroyed: the live objects are those from before the record. *)
Lemma deserialize_members_throw (h0 : gmap addr submap)
    (members : list (string * json)) (l : record_locals) (e : exn)
    (w w' : world) :
  deserialize_members members l w = Throw e w' →
  record_inv h0 l w →
  heap w' = h0 ∧ same_but_heap w w'.
Proof.
  revert l w. induction members as [|[name value] rest IH]; intros l w.
  { simpl. unfold_M. done. }
  simpl. unfold_M. unfold try_catch.
  destruct (deserialize_member name value l w) as [l1 w1|e1 w1| |] eqn:Hm;
    try done.
  - intros Hrest Hinv.
    destruct (deserialize_member_ok h0 _ _ _ _ _ _ Hm Hinv) as [Hinv1 Hs1].
    destruct (IH _ _ Hrest Hinv1) as [Hh Hs2].
    split; [done|]. by eapply same_but_heap_trans.
  - intros Hrun Hinv.
    apply deserialize_member_throw in Hm as ->.
    unfold record_inv, delete_ptr in *.
    destruct (sm l) as [a|].
    + destruct Hinv as [Ha [obj Hh]].
      rewrite decide_True in Hrun
        by (apply elem_of_dom; rewrite Hh, lookup_insert_eq; eauto).
      simplify_eq/=. split; [|done].
      by rewrite Hh, delete_insert_eq, delete_id.
    + by simplify_eq/=.
Qed.

(** A record that throws leaves the state it found. *)
Lemma deserialize_record_throw (record : json) (e : exn) (w w' : world) :
  deserialize_record record w = Throw e w' → w' = w.
Proof.
  unfold deserialize_record.
  destruct record as [| | | | |members]; unfold_M; try by intros [= _ <-].
  destruct (deserialize_members members _ w) as [l w1|e1 w1| |] eqn:Hrun;
    try done.
  - unfold add_submap_unique, add_submap, delete_ptr. unfold_M.
    destruct (has_key _ w1); simpl; [|done].
    destruct (sm l); [case_decide|]; done.
  - intros [= <- <-].
    destruct (deserialize_members_throw (heap w) _ _ _ _ _ Hrun) as [Hh Hs];
      [done|].
    destruct Hs as (?&?&?&?). by apply world_eq.
Qed.

(** A tile, or null, entered under a new key, as the reader does it at the
    end of a record. *)
Lemma enter_tile_grows (c : tripoint) (l : record_locals) (w w' : world) :
  owns w → submaps w !! c = None →
  submaps w' = <[c:=sm l]> (submaps w) →
  record_inv (heap w) l w' →
  files w' = files w → dirs w' = dirs w → trace w' = trace w →
  owns w' ∧ load_grows w w'.
Proof.
  intros [Hlive Halias] Hc Hs Hinv Hf Hd Ht. unfold record_inv in Hinv.
  assert (∀ k p, k ≠ c → submaps w' !! k = Some (Some p) →
            submaps w !! k = Some (Some p) ∧ is_Some (heap w !! p)) as Hold.
  { intros k p Hne Hk. rewrite Hs, lookup_insert_ne in Hk by done.
    split; [done|]. by eapply live_lookup. }
  assert (∀ p, submaps w' !! c = Some (Some p) → sm l = Some p) as Hat.
  { intros p Hk. rewrite Hs, lookup_insert_eq in Hk. congruence. }
  assert (heap w ⊆ heap w') as Hsub.
  { destruct (sm l) as [a|].
    - destruct Hinv as [Ha [obj ->]]. by apply insert_subseteq.
    - by rewrite Hinv. }
  assert (∀ p, sm l = Some p → heap w !! p = None ∧ is_Some (heap w' !! p))
    as Hfresh.
  { intros p Hp. rewrite Hp in Hinv. destruct Hinv as [Ha [obj ->]].
    split; [done|]. rewrite lookup_insert_eq. eauto. }
  assert (∀ p, heap w !! p = None → is_Some (heap w' !! p) → sm l = Some p)
    as Hnew.
  { intros p Hp Hp'. destruct (sm l) as [a|].
    - destruct Hinv as [Ha [obj Hh]]. rewrite Hh in Hp'.
      destruct (decide (p = a)) as [->|Hne]; [done|].
      rewrite lookup_insert_ne in Hp' by done.
      rewrite Hp in Hp'. by destruct Hp'.
    - rewrite Hinv, Hp in Hp'. by destruct Hp'. }
  split; [split|split].
  - apply live_intro. intros k p Hk.
    destruct (decide (k = c)) as [->|Hne].
    + by apply Hfresh, Hat.
    + destruct (Hold k p Hne Hk) as [_ [obj Hobj]].
      exists obj. by eapply lookup_weaken.
  - apply no_alias_intro. intros k1 k2 p Hk1 Hk2.
    destruct (decide (k1 = c)) as [->|Hne1];
      destruct (decide (k2 = c)) as [->|Hne2]; [done| | |].
    + destruct (Hfresh p (Hat p Hk1)) as [Hp _].
      destruct (Hold k2 p Hne2 Hk2) as [_ [obj Hobj]]. congruence.
    + destruct (Hfresh p (Hat p Hk2)) as [Hp _].
      destruct (Hold k1 p Hne1 Hk1) as [_ [obj Hobj]]. congruence.
    + eapply no_alias_lookup; [done| |].
      * by apply (Hold k1 p).
      * by apply (Hold k2 p).
  - rewrite Hs. by apply insert_subseteq.
  - done.
  - done.
  - done.
  - intros p Hp Hp'. exists c. split; [done|].
    rewrite Hs, lookup_insert_eq. f_equal. by apply Hnew.
  - intros k p Hk Hk'. apply Hfresh.
    destruct (decide (k = c)) as [->|Hne]; [by apply Hat|].
    destruct (Hold k p Hne Hk') as [Hk'' _]. congruence.
  - exists []. by rewrite app_nil_r.
Qed.

(** A record that is read through: the state still owns its tiles and has
    only grown. *)
Lemma deserialize_record_grows (record : json) (w w' : world) :
  owns w → deserialize_record record w = Ok tt w' →
  owns w' ∧ load_grows w w'.
Proof.
  intros Hown. unfold deserialize_record.
  destruct record as [| | | | |members]; unfold_M; try done.
  destruct (deserialize_members members _ w) as [l w1|e1 w1| |] eqn:Hrun;
    try done.
  destruct (deserialize_members_ok (heap w) _ _ _ _ _ Hrun) as [Hinv Hsame];
    [done|].
  pose proof Hsame as (Hs & Hf & Hd & Ht).
  unfold add_submap_unique. unfold_M.
  destruct (submaps w !! submap_coordinates l) as [t|] eqn:Hc.
  - rewrite add_submap_taken by (rewrite Hs, Hc; eauto).
    set (d := EvDebugmsg _).
    rewrite (delete_record_handle l (emit d w) (emit d w1)).
    + intros [= <-]. split; [by apply (owns_same w)|by apply load_grows_emit].
    + unfold record_inv in *. by destruct (sm l).
    + unfold same_but_heap. simpl. split_and!; congruence.
  - rewrite add_submap_fresh by (by rewrite Hs).
    simpl. intros [= <-].
    apply (enter_tile_grows (submap_coordinates l) l); simpl; try done.
    by rewrite Hs.
Qed.

Lemma deserialize_records_grows (records : list json) (w w' : world) :
  owns w → ends_in (deserialize_records records w) w' →
  owns w' ∧ load_grows w w'.
Proof.
  revert w. induction records as [|record rest IH]; intros w Hown.
  { simpl. intros <-. split; [done|apply load_grows_refl]. }
  rewrite deserialize_records_cons.
  destruct (deserialize_record record w) as [[] w1|e w1| |] eqn:Hrec; try done.
  - intros Hrest.
    destruct (deserialize_record_grows _ _ _ Hown Hrec) as [Hown1 Hg1].
    destruct (IH _ Hown1 Hrest) as [Hown' Hg'].
    split; [done|]. by eapply load_grows_trans.
  - simpl. intros <-. apply deserialize_record_throw in Hrec as ->.
    split; [done|apply load_grows_refl].
Qed.

Lemma deserialize_grows (doc : json) (w w' : world) :
  owns w → ends_in (deserialize doc w) w' → owns w' ∧ load_grows w w'.
Proof.
  intros Hown. destruct doc as [| | | |records|]; simpl;
    try (intros <-; split; [done|apply load_grows_refl]).
  by apply deserialize_records_grows.
Qed.

Lemma load_grows_kept (w w' : world) (k : tripoint) (t : ptr) :
  live w → load_grows w w' → submaps w !! k = Some t →
  submaps w' !! k = Some t ∧ tile_at w' k = tile_at w k.
Proof.
  intros Hlive Hg Hk.
  assert (submaps w' !! k = Some t) as Hk'
    by (eapply lookup_weaken; [done|apply Hg]).
  split; [done|]. unfold tile_at. rewrite Hk, Hk'.
  destruct t as [p|]; [|done].
  destruct (live_lookup w k p Hlive Hk) as [obj Hobj].
  rewrite Hobj. eapply lookup_weaken; [done|apply Hg].
Qed.

Lemma load_grows_no_leak (w w' : world) (p : addr) :
  load_grows w w' → is_Some (heap w' !! p) →
  is_Some (heap w !! p) ∨ ∃ k, submaps w' !! k = Some (Some p).
Proof.
  intros Hg Hp. destruct (heap w !! p) as [obj|] eqn:Hobj; [eauto|].
  right. destruct (grows_owned _ _ Hg p Hobj Hp) as (k & _ & Hk). eauto.
Qed.

Lemma probes_read_only (c : tripoint) (w : world) :
  Forall reads_only (probes env c w).
Proof. unfold probes. destruct (files w !! _); by repeat constructor. Qed.

(** [lookup_submap] on a state that owns its tiles. *)
Lemma lookup_submap_grows (c : tripoint) (r : ptr) (w w' : world) :
  owns w → lookup_submap env c w = Ok r w' →
  owns w' ∧ load_grows w w'
  ∧ ∀ p, r = Some p → submaps w' !! c = Some (Some p).
Proof.
  intros Hown. destruct (submaps w !! c) as [t|] eqn:Hc.
  { rewrite (lookup_submap_resident c t w Hc). intros [= <- <-].
    split_and!; [done|apply load_grows_refl|by intros p ->]. }
  rewrite (lookup_submap_miss c w Hc).
  pose proof (probes_read_only c w) as Hprobes.
  destruct (quad_file env c w) as [[path doc]|].
  2:{ intros [= <- <-]. split_and!; [|by apply load_grows_emits|done].
      by apply (owns_same w). }
  set (w1 := emits _ w).
  assert (owns w1) as Hown1 by (by apply (owns_same w)).
  assert (load_grows w w1) as Hg1.
  { apply load_grows_emits, Forall_app. split; [done|].
    by apply Forall_singleton. }
  unfold read_result.
  destruct (deserialize doc w1) as [[] w2|e w2| |] eqn:Hrun; try done.
  - destruct (deserialize_grows doc w1 w2 Hown1) as [Hown2 Hg2];
      [by rewrite Hrun|].
    destruct (submaps w2 !! c) as [t|] eqn:Hc2; intros [= <- <-].
    + split_and!; [done|by eapply load_grows_trans|by intros p ->].
    + split_and!; [by apply (owns_same w2)| |done].
      eapply load_grows_trans; [done|].
      eapply load_grows_trans; [done|]. by apply load_grows_emit.
  - destruct (deserialize_grows doc w1 w2 Hown1) as [Hown2 Hg2];
      [by rewrite Hrun|].
    intros [= <- <-].
    split_and!; [by apply (owns_same w2)| |done].
    eapply load_grows_trans; [done|].
    eapply load_grows_trans; [done|]. by apply load_grows_emit.
Qed.

(** X1. Reading a chunk into a buffer that owns its tiles, whether the
    reader gets through the chunk or leaves it by an exception: the buffer
    still owns its tiles (every pointer of the index is live and entered
    once), every entry it had stays with its pointer and its tile as it was,
    every object that is live afterwards was live before or is entered in
    the index (nothing leaks, also not the half-built tile of a record that
    failed), and the disk is left alone. *)
Theorem load_keeps_ownership (doc : json) (w w' : world) :
  owns w → ends_in (deserialize doc w) w' →
  owns w'
  ∧ (∀ k t, submaps w !! k = Some t →
       submaps w' !! k = Some t ∧ tile_at w' k = tile_at w k)
  ∧ (∀ p, is_Some (heap w' !! p) →
       is_Some (heap w !! p) ∨ ∃ k, submaps w' !! k = Some (Some p))
  ∧ files w' = files w ∧ dirs w' = dirs w
  ∧ ∃ tr, trace w' = trace w ++ tr ∧ Forall reads_only tr.
Proof.
  intros Hown Hrun.
  destruct (deserialize_grows doc w w' Hown Hrun) as [Hown' Hg].
  split_and!.
  - done.
  - intros k t Hk. eapply load_grows_kept; [apply Hown|done|done].
  - intros p Hp. by eapply load_grows_no_leak.
  - apply Hg.
  - apply Hg.
  - apply Hg.
Qed.

(** X2. A chunk whose reading ends by an exception: the state at the
    exception is the state after the records in front of the failing one, or
    the state at the start when the document is not an array; these records
    stay loaded, and the failing record has left nothing behind, neither an
    entry nor a live object nor a diagnostic. *)
Theorem failed_load_keeps_earlier_records (doc : json) (e : exn)
    (w w' : world) :
  deserialize doc w = Throw e w' →
  (w' = w ∧ ∀ records, doc ≠ JArray records)
  ∨ ∃ before record after,
      doc = JArray (before ++ record :: after)
      ∧ deserialize_records before w = Ok tt w'
      ∧ deserialize_record record w' = Throw e w'.
Proof.
  destruct doc as [| | | |records|]; simpl;
    try (unfold_M; intros [= _ <-]; by left).
  intros Hrun. right. revert w Hrun.
  induction records as [|record rest IH]; intros w; [done|].
  rewrite deserialize_records_cons.
  destruct (deserialize_record record w) as [[] w1|e1 w1| |] eqn:Hrec;
    try done.
  - intros Hrest. destruct (IH _ Hrest) as (before & r & after & [= ->] & Hb & Hr).
    exists (record :: before), r, after. split_and!; [done| |done].
    by rewrite deserialize_records_cons, Hrec.
  - intros [= <- <-]. exists [], record, rest.
    pose proof (deserialize_record_throw _ _ _ _ Hrec) as ->.
    by split_and!.
Qed.

(** X3. [get(c)] on a buffer that owns its tiles: whatever it returns, the
    buffer still owns its tiles; a pointer that is not null is the entry of
    [c] in the index and points to a live tile, and a second [get(c)]
    returns it again and has no effect; no entry is evicted or changed,
    nothing leaks, and the disk is only read. *)
Theorem lookup_submap_returns_owned_tile (c : tripoint) (r : ptr)
    (w w' : world) :
  owns w → lookup_submap env c w = Ok r w' →
  owns w'
  ∧ (∀ p, r = Some p →
       submaps w' !! c = Some (Some p) ∧ is_Some (heap w' !! p)
       ∧ lookup_submap env c w' = Ok (Some p) w')
  ∧ (∀ k t, submaps w !! k = Some t →
       submaps w' !! k = Some t ∧ tile_at w' k = tile_at w k)
  ∧ (∀ p, is_Some (heap w' !! p) →
       is_Some (heap w !! p) ∨ ∃ k, submaps w' !! k = Some (Some p))
  ∧ files w' = files w ∧ dirs w' = dirs w
  ∧ ∃ tr, trace w' = trace w ++ tr ∧ Forall reads_only tr.
Proof.
  intros Hown Hrun.
  destruct (lookup_submap_grows c r w w' Hown Hrun) as (Hown' & Hg & Hr).
  split_and!.
  - done.
  - intros p Hp. pose proof (Hr p Hp) as Hc. split_and!; [done| |].
    + eapply live_lookup; [apply Hown'|done].
    + by apply lookup_submap_resident.
  - intros k t Hk. eapply load_grows_kept; [apply Hown|done|done].
  - intros p Hp. by eapply load_grows_no_leak.
  - apply Hg.
  - apply Hg.
  - apply Hg.
Qed.

(** X4. A chunk whose reading fails at a record after the record of
    [c] has been read: the failing [get(c)] reports the failure and returns
    null although the tile of [c] is in the index by then; the next [get(c)]
    returns that tile from the index, without a look at the disk. *)
Theorem tile_read_before_a_failure_is_found_later (c : tripoint)
    (path : string) (before after : list json) (bad : json) (e : exn)
    (p : addr) (w w2 w2' : world) :
  submaps w !! c = None →
  quad_file env c w = Some (path, JArray (before ++ bad :: after)) →
  deserialize_records before (emits (probes env c w ++ [EvReadFile path]) w)
  = Ok tt w2 →
  deserialize_record bad w2 = Throw e w2' →
  submaps w2 !! c = Some (Some p) →
  let w3 := emit (EvDebugmsg (if reader_absorbs env then FailedToRead path e
                              else FailedToLoad c e)) w2 in
  lookup_submap env c w = Ok nullptr w3
  ∧ lookup_submap env c w3 = Ok (Some p) w3.
Proof.
  intros Hc Hfile Hbefore Hbad Hp w3.
  pose proof (deserialize_record_throw _ _ _ _ Hbad) as ->.
  split.
  - rewrite (lookup_submap_miss c w Hc), Hfile. cbn [deserialize].
    rewrite (deserialize_records_app _ _ _ _ Hbefore).
    rewrite deserialize_records_cons, Hbad. reflexivity.
  - by apply lookup_submap_resident.
Qed.

(** X5. A record that carries no coordinates (no members at all, or
    nothing but version members) is not rejected: with the origin free, it
    enters a null tile at the origin, the value of the default-constructed
    coordinate.  From then on [get] at the origin returns null without a
    look at the disk, and an insertion at the origin is refused. *)
Theorem record_without_coordinates_takes_origin
    (pre : list (string * json)) (w : world) :
  Forall (λ m, ∃ v, m = ("version"%string, JInt v)) pre →
  submaps w !! tripoint_zero = None →
  let w' := set_submaps (insert tripoint_zero nullptr) w in
  deserialize_record (JObject pre) w = Ok tt w'
  ∧ lookup_submap env tripoint_zero w' = Ok nullptr w'
  ∧ ∀ t, add_submap tripoint_zero t w' = Ok false w'
         ∧ add_submap_unique tripoint_zero t w' = Ok (false, t) w'.
Proof.
  intros Hpre Hfree w'.
  destruct (version_members_first pre [] (RecordLocals nullptr tripoint_zero 0)
              w Hpre) as [ver Hrun].
  rewrite app_nil_r in Hrun. simpl in Hrun.
  assert (submaps w' !! tripoint_zero = Some nullptr) as Hzero
    by apply lookup_insert_eq.
  split_and!.
  - unfold deserialize_record, add_submap_unique. unfold_M. rewrite Hrun.
    simpl. by rewrite add_submap_fresh.
  - by apply lookup_submap_resident.
  - intros t. unfold add_submap_unique. unfold_M.
    by rewrite add_submap_taken by (rewrite Hzero; eauto).
Qed.

(** X6. With a chunk at the canonical path of the quad, a demand load
    reads that chunk: the one existence check it makes is for the canonical
    path, and the legacy path is neither probed nor read, whatever it
    holds. *)
Theorem canonical_chunk_is_preferred (c : tripoint) (doc : json)
    (w : world) :
  let path := chunk_path env (sm_to_omt_copy c) in
  submaps w !! c = None → files w !! path = Some doc →
  lookup_submap env c w
  = read_result env c path
      (deserialize doc (emits [EvFileExist path; EvReadFile path] w)).
Proof.
  intros path Hc Hfile. rewrite (lookup_submap_miss c w Hc).
  unfold quad_file, probes. fold (chunk_path env (sm_to_omt_copy c)).
  fold path. by rewrite Hfile.
Qed.

(** X7. A demand load brings in the whole quad.  After [save( false )]
    with map generation not disabled, for a quad of the index that holds a
    tile that is not uniform (and whose tiles the codec reads back as it
    wrote them): [get(c)] on an empty index over the same files, for any
    coordinate [c] of the quad, returns the entry [c] has afterwards, and
    afterwards every tile the quad held is resident with the payload it was
    saved with, so that a [get] for it is answered from the index. *)
Theorem demand_load_brings_whole_quad (q : tripoint) (w0 : world) :
  owns w0 → disable_mapgen env = false →
  quad_indexed w0 q → quad_uniform w0 q = false →
  (∀ a o, a ∈ quad_members q → tile_at w0 a = Some o → round_trips env a o) →
  ∃ w', save env false w0 = Ok tt w'
    ∧ ∀ wf c, submaps wf = ∅ → files wf = files w' → c ∈ quad_members q →
        ∃ r wf',
          lookup_submap env c wf = Ok r wf'
          ∧ r = default nullptr (submaps wf' !! c)
          ∧ ∀ a obj, a ∈ quad_members q → tile_at w0 a = Some obj →
              ∃ p obj', submaps wf' !! a = Some (Some p)
                        ∧ heap wf' !! p = Some obj'
                        ∧ submap_store obj' = submap_store obj
                        ∧ lookup_submap env a wf' = Ok (Some p) wf'.
Proof.
  intros Hown Hdis Hidx Hnu Hrt.
  destruct (save_returns false w0 Hown) as (w' & Hrun & Hpost).
  exists w'. split; [done|]. intros wf c Hempty Hfiles Hc.
  pose proof (member_quad q c Hc) as Hq.
  assert (submaps wf !! c = None) as Hfree by (by rewrite Hempty).
  assert (quad_file env c wf
          = Some (chunk_path env q,
                  JArray (records_of env w0 (quad_members q)))) as Hfile.
  { unfold quad_file. rewrite Hq. fold (chunk_path env q).
    rewrite Hfiles, (post_written _ _ _ _ Hpost q Hidx); [done|].
    unfold quad_written. by rewrite Hnu, Hdis. }
  rewrite (lookup_submap_miss c wf Hfree), Hfile. unfold read_result.
  cbn [deserialize].
  set (w1 := emits _ wf).
  destruct (deserialize_written_records w0 (quad_members q) w1)
    as (w2 & Hload & _ & _ & _ & _ & _ & Htiles);
    [apply quad_members_NoDup|by intros a _; simpl; rewrite Hempty|done|].
  rewrite Hload.
  destruct (submaps w2 !! c) as [t|] eqn:Ht.
  - exists t, w2. split_and!; [done|by rewrite Ht|].
    intros a obj Ha Hobj.
    destruct (Htiles a obj Ha Hobj) as (p & obj' & Hp & Hheap & Hst).
    exists p, obj'. split_and!; try done. by apply lookup_submap_resident.
  - eexists nullptr, _. split_and!; [done|by simpl; rewrite Ht|].
    intros a obj Ha Hobj.
    destruct (Htiles a obj Ha Hobj) as (p & obj' & Hp & Hheap & Hst).
    exists p, obj'. split_and!; try done. by apply lookup_submap_resident.
Qed.

(** *** The live objects across [save] *)

Lemma remove_submap_heap (a : tripoint) (w w' : world) :
  owns w → remove_submap a w = Ok tt w' →
  heap w' = match submaps w !! a with
            | Some (Some p) => delete p (heap w)
            | _ => heap w
            end.
Proof.
  intros [Hl _]. unfold remove_submap. unfold_M.
  destruct (submaps w !! a) as [[p|]|] eqn:Ha.
  - destruct (live_lookup w a p Hl Ha) as [obj Hobj].
    unfold delete_ptr. rewrite decide_True by (apply elem_of_dom; eauto).
    by intros [= <-].
  - unfold delete_ptr. by intros [= <-].
  - by intros [= <-].
Qed.

(** The second pass frees the tiles of the queued coordinates, and no other
    object. *)
Lemma remove_submaps_heap (queue : list tripoint) (w w' : world) :
  owns w → remove_submaps queue w = Ok tt w' →
  (∀ a p, a ∈ queue → submaps w !! a = Some (Some p) → heap w' !! p = None)
  ∧ (∀ p, (∀ a, a ∈ queue → submaps w !! a ≠ Some (Some p)) →
          heap w' !! p = heap w !! p).
Proof.
  revert w. induction queue as [|a queue IH]; intros w Hown.
  { simpl. unfold_M. intros [= <-]. split; [|done].
    by intros a p ?%elem_of_nil. }
  destruct (remove_submap_spec a w Hown) as (w1 & Hrun & Hown1 & Hs1 & _).
  simpl. unfold_M. rewrite Hrun. intros Hrest.
  pose proof (remove_submap_heap a w w1 Hown Hrun) as Hh1.
  destruct (IH w1 Hown1 Hrest) as [Hfreed Hother].
  assert (∀ b p, b ≠ a → submaps w !! b = Some (Some p) →
            submaps w !! a ≠ Some (Some p)) as Hdiff.
  { intros b p Hne Hb Ha. apply Hne.
    by apply (no_alias_lookup w b a p); [apply Hown|..]. }
  assert (∀ p, submaps w !! a ≠ Some (Some p) → heap w1 !! p = heap w !! p)
    as Hkeep.
  { intros p Hp. rewrite Hh1.
    destruct (submaps w !! a) as [[p'|]|]; try done.
    apply lookup_delete_ne. congruence. }
  assert (∀ p, submaps w !! a = Some (Some p) → heap w' !! p = None) as Hhead.
  { intros p Hp. rewrite Hother.
    - rewrite Hh1, Hp. apply lookup_delete_eq.
    - intros b Hb. rewrite Hs1. intros Hb1.
      apply lookup_delete_Some in Hb1 as [Hne Hb1].
      by apply (Hdiff b p). }
  split.
  - intros b p [->|Hb]%elem_of_cons Hp; [by apply Hhead|].
    destruct (decide (b = a)) as [->|Hne]; [by apply Hhead|].
    apply (Hfreed b p Hb). by rewrite Hs1, lookup_delete_ne.
  - intros p Hp. rewrite Hother.
    + apply Hkeep, Hp, list_elem_of_here.
    + intros b Hb. rewrite Hs1. intros Hb1.
      apply lookup_delete_Some in Hb1 as [Hne Hb1].
      by apply (Hp b); [apply list_elem_of_further|].
Qed.

(** [save] as its two passes: the loop over the index, which ends with the
    invariant, and the removal of the queued coordinates. *)
Lemma save_two_passes (d : bool) (w0 : world) :
  owns w0 →
  ∃ l w1 w', save env d w0 = Ok tt w'
    ∧ loop_inv env d w0 None l w1 ∧ owns w1
    ∧ remove_submaps (submaps_to_delete l) w1 = Ok tt w'
    ∧ ∀ a, a ∈ submaps_to_delete l ↔ to_be_deleted env d w0 a.
Proof.
  intros [Hl Hna]. unfold save, assure_dir_exist. unfold_M.
  set (maps := world_base_save_path env +:+ "/maps").
  set (w0' := emit (EvAssureDir maps) (set_dirs (union {[maps]}) w0)).
  change (submaps w0') with (submaps w0).
  assert (loop_inv env d w0 (map_begin (submaps w0)) (SaveLocals ∅ []) w0')
    as Hinit.
  { pose proof (loop_inv_init d w0' w0' Hl eq_refl eq_refl eq_refl eq_refl
                                eq_refl) as Hi.
    destruct Hi. constructor; try done.
    - destruct inv_trace0 as (tr & Htr & ?).
      exists ([EvAssureDir maps] ++ tr).
      split; [|done]. rewrite Htr. simpl. by rewrite <- app_assoc.
    - intros dir Hdir.
      destruct (inv_dirs0 dir Hdir) as [Hin|?]; [|by right].
      simpl in Hin. apply elem_of_union in Hin as [->%elem_of_singleton|?];
        [by right; left|by left]. }
  destruct (save_loop_spec d w0 (4 * size (submaps w0))
              (map_begin (submaps w0)) (SaveLocals ∅ []) w0' Hinit)
    as (l & w1 & Hloop & Hinv); [apply remaining_bound|].
  rewrite Hloop.
  assert (owns w1) as Hown1.
  { split; [apply (inv_live _ _ _ _ _ _ Hinv)|].
    apply no_alias_intro. intros k1 k2 p H1 H2.
    destruct (inv_index _ _ _ _ _ _ Hinv k1) as [E1|(_ & E1 & _)];
      [|congruence].
    destruct (inv_index _ _ _ _ _ _ Hinv k2) as [E2|(_ & E2 & _)];
      [|congruence].
    rewrite E1 in H1. rewrite E2 in H2.
    by apply (no_alias_lookup w0 k1 k2 p). }
  destruct (remove_submaps_spec (submaps_to_delete l) w1 Hown1)
    as (w' & Hrm & _).
  exists l, w1, w'. split_and!; try done.
  intros a. rewrite (inv_queue _ _ _ _ _ _ Hinv).
  split; [tauto|]. intros Htbd. split; [|done].
  apply (inv_behind _ _ _ _ _ _ Hinv); [|done].
  destruct Htbd as [Hr _]. unfold resident in Hr.
  rewrite (inv_key_kept d w0 None l w1 a Hinv);
    destruct (submaps w0 !! a); eauto; done.
Qed.

Lemma delete_flag_false (d : bool) (q : tripoint) :
  delete_flag env d q = false ↔ d = false ∧ in_window env q.
Proof.
  unfold delete_flag, in_window.
  rewrite !orb_false_iff, andb_false_iff, !negb_false_iff,
    !bool_decide_eq_false, bool_decide_eq_true.
  destruct (has_zlevels env); intuition (try lia; try congruence).
Qed.

(** What [save] does to the index and to the live objects, besides what
    [save_post] says. *)
Lemma save_effect (d : bool) (w0 : world) :
  owns w0 →
  ∃ w', save env d w0 = Ok tt w' ∧ save_post env d w0 w'
    ∧ (∀ k, submaps w' !! k = submaps w0 !! k
            ∨ (submaps w0 !! k = None ∧ submaps w' !! k = Some nullptr)
            ∨ (to_be_deleted env d w0 k ∧ submaps w' !! k = None))
    ∧ (∀ a p, to_be_deleted env d w0 a → submaps w0 !! a = Some (Some p) →
              heap w' !! p = None)
    ∧ (∀ p, (∀ a, to_be_deleted env d w0 a →
                  submaps w0 !! a ≠ Some (Some p)) →
            heap w' !! p = heap w0 !! p).
Proof.
  intros Hown.
  destruct (save_returns d w0 Hown) as (w' & Hsave & Hpost).
  destruct (save_two_passes d w0 Hown)
    as (l & w1 & w'' & Hsave' & Hinv & Hown1 & Hrm & Hqueue).
  assert (w'' = w') as -> by congruence.
  destruct (remove_submaps_heap _ _ _ Hown1 Hrm) as [Hfreed Hother].
  assert (∀ a, a ∈ submaps_to_delete l →
            submaps w1 !! a = submaps w0 !! a) as Hsame.
  { intros a [Hr _]%Hqueue. apply (inv_key_kept d w0 None l w1 a Hinv).
    unfold resident in Hr. destruct (submaps w0 !! a); eauto; done. }
  exists w'. split_and!; try done.
  - intros k. destruct (classic_tbd d w0 k) as [Htbd|Hkeep].
    { right; right. split; [done|]. by apply (post_deleted _ _ _ _ Hpost). }
    destruct (submaps w0 !! k) as [t|] eqn:Hk.
    { left. rewrite <- Hk. apply (post_kept _ _ _ _ Hpost); [done|].
      rewrite Hk. eauto. }
    destruct (remove_submaps_spec (submaps_to_delete l) w1 Hown1)
      as (w'' & Hrm' & _ & Hs & _).
    assert (w'' = w') as -> by congruence.
    rewrite Hs, decide_False by (by rewrite Hqueue).
    destruct (inv_index _ _ _ _ _ _ Hinv k) as [E|(_ & E & _)].
    + left. congruence.
    + right; left. done.
  - intros a p Htbd Ha. apply (Hfreed a p); [by apply Hqueue|].
    rewrite Hsame; [done|by apply Hqueue].
  - intros p Hp. rewrite <- (inv_heap _ _ _ _ _ _ Hinv). apply Hother.
    intros a Ha. rewrite (Hsame a Ha). apply Hp. by apply Hqueue.
Qed.

(** A tile that [save] does not drop is the tile it was. *)
Lemma save_effect_kept (d : bool) (w0 w' : world) (k : tripoint) :
  owns w0 → save env d w0 = Ok tt w' →
  ¬ to_be_deleted env d w0 k → tile_at w' k = tile_at w0 k.
Proof.
  intros Hown Hsave Hkeep.
  destruct (save_effect d w0 Hown)
    as (w'' & Hsave' & Hpost & Hindex & _ & Hother).
  assert (w'' = w') as -> by congruence.
  unfold tile_at.
  destruct (Hindex k) as [E|[[E0 E]|[Htbd _]]]; [|by rewrite E, E0|done].
  rewrite E. destruct (submaps w0 !! k) as [[p|]|] eqn:Hk; try done.
  apply Hother. intros a Ha Hap.
  assert (a = k) as -> by (by apply (no_alias_lookup w0 a k p); [apply Hown|..]).
  done.
Qed.

Lemma quad_not_uniform_member (w : world) (q : tripoint) :
  quad_uniform w q = false →
  ∃ a obj, a ∈ quad_members q ∧ tile_at w a = Some obj
           ∧ is_uniform obj = false.
Proof.
  unfold quad_uniform. generalize (quad_members q). intros addrs.
  induction addrs as [|a addrs IH]; [done|]. simpl.
  intros [Ha|Hrest]%andb_false_iff.
  - unfold uniform_at in Ha. destruct (tile_at w a) as [obj|] eqn:Hobj; [|done].
    exists a, obj. split_and!; [apply list_elem_of_here|done..].
  - destruct (IH Hrest) as (b & obj & Hb & Hobj & Hu).
    exists b, obj. split_and!; [by apply list_elem_of_further|done..].
Qed.

Lemma records_of_ext (w w' : world) (addrs : list tripoint) :
  (∀ a, a ∈ addrs → tile_at w' a = tile_at w a) →
  records_of env w' addrs = records_of env w addrs.
Proof.
  induction addrs as [|a addrs IH]; [done|]. intros Hsame.
  rewrite !records_of_cons, (Hsame a) by apply list_elem_of_here.
  rewrite IH; [done|]. intros b Hb. by apply Hsame, list_elem_of_further.
Qed.

Lemma records_of_length (w : world) (addrs : list tripoint) :
  live w →
  length (records_of env w addrs)
  = length (filter (λ a, resident w a) addrs).
Proof.
  intros Hl. induction addrs as [|a addrs IH]; [done|].
  rewrite records_of_cons, filter_resident_cons, !length_app, IH.
  f_equal. unfold tile_at, resident.
  destruct (submaps w !! a) as [[p|]|] eqn:Ha; try done.
  by destruct (live_lookup w a p Hl Ha) as [obj ->].
Qed.

(** The members of one quad share their fate in [save]. *)
Lemma to_be_deleted_sibling (d : bool) (w0 : world) (q a b : tripoint) :
  a ∈ quad_members q → b ∈ quad_members q →
  resident w0 a → ¬ to_be_deleted env d w0 a → ¬ to_be_deleted env d w0 b.
Proof.
  intros Ha Hb Hr Hkeep (Hrb & Hflag & Hu). apply Hkeep.
  rewrite (member_quad q b Hb) in Hflag, Hu.
  unfold to_be_deleted. by rewrite (member_quad q a Ha).
Qed.

(** X8. [save] and the live objects: the tile of every entry that is gone
    from the index afterwards has been destroyed; every entry that is still
    there holds the pointer it held, and its tile is untouched; and no
    object the index did not point to is touched. *)
Theorem save_frees_what_it_drops (d : bool) (w0 : world) :
  owns w0 →
  ∃ w', save env d w0 = Ok tt w'
    ∧ (∀ a p, submaps w0 !! a = Some (Some p) →
         (submaps w' !! a = None ∧ heap w' !! p = None)
         ∨ (submaps w' !! a = Some (Some p) ∧ heap w' !! p = heap w0 !! p))
    ∧ (∀ p, (∀ a, submaps w0 !! a ≠ Some (Some p)) →
            heap w' !! p = heap w0 !! p).
Proof.
  intros Hown.
  destruct (save_effect d w0 Hown)
    as (w' & Hsave & Hpost & Hindex & Hfreed & Hother).
  exists w'. split_and!; [done| |].
  - intros a p Ha. destruct (classic_tbd d w0 a) as [Htbd|Hkeep].
    + left. split; [by apply (post_deleted _ _ _ _ Hpost)|by eapply Hfreed].
    + right. split.
      * rewrite <- Ha. apply (post_kept _ _ _ _ Hpost); [done|].
        rewrite Ha. eauto.
      * apply Hother. intros b Hb Hbp.
        assert (b = a) as ->
          by (by apply (no_alias_lookup w0 b a p); [apply Hown|..]).
        done.
  - intros p Hp. apply Hother. intros a _. apply Hp.
Qed.

(** X9. What stays resident across [save]: a tile is resident afterwards
    exactly if it was resident before and either the call was
    [save( false )] and the quad of the tile lies in the window (on the
    level of the active map when the map has no z-levels, and from the quad
    of the map's origin up to [HALF_MAPSIZE] quads east and south of it; a
    quad west or north of the origin is outside), or map generation is
    disabled and the quad holds a tile that is not uniform, so that it was
    not written.  A tile that stays is the tile it was. *)
Theorem save_keeps_the_window (d : bool) (w0 : world) :
  owns w0 →
  ∃ w', save env d w0 = Ok tt w'
    ∧ ∀ k,
        (resident w' k ↔
           resident w0 k
           ∧ ((d = false ∧ in_window env (sm_to_omt_copy k))
              ∨ (disable_mapgen env = true
                 ∧ quad_uniform w0 (sm_to_omt_copy k) = false)))
        ∧ (resident w' k →
           submaps w' !! k = submaps w0 !! k ∧ tile_at w' k = tile_at w0 k).
Proof.
  intros Hown.
  destruct (save_effect d w0 Hown) as (w' & Hsave & Hpost & Hindex & _).
  exists w'. split; [done|]. intros k.
  assert (resident w' k → submaps w' !! k = submaps w0 !! k
                          ∧ ¬ to_be_deleted env d w0 k) as Hstay.
  { unfold resident. intros Hr.
    destruct (Hindex k) as [E|[[_ E]|[_ E]]]; [|by rewrite E in Hr..].
    split; [done|]. intros Htbd.
    by rewrite (post_deleted _ _ _ _ Hpost k Htbd) in Hr. }
  assert (¬ to_be_deleted env d w0 k ↔
          ¬ resident w0 k
          ∨ (d = false ∧ in_window env (sm_to_omt_copy k))
          ∨ (disable_mapgen env = true
             ∧ quad_uniform w0 (sm_to_omt_copy k) = false)) as Hcond.
  { rewrite <- delete_flag_false. unfold to_be_deleted.
    destruct (resident w0 k), (delete_flag env d (sm_to_omt_copy k)),
      (quad_uniform w0 (sm_to_omt_copy k)), (disable_mapgen env);
      simpl; intuition congruence. }
  split; [split|].
  - intros Hr. destruct (Hstay Hr) as [E Hkeep].
    assert (resident w0 k) as Hr0 by (unfold resident in *; by rewrite <- E).
    split; [done|]. apply Hcond in Hkeep as [?|?]; done.
  - intros [Hr0 Hwhy].
    assert (¬ to_be_deleted env d w0 k) as Hkeep by (apply Hcond; by right).
    unfold resident in *.
    rewrite (post_kept _ _ _ _ Hpost k Hkeep); [done|].
    destruct (submaps w0 !! k); eauto; done.
  - intros Hr. destruct (Hstay Hr) as [E Hkeep]. split; [done|].
    by apply (save_effect_kept d).
Qed.

(** X10. The chunks [save] writes: every file written is the chunk of a
    quad of the index that holds a tile that is not uniform; it holds one
    record for each member of the quad that holds a tile (a uniform one
    too), in the order of the members, which makes at least one record and
    at most four; and a null entry has no record. *)
Theorem written_chunk_holds_the_tiles_of_its_quad (d : bool) (w0 : world) :
  owns w0 →
  ∃ w' tr, save env d w0 = Ok tt w'
    ∧ trace w' = trace w0 ++ tr
    ∧ ∀ path, path ∈ written_files tr →
        ∃ q a obj,
          path = chunk_path env q
          ∧ a ∈ quad_members q ∧ tile_at w0 a = Some obj
          ∧ is_uniform obj = false
          ∧ files w' !! path
            = Some (JArray (records_of env w0 (quad_members q)))
          ∧ length (records_of env w0 (quad_members q))
            = length (filter (λ a, resident w0 a) (quad_members q))
          ∧ (1 ≤ length (records_of env w0 (quad_members q)) ≤ 4)%nat.
Proof.
  intros Hown.
  destruct (save_returns d w0 Hown) as (w' & Hsave & Hpost).
  destruct (post_trace _ _ _ _ Hpost) as (tr & Htr & _ & _ & Hwritten).
  exists w', tr. split_and!; [done..|].
  intros path Hpath.
  destruct (Hwritten path Hpath) as (q & Hidx & Hw & ->).
  pose proof (post_written _ _ _ _ Hpost q Hidx Hw) as Hfile.
  unfold quad_written in Hw.
  apply andb_prop_elim in Hw as [Hnu%negb_prop_elim _].
  destruct (quad_not_uniform_member w0 q) as (a & obj & Ha & Hobj & Hu);
    [by destruct (quad_uniform w0 q)|].
  pose proof (records_of_length w0 (quad_members q) (proj1 Hown)) as Hlen.
  exists q, a, obj. split_and!; try done.
  - rewrite Hlen.
    assert (a ∈ filter (λ a, resident w0 a) (quad_members q)) as Hin.
    { apply list_elem_of_filter. split; [|done].
      unfold resident, tile_at in *.
      by destruct (submaps w0 !! a) as [[p|]|]. }
    destruct (filter _ _); [by apply elem_of_nil in Hin|simpl; lia].
  - rewrite Hlen. etrans; [apply length_filter|].
    by rewrite quad_members_eq.
Qed.

(** X11. A second [save] finds nothing new to write: after a [save], a
    [save] that follows it at once (with either flag) returns and leaves
    every file with the content the first one left. *)
Theorem second_save_leaves_the_files (d d' : bool) (w0 : world) :
  owns w0 →
  ∃ w' w'', save env d w0 = Ok tt w'
    ∧ save env d' w' = Ok tt w''
    ∧ files w'' = files w'.
Proof.
  intros Hown.
  destruct (save_returns d w0 Hown) as (w' & Hsave & Hpost).
  pose proof (post_owns _ _ _ _ Hpost) as Hown'.
  destruct (save_returns d' w' Hown') as (w'' & Hsave' & Hpost').
  exists w', w''. split_and!; [done..|].
  apply map_eq. intros path.
  destruct (post_files _ _ _ _ Hpost' path) as [E|(q & Hidx & Hw & ->)];
    [done|].
  rewrite (post_written _ _ _ _ Hpost' q Hidx Hw).
  unfold quad_written in Hw.
  apply andb_prop_elim in Hw as [Hnu%negb_prop_elim Hgen%negb_prop_elim].
  destruct (quad_not_uniform_member w' q) as (a & obj & Ha & Hobj & Hu);
    [by destruct (quad_uniform w' q)|].
  assert (resident w' a) as Hr.
  { unfold resident, tile_at in *. by destruct (submaps w' !! a) as [[p|]|]. }
  assert (¬ to_be_deleted env d w0 a) as Hkeep.
  { intros Htbd. unfold resident in Hr.
    by rewrite (post_deleted _ _ _ _ Hpost a Htbd) in Hr. }
  pose proof (save_effect_kept d w0 w' a Hown Hsave Hkeep) as Hsame.
  assert (resident w0 a) as Hr0.
  { unfold resident, tile_at in *. rewrite Hobj in Hsame.
    by destruct (submaps w0 !! a) as [[p|]|]. }
  assert (records_of env w' (quad_members q)
          = records_of env w0 (quad_members q)) as ->.
  { apply records_of_ext. intros b Hb. apply (save_effect_kept d); [done..|].
    by apply (to_be_deleted_sibling d w0 q a b). }
  symmetry. apply (post_written _ _ _ _ Hpost).
  - exists a. split; [|by apply member_quad].
    unfold resident in Hr0. destruct (submaps w0 !! a); eauto; done.
  - rewrite <- (member_quad q a Ha).
    rewrite (quad_with_plain_tile_written w0 a obj); [done|congruence|done|].
    by destruct (disable_mapgen env).
Qed.

(** X12. With map generation disabled, [save] writes nothing: no file is
    written or changed, and no directory is made but the maps directory of
    the world. *)
Theorem save_without_mapgen_writes_nothing (d : bool) (w0 : world) :
  owns w0 → disable_mapgen env = true →
  ∃ w' tr, save env d w0 = Ok tt w'
    ∧ files w' = files w0
    ∧ trace w' = trace w0 ++ tr ∧ written_files tr = []
    ∧ ∀ dir, dir ∈ dirs w' → dir ∈ dirs w0 ∨ dir = maps_dir env.
Proof.
  intros Hown Hdis.
  destruct (save_returns d w0 Hown) as (w' & Hsave & Hpost).
  destruct (post_trace _ _ _ _ Hpost) as (tr & Htr & _ & _ & Hwritten).
  assert (∀ q, ¬ quad_written env w0 q) as Hnone.
  { intros q. unfold quad_written. rewrite Hdis, andb_false_r. by intros []. }
  exists w', tr. split_and!; try done.
  - apply map_eq. intros path.
    destruct (post_files _ _ _ _ Hpost path) as [E|(q & _ & Hw & _)];
      [done|by destruct (Hnone q)].
  - destruct (written_files tr) as [|path rest] eqn:Hpaths; [done|].
    destruct (Hwritten path) as (q & _ & Hw & _);
      [apply list_elem_of_here|by destruct (Hnone q)].
  - intros dir Hdir.
    destruct (post_dirs _ _ _ _ Hpost dir Hdir)
      as [?|[?|(q & _ & Hw & _)]]; [by left|by right|by destruct (Hnone q)].
Qed.

(** *** The layout of the save directory *)

Lemma occurs_app (c : ascii) (s t : string) :
  occurs c (s +:+ t) = occurs c s || occurs c t.
Proof.
  induction s as [|a s IH]; [done|].
  rewrite append_cons. simpl. by rewrite IH, orb_assoc.
Qed.

(** X13. The layout [find_dirname] and [find_quad_path] give the save
    directory: two quads have the same chunk path only if they are the same
    quad; they have the same directory exactly if they lie in the same
    segment; and every chunk file lies in a directory that lies in the maps
    directory of the world, with no further separator in either name. *)
Theorem chunk_paths_tell_quads_apart (q q' : tripoint) :
  (chunk_path env q = chunk_path env q' ↔ q = q')
  ∧ (find_dirname env q = find_dirname env q'
     ↔ omt_to_seg_copy q = omt_to_seg_copy q')
  ∧ ∃ segment name,
      find_dirname env q = maps_dir env +:+ "/" +:+ segment
      ∧ chunk_path env q = maps_dir env +:+ "/" +:+ segment +:+ "/" +:+ name
      ∧ occurs "/" segment = false ∧ occurs "/" name = false.
Proof.
  split_and!.
  - split; [apply chunk_path_inj|by intros ->].
  - split; [|unfold find_dirname; by intros ->].
    unfold find_dirname. intros Heq.
    apply (inj (String.append _)) in Heq.
    apply (inj (String.append "/maps/")) in Heq.
    apply split_at_separator in Heq as [Hx Heq]; try apply no_dot_in_pretty.
    apply split_at_separator in Heq as [Hy Hz]; try apply no_dot_in_pretty.
    apply (inj pretty) in Hx, Hy, Hz.
    destruct (omt_to_seg_copy q), (omt_to_seg_copy q'). simpl in *.
    by subst.
  - set (s := omt_to_seg_copy q).
    exists (pretty (tx s) +:+ "." +:+ pretty (ty s) +:+ "." +:+ pretty (tz s)),
           (pretty (tx q) +:+ "." +:+ pretty (ty q) +:+ "." +:+ pretty (tz q)
            +:+ ".map").
    split_and!.
    + unfold find_dirname, maps_dir. fold s. by rewrite !append_assoc.
    + unfold chunk_path, find_quad_path, find_dirname, maps_dir. fold s.
      by rewrite !append_assoc.
    + by rewrite !occurs_app, !no_slash_in_pretty.
    + by rewrite !occurs_app, !no_slash_in_pretty.
Qed.

(** *** Removal and [reset] *)

(** The deletions of [reset], over any list of pointers whose non-null
    members are live and distinct. *)
Lemma delete_all_spec (ps : list ptr) (w : world) :
  (∀ p, Some p ∈ ps → is_Some (heap w !! p)) →
  NoDup (omap id ps) →
  ∃ w', foldr (λ sm k, delete_ptr sm;; k) (modify (set_submaps (λ _, ∅))) ps w
        = Ok tt w'
        ∧ submaps w' = ∅
        ∧ (∀ p, Some p ∈ ps → heap w' !! p = None)
        ∧ (∀ p, Some p ∉ ps → heap w' !! p = heap w !! p)
        ∧ files w' = files w ∧ dirs w' = dirs w ∧ trace w' = trace w.
Proof.
  revert w. induction ps as [|sm ps IH]; intros w Hlive Hnd.
  { eexists. split; [done|]. simpl. split_and!; try done.
    by intros p ?%elem_of_nil. }
  simpl. unfold_M. destruct sm as [a|]; simpl in *.
  - apply NoDup_cons in Hnd as [Ha Hnd].
    assert (Some a ∉ ps) as Ha'.
    { intros Hin. apply Ha. apply list_elem_of_omap. by exists (Some a). }
    rewrite decide_True by (apply elem_of_dom, Hlive, list_elem_of_here).
    destruct (IH (set_heap (delete a) w))
      as (w' & Hrun & Hs & Hfreed & Hother & Hf & Hd & Ht); [|done|].
    { intros p Hp. simpl. rewrite lookup_delete_ne by (by intros ->).
      by apply Hlive, list_elem_of_further. }
    exists w'. split_and!; try done.
    + intros p [[= ->]|Hp]%elem_of_cons; [|by apply Hfreed].
      rewrite (Hother a Ha'). simpl. apply lookup_delete_eq.
    + intros p Hp. apply not_elem_of_cons in Hp as [Hne Hp].
      rewrite (Hother p Hp). simpl. apply lookup_delete_ne. congruence.
  - destruct (IH w) as (w' & Hrun & Hs & Hfreed & Hother & Hf & Hd & Ht);
      [|done|].
    { intros p Hp. by apply Hlive, list_elem_of_further. }
    exists w'. split_and!; try done.
    + intros p [[=]|Hp]%elem_of_cons. by apply Hfreed.
    + intros p Hp. apply not_elem_of_cons in Hp as [_ Hp]. by apply Hother.
Qed.

Lemma NoDup_omap {A B} (f : A → option B) (l : list A) :
  NoDup l →
  (∀ x y b, x ∈ l → y ∈ l → f x = Some b → f y = Some b → x = y) →
  NoDup (omap f l).
Proof.
  induction 1 as [|x l Hx Hnd IH]; intros Hinj; [constructor|].
  simpl. assert (NoDup (omap f l)) as Hrest.
  { apply IH. intros y z b Hy Hz. apply Hinj; by apply list_elem_of_further. }
  destruct (f x) as [b|] eqn:Hb; [|done].
  apply NoDup_cons. split; [|done].
  intros (y & Hy & Hby)%list_elem_of_omap. apply Hx.
  rewrite (Hinj x y b); [done|apply list_elem_of_here|
                         by apply list_elem_of_further|done..].
Qed.

(** Once an object is gone, a later deletion of it is undefined, whatever
    is deleted in between. *)
Lemma delete_all_dangling (k0 : M submap unit) (p : addr) (ps : list ptr)
    (w : world) :
  heap w !! p = None → Some p ∈ ps →
  foldr (λ sm k, delete_ptr sm;; k) k0 ps w = Undefined.
Proof.
  revert w. induction ps as [|sm ps IH]; intros w Hp Hin;
    [by apply elem_of_nil in Hin|].
  simpl. unfold_M. unfold delete_ptr.
  destruct sm as [a|].
  - case_decide as Ha; [|done].
    destruct (decide (a = p)) as [->|Hne].
    { apply elem_of_dom in Ha. rewrite Hp in Ha. by destruct Ha. }
    apply IH.
    + simpl. by rewrite lookup_delete_ne.
    + apply elem_of_cons in Hin as [[= ->]|?]; done.
  - apply IH; [done|]. by apply elem_of_cons in Hin as [[=]|?].
Qed.

Lemma delete_all_twice (k0 : M submap unit) (p : addr) (l1 l2 : list ptr)
    (w : world) :
  Some p ∈ l1 ∨ Some p ∈ l2 →
  foldr (λ sm k, delete_ptr sm;; k) k0 (l1 ++ Some p :: l2) w = Undefined.
Proof.
  revert w. induction l1 as [|sm l1 IH]; intros w Hin.
  { destruct Hin as [Hin|Hin]; [by apply elem_of_nil in Hin|].
    simpl. unfold_M. unfold delete_ptr. case_decide; [|done].
    apply (delete_all_dangling k0 p l2); [apply lookup_delete_eq|done]. }
  simpl. unfold_M. unfold delete_ptr.
  destruct sm as [a|].
  - case_decide as Ha; [|done].
    destruct (decide (a = p)) as [->|Hne].
    + apply (delete_all_dangling k0 p (l1 ++ Some p :: l2));
        [apply lookup_delete_eq|].
      apply elem_of_app. right. apply list_elem_of_here.
    + apply IH. destruct Hin as [[[= ->]|?]%elem_of_cons|?]; [done|by left|by right].
  - apply IH. destruct Hin as [[[=]|?]%elem_of_cons|?]; [by left|by right].
Qed.

Lemma elem_of_index_pointers (w : world) (t : ptr) :
  t ∈ (map_to_list (submaps w)).*2 ↔ ∃ k, submaps w !! k = Some t.
Proof.
  rewrite list_elem_of_fmap. split.
  - intros ([k t'] & -> & Hin). exists k. by apply elem_of_map_to_list.
  - intros [k Hk]. exists (k, t). split; [done|]. by apply elem_of_map_to_list.
Qed.

(** X14. [reset] (and with it the destructor) on a buffer that owns its
    tiles returns and leaves an empty index; the tile of every entry has
    been destroyed, and nothing else is touched: not an object the index
    did not point to, not the disk, and nothing is logged. *)
Theorem reset_frees_every_tile (w : world) :
  owns w →
  ∃ w', reset w = Ok tt w'
    ∧ submaps w' = ∅
    ∧ (∀ k p, submaps w !! k = Some (Some p) → heap w' !! p = None)
    ∧ (∀ p, (∀ k, submaps w !! k ≠ Some (Some p)) →
            heap w' !! p = heap w !! p)
    ∧ files w' = files w ∧ dirs w' = dirs w ∧ trace w' = trace w.
Proof.
  intros [Hl Hna]. unfold reset. unfold_M.
  destruct (delete_all_spec ((map_to_list (submaps w)).*2) w)
    as (w' & Hrun & Hs & Hfreed & Hother & Hf & Hd & Ht).
  - intros p [k Hk]%elem_of_index_pointers. by eapply live_lookup.
  - match goal with
    | |- NoDup ?ps =>
        assert (ps = omap snd (map_to_list (submaps w))) as ->
    end.
    { generalize (map_to_list (submaps w)). intros l.
      induction l as [|[k t] l IH]; [done|].
      destruct t; simpl; [f_equal|]; exact IH. }
    apply NoDup_omap; [apply NoDup_map_to_list|].
    intros [k1 t1] [k2 t2] p H1%elem_of_map_to_list H2%elem_of_map_to_list.
    simpl. intros -> ->.
    by rewrite (no_alias_lookup w k1 k2 p).
  - exists w'. split_and!; try done.
    + intros k p Hk. apply Hfreed, elem_of_index_pointers. eauto.
    + intros p Hp. apply Hother. intros [k Hk]%elem_of_index_pointers.
      by apply (Hp k).
Qed.

(** X15. The insertion does not look for the tile in the index: a tile
    that is already entered under one coordinate is accepted under another
    free one.  From then on the buffer cannot be torn down: [reset] frees
    the tile twice, and so does the removal of both coordinates, which is
    undefined. *)
Theorem aliased_tile_is_freed_twice (k1 k2 : tripoint) (p : addr)
    (w : world) :
  submaps w !! k1 = Some (Some p) → submaps w !! k2 = None →
  ∃ w', add_submap k2 (Some p) w = Ok true w'
    ∧ submaps w' !! k1 = Some (Some p) ∧ submaps w' !! k2 = Some (Some p)
    ∧ reset w' = Undefined
    ∧ (remove_submap k1;; remove_submap k2) w' = Undefined.
Proof.
  intros H1 H2. rewrite (add_submap_fresh k2 (Some p) w H2).
  eexists. split; [done|].
  assert (k1 ≠ k2) as Hne by congruence.
  set (w' := set_submaps (insert k2 (Some p)) w).
  assert (submaps w' !! k1 = Some (Some p)) as H1'
    by (by simpl; rewrite lookup_insert_ne).
  assert (submaps w' !! k2 = Some (Some p)) as H2'
    by (simpl; apply lookup_insert_eq).
  split_and!; [done..| |].
  - unfold reset. unfold_M.
    pose proof (proj2 (elem_of_map_to_list (submaps w') k1 _) H1') as Hin1.
    pose proof (proj2 (elem_of_map_to_list (submaps w') k2 _) H2') as Hin2.
    apply list_elem_of_split in Hin1 as (l1 & l2 & Hl).
    rewrite Hl in Hin2 |- *.
    rewrite fmap_app, fmap_cons. cbn [snd].
    apply (delete_all_twice _ p (l1.*2) (l2.*2)).
    apply elem_of_app in Hin2 as [Hin|[[=]|Hin]%elem_of_cons]; [left|done|right];
      apply list_elem_of_fmap; by exists (k2, Some p).
  - unfold remove_submap. unfold_M. rewrite H1'. unfold delete_ptr.
    case_decide; [|done]. simpl.
    rewrite lookup_delete_ne, lookup_insert_eq by done.
    rewrite decide_False; [done|].
    simpl. rewrite not_elem_of_dom. apply lookup_delete_eq.
Qed.

(** X16. The insertion through an owning handle, of a live tile that is
    not in the index yet, into a buffer that owns its tiles: it succeeds
    exactly if the coordinate is free; then the handle is empty and the
    tile is the entry of the coordinate; otherwise the handle still holds
    the tile and nothing has changed.  Either way the buffer still owns its
    tiles and no object has been created or destroyed. *)
Theorem insert_hands_the_tile_over (c : tripoint) (p : addr) (w : world) :
  owns w → is_Some (heap w !! p) →
  (∀ k, submaps w !! k ≠ Some (Some p)) →
  ∃ r h w', add_submap_unique c (Some p) w = Ok (r, h) w'
    ∧ owns w' ∧ heap w' = heap w
    ∧ (r = true ↔ submaps w !! c = None)
    ∧ (r = true → h = nullptr ∧ submaps w' = <[c:=Some p]> (submaps w))
    ∧ (r = false → h = Some p ∧ w' = w).
Proof.
  intros Hown Hp Hnew. unfold add_submap_unique. unfold_M.
  destruct (submaps w !! c) as [t|] eqn:Hc.
  - rewrite add_submap_taken by (rewrite Hc; eauto).
    exists false, (Some p), w. by split_and!.
  - rewrite (add_submap_fresh c (Some p) w Hc).
    eexists true, nullptr, _. split; [done|]. simpl.
    split_and!; try done.
    destruct Hown as [Hl Hna]. split.
    + apply live_intro. simpl. intros k p' Hk.
      destruct (decide (k = c)) as [->|Hne].
      * rewrite lookup_insert_eq in Hk. congruence.
      * rewrite lookup_insert_ne in Hk by done. by eapply live_lookup.
    + apply no_alias_intro. simpl. intros a b p' Ha Hb.
      destruct (decide (a = c)) as [->|Hnea];
        destruct (decide (b = c)) as [->|Hneb]; [done|..].
      * rewrite lookup_insert_eq in Ha. rewrite lookup_insert_ne in Hb by done.
        destruct (Hnew b). congruence.
      * rewrite lookup_insert_eq in Hb. rewrite lookup_insert_ne in Ha by done.
        destruct (Hnew a). congruence.
      * rewrite lookup_insert_ne in Ha, Hb by done.
        by apply (no_alias_lookup w a b p').
Qed.

(** X17. The removal of a coordinate that is in the index, from a
    buffer that owns its tiles: the entry is gone and its tile destroyed,
    the buffer still owns its tiles, every other entry holds the tile it
    held, and nothing is logged.  A second removal of the coordinate only
    logs that there is no such submap. *)
Theorem remove_submap_destroys_the_tile (c : tripoint) (t : ptr)
    (w : world) :
  owns w → submaps w !! c = Some t →
  ∃ w1, remove_submap c w = Ok tt w1
    ∧ owns w1
    ∧ submaps w1 = delete c (submaps w)
    ∧ heap w1 = (if t is Some p then delete p (heap w) else heap w)
    ∧ (∀ k, k ≠ c → tile_at w1 k = tile_at w k)
    ∧ files w1 = files w ∧ dirs w1 = dirs w ∧ trace w1 = trace w
    ∧ remove_submap c w1
      = Ok tt (emit (EvDebugmsg (RemoveNonExisting c)) w1).
Proof.
  intros Hown Hc.
  destruct (remove_submap_spec c w Hown) as (w1 & Hrun & Hown1 & Hs & Hf & Hd & _).
  pose proof (remove_submap_heap c w w1 Hown Hrun) as Hh. rewrite Hc in Hh.
  exists w1. split_and!; try done.
  - intros k Hne. unfold tile_at. rewrite Hs, lookup_delete_ne by done.
    destruct (submaps w !! k) as [[p|]|] eqn:Hk; try done.
    rewrite Hh. destruct t as [p'|]; [|done].
    apply lookup_delete_ne. intros ->. apply Hne.
    by apply (no_alias_lookup w k c p); [apply Hown|..].
  - revert Hrun. unfold remove_submap. unfold_M. rewrite Hc.
    unfold delete_ptr. destruct t as [p|]; [case_decide|];
      by intros [= <-].
  - unfold remove_submap. unfold_M. by rewrite Hs, lookup_delete_eq.
Qed.

(** X18. [save] on a buffer with an empty index makes sure of the maps
    directory of the world, and does nothing else. *)
Theorem save_of_an_empty_buffer (d : bool) (w : world) :
  submaps w = ∅ →
  save env d w
  = Ok tt (emit (EvAssureDir (maps_dir env))
                (set_dirs (union {[maps_dir env]}) w)).
Proof.
  intros Hempty. unfold save, assure_dir_exist. unfold_M. simpl.
  rewrite Hempty. unfold map_begin. rewrite dom_empty_L, elements_empty.
  reflexivity.
Qed.

(** *** Chunks whose records have their coordinates first *)

Lemma deserialize_member_safe (name : string) (value : json)
    (l : record_locals) (w : world) :
  handle_live l w →
  (sm l = None → name = "version"%string ∨ name = "coordinates"%string) →
  match deserialize_member name value l w with
  | Ok l' w' =>
      handle_live l' w'
      ∧ (sm l' = None → sm l = None ∧ name = "version"%string)
  | Throw _ _ => True
  | _ => False
  end.
Proof.
  unfold deserialize_member, handle_live. intros Hlive Hphase.
  case_decide as Hv.
  { unfold get_int. unfold_M. by destruct value. }
  case_decide as Hc.
  { destruct value as [| | | |items|]; try done.
    destruct items as [|[] [|[] [|[] [|]]]]; try done.
    unfold_M. unfold new_submap, delete_ptr. simpl.
    destruct (sm l) as [a0|] eqn:Hsm.
    - assert (fresh (dom (heap w)) ≠ a0) as Hne.
      { intros Heq. pose proof (is_fresh (dom (heap w))) as Hf.
        rewrite Heq in Hf. by apply Hf, elem_of_dom. }
      rewrite decide_True.
      2:{ apply elem_of_dom. by rewrite lookup_insert_ne. }
      simpl. split; [|done].
      rewrite lookup_delete_ne, lookup_insert_eq by done. eauto.
    - simpl. split; [|done]. rewrite lookup_insert_eq. eauto. }
  destruct (sm l) as [a|] eqn:Hsm.
  2:{ destruct Hphase; done. }
  unfold_M. unfold deref, assign. simpl.
  destruct Hlive as [obj Hobj]. rewrite Hobj.
  destruct (submap_load _ _ _ _ _) as [err|obj']; [done|].
  rewrite decide_True by (apply elem_of_dom; eauto).
  simpl. rewrite Hsm. split; [|done]. rewrite lookup_insert_eq. eauto.
Qed.

Lemma deserialize_members_safe (members : list (string * json))
    (l : record_locals) (w : world) :
  handle_live l w → (sm l = None → coordinates_first members) →
  match deserialize_members members l w with
  | Ok l' w' => handle_live l' w'
  | Throw _ _ => True
  | _ => False
  end.
Proof.
  revert l w. induction members as [|[name value] rest IH];
    intros l w Hlive Hphase; [done|].
  simpl. unfold_M. unfold try_catch.
  pose proof (deserialize_member_safe name value l w Hlive) as Hm.
  destruct (deserialize_member name value l w) as [l1 w1|e w1| |] eqn:Hrun.
  - destruct Hm as [Hlive1 Hback].
    + intros Hsm. specialize (Hphase Hsm). simpl in Hphase.
      case_decide; [by left|]. right. by apply bool_decide_unpack in Hphase.
    + apply IH; [done|]. intros Hsm1.
      destruct (Hback Hsm1) as [Hsm ->]. specialize (Hphase Hsm).
      simpl in Hphase.
      first [exact Hphase | by rewrite decide_True in Hphase].
  - apply deserialize_member_throw in Hrun as ->.
    unfold handle_live, delete_ptr in *.
    destruct (sm l) as [a|]; [|done].
    by rewrite decide_True by (by apply elem_of_dom).
  - apply Hm. intros Hsm. specialize (Hphase Hsm). simpl in Hphase.
    case_decide; [by left|]. right. by apply bool_decide_unpack in Hphase.
  - apply Hm. intros Hsm. specialize (Hphase Hsm). simpl in Hphase.
    case_decide; [by left|]. right. by apply bool_decide_unpack in Hphase.
Qed.

Lemma deserialize_record_safe (record : json) (w : world) :
  record_in_order record → returns_or_throws (deserialize_record record w).
Proof.
  unfold deserialize_record. destruct record as [| | | | |members]; try done.
  simpl. intros Horder. unfold_M.
  pose proof (deserialize_members_safe members
                (RecordLocals nullptr tripoint_zero 0) w I (λ _, Horder)) as Hm.
  destruct (deserialize_members members _ w) as [l w1|e w1| |]; try done.
  unfold add_submap_unique, add_submap, delete_ptr. unfold_M.
  destruct (has_key _ w1); simpl; [|done].
  unfold handle_live in Hm. destruct (sm l) as [a|]; [|done].
  by rewrite decide_True by (by apply elem_of_dom).
Qed.

Lemma deserialize_safe (doc : json) (w : world) :
  chunk_in_order doc → returns_or_throws (deserialize doc w).
Proof.
  destruct doc as [| | | |records|]; try done.
  cbn [deserialize chunk_in_order].
  revert w. induction records as [|record rest IH]; intros w; [done|].
  cbn [forallb]. intros [Hrec Hrest]%andb_prop_elim.
  rewrite deserialize_records_cons.
  pose proof (deserialize_record_safe record w Hrec) as Hr.
  destruct (deserialize_record record w) as [[] w1|e w1| |]; try done.
  by apply IH.
Qed.

Lemma records_of_in_order (w : world) (addrs : list tripoint) :
  forallb record_in_order (records_of env w addrs) = true.
Proof.
  induction addrs as [|a addrs IH]; [done|].
  rewrite records_of_cons. destruct (tile_at w a); [|done].
  simpl. by rewrite IH.
Qed.

(** [get] for a coordinate that is not in the index, from a chunk in
    order. *)
Lemma lookup_in_order_returns (c : tripoint) (path : string) (doc : json)
    (w : world) :
  submaps w !! c = None → quad_file env c w = Some (path, doc) →
  chunk_in_order doc → ∃ r w', lookup_submap env c w = Ok r w'.
Proof.
  intros Hc Hfile Horder. rewrite (lookup_submap_miss c w Hc), Hfile.
  unfold read_result.
  pose proof (deserialize_safe doc
                (emits (probes env c w ++ [EvReadFile path]) w) Horder) as Hs.
  destruct (deserialize doc _) as [[] w2|e w2| |]; try done; [|eauto].
  destruct (submaps w2 !! c); eauto.
Qed.

(** X19. A chunk in which every record has its coordinates before any
    payload member (after version members only) is read without undefined
    behaviour, whatever the tile codec does with the payload: the reader
    returns or throws, from any state, and a [get] that reads the chunk
    returns. *)
Theorem chunk_in_order_is_read_safely (c : tripoint) (path : string)
    (doc : json) (w : world) :
  chunk_in_order doc →
  submaps w !! c = None → quad_file env c w = Some (path, doc) →
  (∀ w1, returns_or_throws (deserialize doc w1))
  ∧ ∃ r w', lookup_submap env c w = Ok r w'
            ∧ (r = nullptr ∨ submaps w' !! c = Some r).
Proof.
  intros Horder Hc Hfile. split; [intros w1; by apply deserialize_safe|].
  rewrite (lookup_submap_miss c w Hc), Hfile.
  unfold read_result.
  pose proof (deserialize_safe doc
                (emits (probes env c w ++ [EvReadFile path]) w) Horder) as Hs.
  destruct (deserialize doc _) as [[] w2|e w2| |]; try done.
  - destruct (submaps w2 !! c) as [t|] eqn:Ht.
    + exists t, w2. split; [done|by right].
    + eexists nullptr, _. split; [done|by left].
  - eexists nullptr, _. split; [done|by left].
Qed.

(** X20. Every chunk [save] writes has its records in the order the
    reader relies on, so that a [get] that reads such a chunk back returns,
    whatever the tile codec wrote and however it fares on reading it. *)
Theorem saved_chunks_are_read_safely (d : bool) (w0 : world) :
  owns w0 →
  ∃ w' tr, save env d w0 = Ok tt w'
    ∧ trace w' = trace w0 ++ tr
    ∧ (∀ path, path ∈ written_files tr →
         ∃ doc, files w' !! path = Some doc ∧ chunk_in_order doc)
    ∧ ∀ wf c, submaps wf !! c = None → files wf = files w' →
        chunk_path env (sm_to_omt_copy c) ∈ written_files tr →
        ∃ r wf', lookup_submap env c wf = Ok r wf'.
Proof.
  intros Hown.
  destruct (save_returns d w0 Hown) as (w' & Hsave & Hpost).
  destruct (post_trace _ _ _ _ Hpost) as (tr & Htr & _ & _ & Hwritten).
  assert (∀ path, path ∈ written_files tr →
            ∃ doc, files w' !! path = Some doc ∧ chunk_in_order doc) as Hdocs.
  { intros path Hpath.
    destruct (Hwritten path Hpath) as (q & Hidx & Hw & ->).
    eexists. split; [by apply (post_written _ _ _ _ Hpost)|].
    unfold chunk_in_order. by rewrite records_of_in_order. }
  exists w', tr. split_and!; [done..|].
  intros wf c Hc Hfiles Hpath.
  destruct (Hdocs _ Hpath) as (doc & Hdoc & Horder).
  apply (lookup_in_order_returns c (chunk_path env (sm_to_omt_copy c)) doc);
    [done| |done].
  unfold quad_file. fold (chunk_path env (sm_to_omt_copy c)).
  by rewrite Hfiles, Hdoc.
Qed.

(** *** Eviction and reload *)

(** The records of the tiles of [w0] among [addrs], read into an index in
    which the coordinates of these tiles are free. *)
Lemma deserialize_evicted_records (w0 : world) (addrs : list tripoint)
    (w : world) :
  NoDup addrs →
  (∀ a obj, a ∈ addrs → tile_at w0 a = Some obj → submaps w !! a = None) →
  (∀ a obj, a ∈ addrs → tile_at w0 a = Some obj → round_trips env a obj) →
  ∃ w', deserialize_records (records_of env w0 addrs) w = Ok tt w'
        ∧ files w' = files w ∧ trace w' = trace w
        ∧ heap w ⊆ heap w'
        ∧ (∀ k, k ∉ addrs → submaps w' !! k = submaps w !! k)
        ∧ ∀ a obj, a ∈ addrs → tile_at w0 a = Some obj →
            ∃ p obj', submaps w' !! a = Some (Some p)
                      ∧ heap w' !! p = Some obj'
                      ∧ submap_store obj' = submap_store obj.
Proof.
  revert w. induction addrs as [|a addrs IH]; intros w Hnd Hfree Hrt.
  { exists w. split_and!; try done. by intros a obj ?%elem_of_nil. }
  apply NoDup_cons in Hnd as [Ha Hnd]. rewrite records_of_cons.
  destruct (tile_at w0 a) as [obj|] eqn:Hobj.
  - destruct (Hrt a obj) as (Hnames & obj' & Hload & Hstore);
      [apply list_elem_of_here|done|].
    cbn [app]. rewrite deserialize_records_cons.
    rewrite (deserialize_chunk_record a obj obj') by
      (try done; by apply (Hfree a obj); [apply list_elem_of_here|]).
    set (p := fresh (dom (heap w))).
    destruct (IH (insert_tile a obj' w)) as
      (w' & Hrun & Hf & Ht & Hh & Hother & Htiles); [done| |..].
    { intros a' o Ha' Ho. simpl. rewrite lookup_insert_ne by (by intros ->).
      by apply (Hfree a' o); [apply list_elem_of_further|]. }
    { intros a' o Ha' Ho. apply Hrt; [by apply list_elem_of_further|done]. }
    exists w'. split_and!; try done.
    + etrans; [|done]. simpl. apply insert_subseteq, fresh_heap_None.
    + intros k Hk. apply not_elem_of_cons in Hk as [Hne Hk].
      rewrite (Hother k Hk). simpl. by rewrite lookup_insert_ne.
    + intros a' o [->|Ha']%elem_of_cons Ho; [|by apply Htiles].
      exists p, obj'. rewrite (Hother a Ha). simpl.
      rewrite lookup_insert_eq. split_and!; [done| |congruence].
      eapply lookup_weaken; [|done]. simpl. apply lookup_insert_eq.
  - cbn [app].
    destruct (IH w) as (w' & Hrun & Hf & Ht & Hh & Hother & Htiles);
      [done| |..].
    { intros a' o Ha' Ho. by apply (Hfree a' o); [apply list_elem_of_further|]. }
    { intros a' o Ha' Ho. apply Hrt; [by apply list_elem_of_further|done]. }
    exists w'. split_and!; try done.
    + intros k Hk. apply not_elem_of_cons in Hk as [Hne Hk]. by apply Hother.
    + intros a' o [->|Ha']%elem_of_cons Ho; [congruence|by apply Htiles].
Qed.

(** X21. Eviction and reload in one buffer.  After [save( true )] with
    map generation not disabled, the tiles of a quad that holds a tile that
    is not uniform are gone from the index; a [get] for the coordinate of
    any of them then reads the chunk just written and returns a tile at
    that coordinate with the payload the evicted tile was saved with (the
    codec reading back what it wrote), and the other tiles of the quad are
    resident again as well.  The null entries [save] left at the empty
    coordinates of the quad do not get in the way. *)
Theorem evicted_tile_is_read_back (c : tripoint) (obj : submap)
    (w0 : world) :
  let q := sm_to_omt_copy c in
  owns w0 → disable_mapgen env = false →
  tile_at w0 c = Some obj → quad_uniform w0 q = false →
  (∀ a o, a ∈ quad_members q → tile_at w0 a = Some o → round_trips env a o) →
  ∃ w', save env true w0 = Ok tt w'
    ∧ (∀ a, a ∈ quad_members q → resident w' a = false)
    ∧ ∃ p w'',
        lookup_submap env c w' = Ok (Some p) w''
        ∧ trace w'' = trace w' ++ [EvFileExist (chunk_path env q);
                                   EvReadFile (chunk_path env q)]
        ∧ ∀ a o, a ∈ quad_members q → tile_at w0 a = Some o →
            ∃ o', tile_at w'' a = Some o'
                  ∧ submap_store o' = submap_store o.
Proof.
  intros q Hown Hdis Hobj Hnu Hrt.
  destruct (save_returns true w0 Hown) as (w' & Hsave & Hpost).
  exists w'. split; [done|].
  assert (∀ a o, a ∈ quad_members q → tile_at w0 a = Some o →
            submaps w' !! a = None) as Hgone.
  { intros a o Ha Ho. apply (post_deleted _ _ _ _ Hpost).
    apply (member_to_be_deleted true w0 q a); [done| |done|by right].
    unfold resident, tile_at in *. by destruct (submaps w0 !! a) as [[?|]|]. }
  assert (∀ a, a ∈ quad_members q → resident w' a = false) as Hout.
  { intros a Ha. destruct (resident w' a) eqn:Hr; [|done].
    destruct (classic_tbd true w0 a) as [Htbd|Hkeep].
    { unfold resident in Hr.
      by rewrite (post_deleted _ _ _ _ Hpost a Htbd) in Hr. }
    destruct (submaps w0 !! a) as [t|] eqn:Ha0.
    - assert (submaps w' !! a = Some t) as Ha'.
      { rewrite <- Ha0. apply (post_kept _ _ _ _ Hpost); [done|].
        rewrite Ha0. eauto. }
      destruct Hkeep.
      apply (member_to_be_deleted true w0 q a); [done| |done|by right].
      unfold resident in *. rewrite Ha' in Hr. rewrite Ha0.
      by destruct t.
    - assert (quad_indexed w0 (sm_to_omt_copy a)) as Hidx.
      { rewrite (member_quad q a Ha). exists c.
        split; [by eapply tile_at_key|done]. }
      unfold resident in Hr.
      by rewrite (post_null _ _ _ _ Hpost a Ha0 Hidx) in Hr. }
  split; [done|].
  assert (files w' !! chunk_path env q
          = Some (JArray (records_of env w0 (quad_members q)))) as Hcanon.
  { apply (post_written _ _ _ _ Hpost q).
    - exists c. split; [by eapply tile_at_key|done].
    - unfold quad_written. by rewrite Hnu, Hdis. }
  assert (quad_file env c w'
          = Some (chunk_path env q,
                  JArray (records_of env w0 (quad_members q)))) as Hfile.
  { unfold quad_file. fold q. fold (chunk_path env q). by rewrite Hcanon. }
  assert (probes env c w' = [EvFileExist (chunk_path env q)]) as Hprobes.
  { unfold probes. fold q. fold (chunk_path env q). by rewrite Hcanon. }
  rewrite (lookup_submap_miss c w' (Hgone c obj (key_in_quad c) Hobj)), Hfile.
  rewrite Hprobes. unfold read_result. cbn [deserialize].
  set (w1 := emits _ w').
  destruct (deserialize_evicted_records w0 (quad_members q) w1)
    as (w2 & Hload & _ & Ht & _ & _ & Htiles);
    [apply quad_members_NoDup|done|done|].
  rewrite Hload.
  destruct (Htiles c obj (key_in_quad c) Hobj) as (p & obj' & Hp & _).
  rewrite Hp. exists p, w2. split_and!; [done|done|].
  intros a o Ha Ho.
  destruct (Htiles a o Ha Ho) as (p' & o' & Hp' & Hheap & Hst).
  exists o'. split; [|done]. unfold tile_at. by rewrite Hp'.
Qed.

(** *** A chunk without the tile asked for *)

(** X22. A miss is not remembered.  When the chunk read for [c] is read
    through and does not bring a tile for [c], [get(c)] logs that the file
    did not contain the submap and returns null; [c] is still no key of the
    index afterwards and the files are as they were, so that the next
    [get(c)] probes the disk and reads the same chunk once more. *)
Theorem missing_tile_is_looked_up_again (c : tripoint) (path : string)
    (doc : json) (w w2 : world) :
  submaps w !! c = None →
  quad_file env c w = Some (path, doc) →
  deserialize doc (emits (probes env c w ++ [EvReadFile path]) w) = Ok tt w2 →
  submaps w2 !! c = None →
  let w3 := emit (EvDebugmsg (FileMissingSubmap path c)) w2 in
  lookup_submap env c w = Ok nullptr w3
  ∧ submaps w3 !! c = None
  ∧ files w3 = files w
  ∧ lookup_submap env c w3
    = read_result env c path
        (deserialize doc (emits (probes env c w ++ [EvReadFile path]) w3)).
Proof.
  intros Hc Hfile Hread Hc2 w3.
  destruct (deserialize_files _ _ _ Hread) as [Hf _].
  assert (files w3 = files w) as Hf3 by done.
  assert (quad_file env c w3 = Some (path, doc)
          ∧ probes env c w3 = probes env c w) as [Hfile3 Hprobes3].
  { unfold quad_file, probes in *. by rewrite Hf3. }
  split_and!.
  - rewrite (lookup_submap_miss c w Hc), Hfile. unfold read_result.
    by rewrite Hread, Hc2.
  - done.
  - done.
  - rewrite (lookup_submap_miss c w3 Hc2), Hfile3. by rewrite Hprobes3.
Qed.

End Properties.

(** *** The order of the index *)

(** X23. What [save] leaves does not depend on the order in which the index
    is walked: for any two strict total orders of the coordinates, [save]
    on a buffer that owns its tiles returns under both, with the same
    index, the same live objects and the same files. *)
Theorem save_does_not_depend_on_the_order {submap : Type} `{!Submap submap}
    (order1 order2 : TripointOrder) (env : game_env) (d : bool)
    (w0 : world submap) :
  owns w0 →
  ∃ w1 w2,
    @save submap _ order1 env d w0 = Ok tt w1
    ∧ @save submap _ order2 env d w0 = Ok tt w2
    ∧ submaps w1 = submaps w2 ∧ heap w1 = heap w2 ∧ files w1 = files w2.
Proof.
  intros Hown.
  destruct (@save_effect submap _ order1 env d w0 Hown)
    as (w1 & Hsave1 & Hpost1 & Hindex1 & Hfreed1 & Hother1).
  destruct (@save_effect submap _ order2 env d w0 Hown)
    as (w2 & Hsave2 & Hpost2 & Hindex2 & Hfreed2 & Hother2).
  exists w1, w2. split_and!; [done..| | |].
  - apply map_eq. intros k.
    destruct (classic_tbd env d w0 k) as [Htbd|Hkeep].
    { by rewrite (post_deleted _ _ _ _ Hpost1 k Htbd),
                 (post_deleted _ _ _ _ Hpost2 k Htbd). }
    destruct (submaps w0 !! k) as [t|] eqn:Hk.
    { rewrite (post_kept _ _ _ _ Hpost1 k Hkeep),
              (post_kept _ _ _ _ Hpost2 k Hkeep); rewrite ?Hk; eauto. }
    destruct (Hindex1 k) as [E1|[[_ E1]|[? _]]]; [| |done];
      destruct (Hindex2 k) as [E2|[[_ E2]|[? _]]]; try done;
      rewrite E1, E2, ?Hk; try done.
    + assert (¬ quad_indexed w0 (sm_to_omt_copy k)) as Hno.
      { intros Hidx. rewrite (post_null _ _ _ _ Hpost1 k Hk Hidx) in E1.
        by rewrite Hk in E1. }
      rewrite (post_absent _ _ _ _ Hpost2 k Hk Hno) in E2. done.
    + assert (¬ quad_indexed w0 (sm_to_omt_copy k)) as Hno.
      { intros Hidx. rewrite (post_null _ _ _ _ Hpost2 k Hk Hidx) in E2.
        by rewrite Hk in E2. }
      rewrite (post_absent _ _ _ _ Hpost1 k Hk Hno) in E1. done.
  - apply map_eq. intros p.
    destruct (decide (Some p ∈ (map_to_list (submaps w0)).*2)) as [Hin|Hout].
    + apply elem_of_index_pointers in Hin as [a Ha].
      destruct (classic_tbd env d w0 a) as [Htbd|Hkeep].
      { by rewrite (Hfreed1 a p Htbd Ha), (Hfreed2 a p Htbd Ha). }
      assert (∀ b, to_be_deleted env d w0 b →
                submaps w0 !! b ≠ Some (Some p)) as Hnone.
      { intros b Hb Hbp.
        assert (b = a) as ->
          by (by apply (no_alias_lookup w0 b a p); [apply Hown|..]).
        done. }
      by rewrite (Hother1 p Hnone), (Hother2 p Hnone).
    + assert (∀ b, to_be_deleted env d w0 b →
                submaps w0 !! b ≠ Some (Some p)) as Hnone.
      { intros b _ Hbp. apply Hout, elem_of_index_pointers. eauto. }
      by rewrite (Hother1 p Hnone), (Hother2 p Hnone).
  - apply map_eq. intros path.
    destruct (post_files _ _ _ _ Hpost1 path) as [E1|(q & Hidx & Hw & ->)].
    + destruct (post_files _ _ _ _ Hpost2 path) as [E2|(q & Hidx & Hw & ->)];
        [congruence|].
      by rewrite (post_written _ _ _ _ Hpost1 q Hidx Hw),
                 (post_written _ _ _ _ Hpost2 q Hidx Hw).
    + by rewrite (post_written _ _ _ _ Hpost1 q Hidx Hw),
                 (post_written _ _ _ _ Hpost2 q Hidx Hw).
Qed.

(** C2 at a concrete store: two tiles offered for one coordinate. *)
Lemma second_insert_is_rejected_witness :
  let w := demo_world [] [(1%positive, demo_tile false 3);
                          (2%positive, demo_tile false 4)] [] in
  let w1 := set_submaps (insert tripoint_zero (Some 1%positive)) w in
  nullptr = nullptr
  ∧ add_submap_unique tripoint_zero (Some 2%positive) w1
    = Ok (false, Some 2%positive) w1
  ∧ lookup_submap (demo_env false) tripoint_zero w1 = Ok (Some 1%positive) w1.
Proof.
  intros w w1.
  apply (second_insert_is_rejected (demo_env false) tripoint_zero
           (Some 1%positive) (Some 2%positive) nullptr w w1).
  reflexivity.
Defined.

(** C5 at a concrete store: the tile at the origin is resident, and a chunk
    brings a record for the origin followed by a record for its neighbour. *)
Lemma duplicate_record_is_rejected_witness :
  let w := demo_world [(tripoint_zero, Some 1%positive)]
                      [(1%positive, demo_tile false 3)] [] in
  let members := [("version"%string, JInt 7);
                  ("coordinates"%string, JArray [JInt 0; JInt 0; JInt 0]);
                  ("terrain"%string, JInt 9)] in
  let rest := [chunk_record (demo_env false) (Tripoint 1 0 0)
                            (demo_tile false 4)] in
  let w2 := emit (EvDebugmsg (AlreadyLoaded tripoint_zero)) w in
  deserialize_record (JObject members) w = Ok tt w2
  ∧ deserialize_records (JObject members :: rest) w
    = deserialize_records rest w2.
Proof.
  intros w members rest w2.
  apply (duplicate_record_is_rejected members rest
           (RecordLocals (Some 2%positive) tripoint_zero 7) w
           (set_heap (insert 2%positive (demo_tile false 9)) w)).
  - vm_compute. reflexivity.
  - vm_compute. eauto.
Defined.

(** ** Concrete states *)

Local Ltac solve_map_Forall tac :=
  simpl; repeat (apply map_Forall_insert_2; [tac|]); apply map_Forall_empty.

Local Ltac solve_owns :=
  split;
  [ unfold live; solve_map_Forall ltac:(simpl; eauto)
  | unfold no_alias;
    solve_map_Forall
      ltac:(solve_map_Forall
              ltac:(first [ by intros _ [? [=]] | by intros [=] | done ])) ].

(** C1 at a concrete chunk: two sound records around one in which a payload
    member comes before the coordinates.  The same happens when the record
    has no coordinates at all. *)
Lemma malformed_record_load_is_undefined_witness :
  let env := demo_env false in
  let sound a := chunk_record env a (demo_tile false 3) in
  let early := JObject [("version"%string, JInt 7);
                        ("terrain"%string, JInt 5);
                        ("coordinates"%string,
                         JArray [JInt 1; JInt 0; JInt 0])] in
  let missing := JObject [("version"%string, JInt 7);
                          ("terrain"%string, JInt 5)] in
  let store doc :=
    demo_world [] [] [(chunk_path env tripoint_zero, doc)] in
  lookup_submap env tripoint_zero
    (store (JArray [sound tripoint_zero; early; sound (Tripoint 0 1 0)]))
  = Undefined
  ∧ lookup_submap env tripoint_zero
      (store (JArray [sound tripoint_zero; missing; sound (Tripoint 0 1 0)]))
    = Undefined.
Proof.
  intros env sound early missing store. split.
  - eapply (malformed_record_load_is_undefined env tripoint_zero
              (chunk_path env tripoint_zero) [sound tripoint_zero]
              [sound (Tripoint 0 1 0)] [("version"%string, JInt 7)]
              [("coordinates"%string, JArray [JInt 1; JInt 0; JInt 0])]
              "terrain" (JInt 5)).
    + reflexivity.
    + reflexivity.
    + vm_compute. reflexivity.
    + repeat constructor. by eexists.
    + done.
    + done.
  - eapply (malformed_record_load_is_undefined env tripoint_zero
              (chunk_path env tripoint_zero) [sound tripoint_zero]
              [sound (Tripoint 0 1 0)] [("version"%string, JInt 7)] []
              "terrain" (JInt 5)).
    + reflexivity.
    + reflexivity.
    + vm_compute. reflexivity.
    + repeat constructor. by eexists.
    + done.
    + done.
Defined.

(** C9 at a concrete store: two tiles of one quad and one of another. *)
Lemma save_visits_each_quad_once_witness :
  let w0 := demo_world [(tripoint_zero, Some 1%positive);
                        (Tripoint 1 1 0, Some 2%positive);
                        (Tripoint 4 0 0, Some 3%positive)]
                       [(1%positive, demo_tile false 3);
                        (2%positive, demo_tile true 0);
                        (3%positive, demo_tile false 4)] [] in
  ∃ w' tr, save (demo_env false) false w0 = Ok tt w'
           ∧ trace w' = trace w0 ++ tr
           ∧ NoDup (saved_quads tr)
           ∧ ∀ q, q ∈ saved_quads tr ↔ quad_indexed w0 q.
Proof.
  intros w0. apply (save_visits_each_quad_once (demo_env false) false w0).
  solve_owns.
Defined.

Lemma demo_tile_round_trips (env : game_env) (a : tripoint) (uniform : bool)
    (terrain : Z) (offset : tripoint) :
  round_trips env a (DemoSubmap uniform offset [("terrain"%string, JInt terrain)]).
Proof.
  split.
  - repeat constructor; simpl; done.
  - eexists. split; reflexivity.
Qed.

(** Every tile of a concrete store that is looked at round-trips. *)
Local Ltac solve_round_trips :=
  let a := fresh "a" in
  let o := fresh "o" in
  let Ha := fresh "Ha" in
  let Ho := fresh "Ho" in
  intros a o Ha Ho; vm_compute in Ha;
  repeat (apply elem_of_cons in Ha as [Ha|Ha];
          [subst a; vm_compute in Ho;
           first [ discriminate Ho
                 | injection Ho as <-; apply demo_tile_round_trips ]|]);
  by apply elem_of_nil in Ha.

(** C3 at a concrete store: a quad with one uniform tile, the other three
    slots empty. *)
Lemma uniform_quad_is_elided_witness :
  let env := demo_env false in
  let q := Tripoint 1 1 0 in
  let w0 := demo_world [(Tripoint 2 3 0, Some 1%positive)]
                       [(1%positive, demo_tile true 0)] [] in
  (∀ dirname filename queue d,
     ∃ queue' w',
       save_quad env dirname filename q queue d w0 = Ok queue' w'
       ∧ files w' = files w0 ∧ dirs w' = dirs w0
       ∧ trace w' = trace w0 ++ [EvSaveQuad q d]
       ∧ (d = true → ∀ a, a ∈ quad_members q → resident w0 a → a ∈ queue'))
  ∧ (∀ d,
     ∃ w' tr,
       save env d w0 = Ok tt w'
       ∧ files w' !! chunk_path env q = files w0 !! chunk_path env q
       ∧ trace w' = trace w0 ++ tr
       ∧ (chunk_path env q ∉ written_files tr)
       ∧ (∀ dir, dir ∈ dirs w' →
            dir ∈ dirs w0 ∨ dir = maps_dir env
            ∨ ∃ q', q' ≠ q ∧ quad_written env w0 q' = true
                    ∧ dir = find_dirname env q')
       ∧ ((d = true ∨ delete_flag env d q = true) →
          ∀ a, a ∈ quad_members q → resident w0 a → submaps w' !! a = None)).
Proof.
  intros env q w0. apply (uniform_quad_is_elided env q w0).
  - solve_owns.
  - vm_compute. reflexivity.
Defined.

(** C4 at a concrete store: the chunk of the quad holds a member on which
    the tile loader throws; [get] logs the failure and returns absence. *)
Lemma lookup_submap_soft_failure_witness :
  let env := demo_env false in
  let path := chunk_path env tripoint_zero in
  let doc := JArray [JObject [("version"%string, JInt 7);
                              ("coordinates"%string,
                               JArray [JInt 0; JInt 0; JInt 0]);
                              ("corrupt"%string, JNull)]] in
  let w := demo_world [] [] [(path, doc)] in
  lookup_submap env tripoint_zero w
  = Ok nullptr
       (emits [EvFileExist path; EvReadFile path;
               EvDebugmsg (FailedToRead path "corrupt member")] w).
Proof.
  intros env path doc w.
  destruct (lookup_submap_soft_failure env tripoint_zero w)
    as (_ & _ & _ & _ & Hmiss).
  destruct (Hmiss eq_refl) as (_ & Hread).
  destruct (Hread path doc eq_refl) as (_ & Hthrow & _).
  rewrite (Hthrow "corrupt member"%string
             (emits [EvFileExist path; EvReadFile path] w));
    vm_compute; reflexivity.
Defined.

(** C4 as stated fails for a null entry.  After two calls of
    [save( false )] the far coordinate is a key of the index that holds no
    tile, and the chunk of its quad on the disk holds its record: [get]
    returns absence at once, without a look at the disk, where a demand load
    (as the same call makes it once the entry is taken out) brings the
    tile. *)
Lemma null_entry_is_not_demand_loaded :
  let env := demo_env false in
  let c := Tripoint 40 0 0 in
  let path := chunk_path env (sm_to_omt_copy c) in
  ∃ w1 w2,
    save env false demo_buffer = Ok tt w1
    ∧ save env false w1 = Ok tt w2
    ∧ resident w2 c = false
    ∧ submaps w2 !! c = Some nullptr
    ∧ quad_file env c w2
      = Some (path, JArray [chunk_record env c (demo_tile false 4)])
    ∧ lookup_submap env c w2 = Ok nullptr w2
    ∧ ∃ p w3, lookup_submap env c (set_submaps (delete c) w2)
              = Ok (Some p) w3
              ∧ trace w3 = trace w2 ++ [EvFileExist path; EvReadFile path].
Proof.
  intros env c path. eexists _, _.
  split; [vm_compute; reflexivity|].
  split; [vm_compute; reflexivity|].
  split_and!; [vm_compute; reflexivity..|].
  eexists _, _. split; vm_compute; reflexivity.
Defined.

(** C6 as stated fails when map generation is disabled: the far quad holds a
    tile that is not uniform, [save_quad] returns before it queues anything,
    and the tile is still in the index after [save( false )]. *)
Lemma far_quad_kept_without_mapgen :
  let env := demo_env true in
  let far := Tripoint 20 0 0 in
  let w0 := demo_world [(far, Some 1%positive)]
                       [(1%positive, demo_tile false 3)] [] in
  owns w0
  ∧ sm_to_omt_copy (abs_sub env) = tripoint_zero
  ∧ horizontal_distance tripoint_zero (sm_to_omt_copy far) > HALF_MAPSIZE env
  ∧ resident w0 far = true
  ∧ ∃ w', save env false w0 = Ok tt w'
          ∧ submaps w' !! far = Some (Some 1%positive).
Proof.
  intros env far w0. split_and!; [solve_owns|done|done|done|].
  eexists. split; vm_compute; reflexivity.
Defined.

(** C6, as amended, at a concrete store: a tile that is not uniform in a far
    quad, with map generation enabled. *)
Lemma far_quad_is_dropped_witness :
  let env := demo_env false in
  let q := Tripoint 10 0 0 in
  let w0 := demo_world [(Tripoint 20 0 0, Some 1%positive)]
                       [(1%positive, demo_tile false 3)] [] in
  (∀ dirname filename queue,
     ∃ queue' w',
       save_quad env dirname filename q queue (delete_flag env false q) w0
         = Ok queue' w'
       ∧ ∀ a, a ∈ quad_members q → resident w0 a → a ∈ queue')
  ∧ ∃ w', save env false w0 = Ok tt w'
          ∧ ∀ a, a ∈ quad_members q → resident w0 a →
                 submaps w' !! a = None.
Proof.
  intros env q w0. apply (far_quad_is_dropped env q w0).
  - solve_owns.
  - reflexivity.
  - vm_compute. reflexivity.
  - by right.
Defined.

(** C7 as stated fails when map generation is disabled: [save( false )]
    writes no chunk for the tile, and a demand load into an empty index over
    the same files returns absence. *)
Lemma save_without_mapgen_loses_tile :
  let env := demo_env true in
  let w0 := demo_world [(tripoint_zero, Some 1%positive)]
                       [(1%positive, demo_tile false 3)] [] in
  owns w0
  ∧ tile_at w0 tripoint_zero = Some (demo_tile false 3)
  ∧ is_uniform (demo_tile false 3) = false
  ∧ round_trips env tripoint_zero (demo_tile false 3)
  ∧ ∃ w', save env false w0 = Ok tt w'
          ∧ ∃ wf', lookup_submap env tripoint_zero
                     (World ∅ ∅ (files w') (dirs w') [])
                   = Ok nullptr wf'.
Proof.
  intros env w0.
  split_and!; [solve_owns|done|done|apply demo_tile_round_trips|].
  eexists. split; [vm_compute; reflexivity|].
  eexists. vm_compute. reflexivity.
Defined.

(** C7, as amended, at a concrete store: a quad with a plain tile and a
    uniform one, map generation enabled. *)
Lemma save_then_load_round_trip_witness :
  let env := demo_env false in
  let w0 := demo_world [(tripoint_zero, Some 1%positive);
                        (Tripoint 1 0 0, Some 2%positive)]
                       [(1%positive, demo_tile false 3);
                        (2%positive, demo_tile true 0)] [] in
  ∃ w', save env false w0 = Ok tt w'
        ∧ ∀ wf, submaps wf = ∅ → files wf = files w' →
            ∃ p obj' wf',
              lookup_submap env tripoint_zero wf = Ok (Some p) wf'
              ∧ submaps wf' !! tripoint_zero = Some (Some p)
              ∧ heap wf' !! p = Some obj'
              ∧ submap_store obj' = submap_store (demo_tile false 3).
Proof.
  intros env w0.
  apply (save_then_load_round_trip env tripoint_zero (demo_tile false 3) w0).
  - solve_owns.
  - reflexivity.
  - reflexivity.
  - reflexivity.
  - solve_round_trips.
Defined.


(** C10 as stated fails for a member that [save] deletes: the tile at the
    origin is resident, [save( true )] handles its quad, and the origin is
    not a key of the index afterwards. *)
Lemma deleted_member_is_no_key :
  let env := demo_env false in
  let w0 := demo_world [(tripoint_zero, Some 1%positive)]
                       [(1%positive, demo_tile false 3)] [] in
  owns w0
  ∧ quad_indexed w0 (sm_to_omt_copy tripoint_zero)
  ∧ tripoint_zero ∈ quad_members (sm_to_omt_copy tripoint_zero)
  ∧ ∃ w', save env true w0 = Ok tt w'
          ∧ submaps w' !! tripoint_zero = None.
Proof.
  intros env w0. split_and!; [solve_owns| |apply key_in_quad|].
  - exists tripoint_zero. split; [by eexists|done].
  - eexists. split; vm_compute; reflexivity.
Defined.

(** C10, as amended, at a concrete store: the neighbour of the only tile of
    a quad. *)
Lemma save_leaves_null_entries_witness :
  let env := demo_env false in
  let c := Tripoint 1 0 0 in
  let w0 := demo_world [(tripoint_zero, Some 1%positive)]
                       [(1%positive, demo_tile false 3)] [] in
  ∃ w', save env false w0 = Ok tt w'
        ∧ (submaps w' !! c = None → to_be_deleted env false w0 c)
        ∧ (submaps w0 !! c = None →
           submaps w' !! c = Some nullptr
           ∧ lookup_submap env c w' = Ok nullptr w'
           ∧ ∀ t, add_submap c t w' = Ok false w'
                  ∧ add_submap_unique c t w' = Ok (false, t) w').
Proof.
  intros env c w0. apply (save_leaves_null_entries env false c w0).
  - solve_owns.
  - exists tripoint_zero. split; [by eexists|done].
Defined.

(** *** Loads *)

Lemma load_keeps_ownership_witness :
  let doc := demo_failing_chunk (demo_env false) in
  let w := demo_world [(tripoint_zero, Some 1%positive)]
                      [(1%positive, demo_tile false 3)] [] in
  let w' := state_after (deserialize doc w) w in
  owns w'
  ∧ (∀ k t, submaps w !! k = Some t →
       submaps w' !! k = Some t ∧ tile_at w' k = tile_at w k)
  ∧ (∀ p, is_Some (heap w' !! p) →
       is_Some (heap w !! p) ∨ ∃ k, submaps w' !! k = Some (Some p))
  ∧ files w' = files w ∧ dirs w' = dirs w
  ∧ ∃ tr, trace w' = trace w ++ tr ∧ Forall reads_only tr.
Proof.
  intros doc w w'. apply (load_keeps_ownership doc w w').
  - solve_owns.
  - vm_compute. reflexivity.
Defined.

Lemma failed_load_keeps_earlier_records_witness :
  let doc := demo_failing_chunk (demo_env false) in
  let w := demo_world [(tripoint_zero, Some 1%positive)]
                      [(1%positive, demo_tile false 3)] [] in
  let w' := state_after (deserialize doc w) w in
  let e := "corrupt member"%string in
  (w' = w ∧ ∀ records, doc ≠ JArray records)
  ∨ ∃ before record after,
      doc = JArray (before ++ record :: after)
      ∧ deserialize_records before w = Ok tt w'
      ∧ deserialize_record record w' = Throw e w'.
Proof.
  intros doc w w' e. apply (failed_load_keeps_earlier_records doc e w w').
  vm_compute. reflexivity.
Defined.

Lemma lookup_submap_returns_owned_tile_witness :
  let env := demo_env false in
  let c := Tripoint 1 0 0 in
  let w := demo_world [(tripoint_zero, Some 1%positive)]
                      [(1%positive, demo_tile false 3)]
                      [(chunk_path env tripoint_zero,
                        JArray [chunk_record env c (demo_tile false 4)])] in
  let w' := state_after (lookup_submap env c w) w in
  let r := Some 2%positive in
  owns w'
  ∧ (∀ p, r = Some p →
       submaps w' !! c = Some (Some p) ∧ is_Some (heap w' !! p)
       ∧ lookup_submap env c w' = Ok (Some p) w')
  ∧ (∀ k t, submaps w !! k = Some t →
       submaps w' !! k = Some t ∧ tile_at w' k = tile_at w k)
  ∧ (∀ p, is_Some (heap w' !! p) →
       is_Some (heap w !! p) ∨ ∃ k, submaps w' !! k = Some (Some p))
  ∧ files w' = files w ∧ dirs w' = dirs w
  ∧ ∃ tr, trace w' = trace w ++ tr ∧ Forall reads_only tr.
Proof.
  intros env c w w' r.
  apply (lookup_submap_returns_owned_tile env c r w w').
  - solve_owns.
  - vm_compute. reflexivity.
Defined.

Lemma tile_read_before_a_failure_is_found_later_witness :
  let env := demo_env false in
  let c := Tripoint 1 0 0 in
  let path := chunk_path env tripoint_zero in
  let e := "corrupt member"%string in
  let w := demo_world [] [] [(path, demo_failing_chunk env)] in
  let w2 := state_after
              (deserialize_records
                 [chunk_record env c (demo_tile false 4)]
                 (emits [EvFileExist path; EvReadFile path] w)) w in
  let w3 := emit (EvDebugmsg (FailedToRead path e)) w2 in
  lookup_submap env c w = Ok nullptr w3
  ∧ lookup_submap env c w3 = Ok (Some 1%positive) w3.
Proof.
  intros env c path e w w2 w3.
  apply (tile_read_before_a_failure_is_found_later env c path
           [chunk_record env c (demo_tile false 4)] []
           (JObject [("version"%string, JInt 7);
                     ("coordinates"%string, JArray [JInt 0; JInt 1; JInt 0]);
                     ("corrupt"%string, JNull)])
           e 1%positive w w2 w2).
  - reflexivity.
  - reflexivity.
  - vm_compute. reflexivity.
  - vm_compute. reflexivity.
  - vm_compute. reflexivity.
Defined.

Lemma record_without_coordinates_takes_origin_witness :
  let env := demo_env false in
  let w := demo_world [] [] [] in
  let w' := set_submaps (insert tripoint_zero nullptr) w in
  deserialize_record (JObject [("version"%string, JInt 7)]) w = Ok tt w'
  ∧ lookup_submap env tripoint_zero w' = Ok nullptr w'
  ∧ ∀ t, add_submap tripoint_zero t w' = Ok false w'
         ∧ add_submap_unique tripoint_zero t w' = Ok (false, t) w'.
Proof.
  intros env w.
  apply (record_without_coordinates_takes_origin env
           [("version"%string, JInt 7)] w).
  - repeat constructor. by eexists.
  - reflexivity.
Defined.

Lemma canonical_chunk_is_preferred_witness :
  let env := demo_env false in
  let c := Tripoint 2469 14 8 in
  let path := "save/maps/38.0.8/1234.7.8.map"%string in
  let old_path := "save/maps/38.0.8/1,234.7.8.map"%string in
  let doc := JArray [chunk_record env c (demo_tile false 3)] in
  let w := demo_world [] [] [(path, doc); (old_path, JArray [])] in
  lookup_submap env c w
  = read_result env c path
      (deserialize doc (emits [EvFileExist path; EvReadFile path] w)).
Proof.
  intros env c path old_path doc w.
  apply (canonical_chunk_is_preferred env c doc w).
  - reflexivity.
  - vm_compute. reflexivity.
Defined.

Lemma demand_load_brings_whole_quad_witness :
  let env := demo_env false in
  let q := tripoint_zero in
  let w0 := demo_world [(tripoint_zero, Some 1%positive);
                        (Tripoint 1 0 0, Some 2%positive)]
                       [(1%positive, demo_tile false 3);
                        (2%positive, demo_tile true 0)] [] in
  ∃ w', save env false w0 = Ok tt w'
    ∧ ∀ wf c, submaps wf = ∅ → files wf = files w' → c ∈ quad_members q →
        ∃ r wf',
          lookup_submap env c wf = Ok r wf'
          ∧ r = default nullptr (submaps wf' !! c)
          ∧ ∀ a obj, a ∈ quad_members q → tile_at w0 a = Some obj →
              ∃ p obj', submaps wf' !! a = Some (Some p)
                        ∧ heap wf' !! p = Some obj'
                        ∧ submap_store obj' = submap_store obj
                        ∧ lookup_submap env a wf' = Ok (Some p) wf'.
Proof.
  intros env q w0. apply (demand_load_brings_whole_quad env q w0).
  - solve_owns.
  - reflexivity.
  - exists tripoint_zero. split; [by eexists|done].
  - vm_compute. reflexivity.
  - solve_round_trips.
Defined.

(** *** Saves *)

Lemma save_frees_what_it_drops_witness :
  let env := demo_env false in
  let w0 := demo_buffer in
  ∃ w', save env false w0 = Ok tt w'
    ∧ (∀ a p, submaps w0 !! a = Some (Some p) →
         (submaps w' !! a = None ∧ heap w' !! p = None)
         ∨ (submaps w' !! a = Some (Some p) ∧ heap w' !! p = heap w0 !! p))
    ∧ (∀ p, (∀ a, submaps w0 !! a ≠ Some (Some p)) →
            heap w' !! p = heap w0 !! p).
Proof.
  intros env w0. apply (save_frees_what_it_drops env false w0). solve_owns.
Defined.

Lemma save_keeps_the_window_witness :
  let env := demo_env false in
  let w0 := demo_buffer in
  ∃ w', save env false w0 = Ok tt w'
    ∧ ∀ k,
        (resident w' k ↔
           resident w0 k
           ∧ ((false = false ∧ in_window env (sm_to_omt_copy k))
              ∨ (disable_mapgen env = true
                 ∧ quad_uniform w0 (sm_to_omt_copy k) = false)))
        ∧ (resident w' k →
           submaps w' !! k = submaps w0 !! k ∧ tile_at w' k = tile_at w0 k).
Proof.
  intros env w0. apply (save_keeps_the_window env false w0). solve_owns.
Defined.

Lemma written_chunk_holds_the_tiles_of_its_quad_witness :
  let env := demo_env false in
  let w0 := demo_buffer in
  ∃ w' tr, save env true w0 = Ok tt w'
    ∧ trace w' = trace w0 ++ tr
    ∧ ∀ path, path ∈ written_files tr →
        ∃ q a obj,
          path = chunk_path env q
          ∧ a ∈ quad_members q ∧ tile_at w0 a = Some obj
          ∧ is_uniform obj = false
          ∧ files w' !! path
            = Some (JArray (records_of env w0 (quad_members q)))
          ∧ length (records_of env w0 (quad_members q))
            = length (filter (λ a, resident w0 a) (quad_members q))
          ∧ (1 ≤ length (records_of env w0 (quad_members q)) ≤ 4)%nat.
Proof.
  intros env w0.
  apply (written_chunk_holds_the_tiles_of_its_quad env true w0). solve_owns.
Defined.

Lemma second_save_leaves_the_files_witness :
  let env := demo_env false in
  let w0 := demo_buffer in
  ∃ w' w'', save env false w0 = Ok tt w'
    ∧ save env true w' = Ok tt w''
    ∧ files w'' = files w'.
Proof.
  intros env w0. apply (second_save_leaves_the_files env false true w0).
  solve_owns.
Defined.

Lemma save_without_mapgen_writes_nothing_witness :
  let env := demo_env true in
  let w0 := demo_buffer in
  ∃ w' tr, save env true w0 = Ok tt w'
    ∧ files w' = files w0
    ∧ trace w' = trace w0 ++ tr ∧ written_files tr = []
    ∧ ∀ dir, dir ∈ dirs w' → dir ∈ dirs w0 ∨ dir = maps_dir env.
Proof.
  intros env w0. apply (save_without_mapgen_writes_nothing env true w0).
  - solve_owns.
  - reflexivity.
Defined.

Lemma save_of_an_empty_buffer_witness :
  let env := demo_env false in
  let w := demo_world [] [(1%positive, demo_tile false 3)] [] in
  save env true w
  = Ok tt (emit (EvAssureDir (maps_dir env))
                (set_dirs (union {[maps_dir env]}) w)).
Proof.
  intros env w. apply (save_of_an_empty_buffer env true w). reflexivity.
Defined.

Lemma chunk_in_order_is_read_safely_witness :
  let env := demo_env false in
  let c := Tripoint 0 1 0 in
  let path := chunk_path env tripoint_zero in
  let doc := demo_failing_chunk env in
  let w := demo_world [] [] [(path, doc)] in
  (∀ w1 : world demo_submap, returns_or_throws (deserialize doc w1))
  ∧ ∃ r w', lookup_submap env c w = Ok r w'
            ∧ (r = nullptr ∨ submaps w' !! c = Some r).
Proof.
  intros env c path doc w.
  apply (chunk_in_order_is_read_safely env c path doc w).
  - vm_compute. exact I.
  - reflexivity.
  - vm_compute. reflexivity.
Defined.

Lemma saved_chunks_are_read_safely_witness :
  let env := demo_env false in
  let w0 := demo_buffer in
  ∃ w' tr, save env false w0 = Ok tt w'
    ∧ trace w' = trace w0 ++ tr
    ∧ (∀ path, path ∈ written_files tr →
         ∃ doc, files w' !! path = Some doc ∧ chunk_in_order doc)
    ∧ ∀ wf c, submaps wf !! c = None → files wf = files w' →
        chunk_path env (sm_to_omt_copy c) ∈ written_files tr →
        ∃ r wf', lookup_submap env c wf = Ok r wf'.
Proof.
  intros env w0. apply (saved_chunks_are_read_safely env false w0).
  solve_owns.
Defined.

(** *** Insertion, removal and [reset] *)

Lemma reset_frees_every_tile_witness :
  let w := demo_buffer in
  ∃ w', reset w = Ok tt w'
    ∧ submaps w' = ∅
    ∧ (∀ k p, submaps w !! k = Some (Some p) → heap w' !! p = None)
    ∧ (∀ p, (∀ k, submaps w !! k ≠ Some (Some p)) →
            heap w' !! p = heap w !! p)
    ∧ files w' = files w ∧ dirs w' = dirs w ∧ trace w' = trace w.
Proof.
  intros w. apply (reset_frees_every_tile w). solve_owns.
Defined.

Lemma aliased_tile_is_freed_twice_witness :
  let k1 := tripoint_zero in
  let k2 := Tripoint 1 0 0 in
  let p := 1%positive in
  let w := demo_world [(k1, Some p)] [(p, demo_tile false 3)] [] in
  ∃ w', add_submap k2 (Some p) w = Ok true w'
    ∧ submaps w' !! k1 = Some (Some p) ∧ submaps w' !! k2 = Some (Some p)
    ∧ reset w' = Undefined
    ∧ (remove_submap k1;; remove_submap k2) w' = Undefined.
Proof.
  intros k1 k2 p w. apply (aliased_tile_is_freed_twice k1 k2 p w).
  - reflexivity.
  - reflexivity.
Defined.

Lemma insert_hands_the_tile_over_witness :
  let c := Tripoint 1 0 0 in
  let p := 2%positive in
  let w := demo_world [(tripoint_zero, Some 1%positive)]
                      [(1%positive, demo_tile false 3);
                       (p, demo_tile false 4)] [] in
  ∃ r h w', add_submap_unique c (Some p) w = Ok (r, h) w'
    ∧ owns w' ∧ heap w' = heap w
    ∧ (r = true ↔ submaps w !! c = None)
    ∧ (r = true → h = nullptr ∧ submaps w' = <[c:=Some p]> (submaps w))
    ∧ (r = false → h = Some p ∧ w' = w).
Proof.
  intros c p w. apply (insert_hands_the_tile_over c p w).
  - solve_owns.
  - vm_compute. eauto.
  - intros k Hk. simpl in Hk.
    apply lookup_insert_Some in Hk as [[_ [=]]|[_ Hk]].
    by rewrite lookup_empty in Hk.
Defined.

Lemma remove_submap_destroys_the_tile_witness :
  let c := Tripoint 40 0 0 in
  let t := Some 3%positive in
  let w := demo_buffer in
  ∃ w1, remove_submap c w = Ok tt w1
    ∧ owns w1
    ∧ submaps w1 = delete c (submaps w)
    ∧ heap w1 = (if t is Some p then delete p (heap w) else heap w)
    ∧ (∀ k, k ≠ c → tile_at w1 k = tile_at w k)
    ∧ files w1 = files w ∧ dirs w1 = dirs w ∧ trace w1 = trace w
    ∧ remove_submap c w1
      = Ok tt (emit (EvDebugmsg (RemoveNonExisting c)) w1).
Proof.
  intros c t w. apply (remove_submap_destroys_the_tile c t w).
  - solve_owns.
  - reflexivity.
Defined.

(** *** Eviction and reload *)

Lemma evicted_tile_is_read_back_witness :
  let env := demo_env false in
  let c := tripoint_zero in
  let q := sm_to_omt_copy c in
  let w0 := demo_buffer in
  ∃ w', save env true w0 = Ok tt w'
    ∧ (∀ a, a ∈ quad_members q → resident w' a = false)
    ∧ ∃ p w'',
        lookup_submap env c w' = Ok (Some p) w''
        ∧ trace w'' = trace w' ++ [EvFileExist (chunk_path env q);
                                   EvReadFile (chunk_path env q)]
        ∧ ∀ a o, a ∈ quad_members q → tile_at w0 a = Some o →
            ∃ o', tile_at w'' a = Some o'
                  ∧ submap_store o' = submap_store o.
Proof.
  intros env c q w0.
  apply (evicted_tile_is_read_back env c (demo_tile false 3) w0).
  - solve_owns.
  - reflexivity.
  - reflexivity.
  - vm_compute. reflexivity.
  - solve_round_trips.
Defined.

(** *** A miss, and the order of the index *)

Lemma missing_tile_is_looked_up_again_witness :
  let env := demo_env false in
  let c := tripoint_zero in
  let path := chunk_path env tripoint_zero in
  let doc := JArray [chunk_record env (Tripoint 1 0 0) (demo_tile false 4)] in
  let w := demo_world [] [] [(path, doc)] in
  let w2 := state_after
              (deserialize doc (emits (probes env c w ++ [EvReadFile path]) w))
              w in
  let w3 := emit (EvDebugmsg (FileMissingSubmap path c)) w2 in
  lookup_submap env c w = Ok nullptr w3
  ∧ submaps w3 !! c = None
  ∧ files w3 = files w
  ∧ lookup_submap env c w3
    = read_result env c path
        (deserialize doc (emits (probes env c w ++ [EvReadFile path]) w3)).
Proof.
  intros env c path doc w w2 w3.
  apply (missing_tile_is_looked_up_again env c path doc w w2).
  - reflexivity.
  - vm_compute. reflexivity.
  - vm_compute. reflexivity.
  - vm_compute. reflexivity.
Defined.

Lemma save_does_not_depend_on_the_order_witness :
  let env := demo_env false in
  let w0 := demo_buffer in
  ∃ w1 w2,
    @save demo_submap _ lexicographic_order env false w0 = Ok tt w1
    ∧ @save demo_submap _ reverse_order env false w0 = Ok tt w2
    ∧ submaps w1 = submaps w2 ∧ heap w1 = heap w2 ∧ files w1 = files w2.
Proof.
  intros env w0.
  apply (save_does_not_depend_on_the_order lexicographic_order reverse_order
           env false w0).
  solve_owns.
Defined.
